(** * StratisQL: the filter compiler, the update operators, the CRUD verbs,
      the transaction wrapper and the unwind stage, embedded from the
      TypeScript sources and verified against the specification. *)

From Stdlib Require Import ZArith String Ascii Permutation Lia.
From stdpp Require Import base list sets strings pretty gmap.

Local Open Scope Z_scope.

(** ** JavaScript values as the compilers read them

    Filters, query parameters, rows and decoded documents are only ever
    read, so they are immutable trees.  An object is the list of its own
    enumerable properties in enumeration order (keys are distinct), so a
    [for ... in] loop walks the list and [o[k]] is the value paired with
    [k]; a key that is an array index, which JavaScript enumerates before
    the others, is not treated specially.  Numbers are the integers. *)

Local Unset Elimination Schemes.
Inductive value : Type :=
| VUndef
| VNull
| VBool (b : bool)
| VNum (n : Z)
| VStr (s : string)
| VArr (elems : list value)
| VObj (props : list (string * value)).
Local Set Elimination Schemes.

(** [types/index.ts]: [type Document = Record<string, any>]. *)
Abbreviation Document := (list (string * value)).

(** A call either returns or throws a [TypeError] (reading a property of
    a value that has none, calling something that is not a function). *)
Inductive outcome (A : Type) : Type :=
| Return (a : A)
| TypeError.
Arguments Return {A} a.
Arguments TypeError {A}.

(** The own property [k] of [o], [undefined] when there is none. It is
    [o[k]] for every [k] that is not a name all objects inherit (see
    [inheritedName]). *)
Fixpoint prop (o : Document) (k : string) : value :=
  match o with
  | [] => VUndef
  | (k', v) :: rest => if String.eqb k' k then v else prop rest k
  end.

(** [{ ...o, [k]: v }] and [o[k] = v]: an existing key keeps its place
    and a new key comes last (JavaScript enumerates a key that is an
    array index before the others). *)
Fixpoint setProp (o : Document) (k : string) (v : value) : Document :=
  match o with
  | [] => [(k, v)]
  | (k', v') :: rest =>
      if String.eqb k' k then (k', v) :: rest else (k', v') :: setProp rest k v
  end.

Definition isArray (v : value) : bool :=
  match v with VArr _ => true | _ => false end.

(** [typeof v === 'object'] holds of objects, arrays and [null]. *)
Definition typeofObject (v : value) : bool :=
  match v with VObj _ | VArr _ | VNull => true | _ => false end.

(** JavaScript truthiness. *)
Definition truthy (v : value) : bool :=
  match v with
  | VUndef | VNull => false
  | VBool b => b
  | VNum n => negb (n =? 0)
  | VStr s => negb (String.eqb s "")
  | VArr _ | VObj _ => true
  end.

(** The keys and values a [for ... in] loop visits on an array or on a
    string: the indices, in order. *)
Definition indexed (xs : list value) : Document :=
  imap (fun i x => (pretty i, x)) xs.

Fixpoint chars (s : string) : list value :=
  match s with
  | EmptyString => []
  | String c s' => VStr (String c EmptyString) :: chars s'
  end.

(** ** The Predicate Compiler ([utils/helpers.ts]) *)

Module Helpers.

Section WithDialect.
Variable dialect : string.

Definition parseKey (key : string) : string :=
  if String.eqb dialect "postgres"
  then "data->>'" +:+ key +:+ "'"
  else "JSON_UNQUOTE(JSON_EXTRACT(data, '$." +:+ key +:+ "'))".

(** [value[op].map(() => '?').join(', ')], which throws unless the
    operand is an array. *)
Definition placeholders (operand : value) : outcome (string * list value) :=
  match operand with
  | VArr xs => Return (String.concat ", " (map (fun _ => "?") xs), xs)
  | _ => TypeError
  end.

Section Operators.
Variable key : string.
(** The recursive call [parseCondition(key, value[op])] of the [$not] case. *)
Variable negated : value -> list value -> outcome (string * list value).

(** The [for (const op in value)] loop with its [switch]; the closure
    variable [params] is threaded through. *)
Fixpoint operators (ops : list (string * value)) (subClauses : list string)
    (params : list value) {struct ops} : outcome (string * list value) :=
  match ops with
  | [] => Return (String.concat " AND " subClauses, params)
  | (op, operand) :: rest =>
      if String.eqb op "$eq" then
        operators rest (subClauses ++ [parseKey key +:+ " = ?"]) (params ++ [operand])
      else if String.eqb op "$ne" then
        operators rest (subClauses ++ [parseKey key +:+ " <> ?"]) (params ++ [operand])
      else if String.eqb op "$gt" then
        operators rest (subClauses ++ [parseKey key +:+ " > ?"]) (params ++ [operand])
      else if String.eqb op "$gte" then
        operators rest (subClauses ++ [parseKey key +:+ " >= ?"]) (params ++ [operand])
      else if String.eqb op "$lt" then
        operators rest (subClauses ++ [parseKey key +:+ " < ?"]) (params ++ [operand])
      else if String.eqb op "$lte" then
        operators rest (subClauses ++ [parseKey key +:+ " <= ?"]) (params ++ [operand])
      else if String.eqb op "$in" then
        match placeholders operand with
        | Return (qs, xs) =>
            operators rest (subClauses ++ [parseKey key +:+ " IN (" +:+ qs +:+ ")"])
                      (params ++ xs)
        | TypeError => TypeError
        end
      else if String.eqb op "$nin" then
        match placeholders operand with
        | Return (qs, xs) =>
            operators rest (subClauses ++ [parseKey key +:+ " NOT IN (" +:+ qs +:+ ")"])
                      (params ++ xs)
        | TypeError => TypeError
        end
      else if String.eqb op "$not" then
        match negated operand params with
        | Return (notCond, params') =>
            operators rest (subClauses ++ ["NOT (" +:+ notCond +:+ ")"]) params'
        | TypeError => TypeError
        end
      else operators rest subClauses params
  end.
End Operators.

(** [parseCondition(key, value)]: an operator mapping when [value] is an
    object that is neither [null] nor an array, a simple equality
    otherwise. *)
Fixpoint parseCondition (key : string) (v : value) (params : list value)
  {struct v} : outcome (string * list value) :=
  match v with
  | VObj ops => operators key (parseCondition key) ops [] params
  | _ => Return (parseKey key +:+ " = ?", params ++ [v])
  end.

(** The last branch of the [for (const key in filter)] loop:
    [const cond = parseCondition(key, filter[key]); if (cond) clauses.push(cond)]. *)
Definition fieldEntry (key : string) (v : value)
    (clauses : list string) (params : list value)
  : outcome (list string * list value) :=
  match parseCondition key v params with
  | Return (cond, params') =>
      Return (if String.eqb cond "" then clauses else clauses ++ [cond], params')
  | TypeError => TypeError
  end.

Section Nested.
(** The recursive call [buildWhereClause(cond, dialect)]. *)
Variable compile : value -> outcome (string * list value).

(** [filter[key].map(cond => { const { clause } = buildWhereClause(cond, dialect);
    return `(${clause})` })]: only [clause] is taken from the nested result. *)
Fixpoint nestedClauses (conds : list value) : outcome (list string) :=
  match conds with
  | [] => Return []
  | cond :: conds' =>
      match compile cond with
      | Return (clause, _) =>
          match nestedClauses conds' with
          | Return rest => Return (("(" +:+ clause +:+ ")") :: rest)
          | TypeError => TypeError
          end
      | TypeError => TypeError
      end
  end.

(** The [$not] branch: [const { clause } = buildWhereClause(filter[key], dialect)]. *)
Definition notEntry (v : value) (clauses : list string) (params : list value)
  : outcome (list string * list value) :=
  match compile v with
  | Return (clause, _) => Return (clauses ++ ["NOT (" +:+ clause +:+ ")"], params)
  | TypeError => TypeError
  end.

(** The [for (const key in filter)] loop over an object. *)
Fixpoint filterEntries (entries : list (string * value))
    (clauses : list string) (params : list value)
  : outcome (string * list value) :=
  match entries with
  | [] => Return (String.concat " AND " clauses, params)
  | (key, v) :: rest =>
      let continue r :=
        match r with
        | Return (clauses', params') => filterEntries rest clauses' params'
        | TypeError => TypeError
        end in
      match v with
      | VArr conds =>
          if String.eqb key "$or" then
            match nestedClauses conds with
            | Return orClauses =>
                filterEntries rest
                  (clauses ++ ["(" +:+ String.concat " OR " orClauses +:+ ")"]) params
            | TypeError => TypeError
            end
          else if String.eqb key "$and" then
            match nestedClauses conds with
            | Return andClauses =>
                filterEntries rest
                  (clauses ++ ["(" +:+ String.concat " AND " andClauses +:+ ")"]) params
            | TypeError => TypeError
            end
          else if String.eqb key "$not" then continue (notEntry v clauses params)
          else continue (fieldEntry key v clauses params)
      | _ =>
          if String.eqb key "$not" && typeofObject v
          then continue (notEntry v clauses params)
          else continue (fieldEntry key v clauses params)
      end
  end.
End Nested.

(** The loop over the index keys of an array or a string, none of which
    is a combinator. *)
Fixpoint indexEntries (entries : list (string * value))
    (clauses : list string) (params : list value)
  : outcome (string * list value) :=
  match entries with
  | [] => Return (String.concat " AND " clauses, params)
  | (key, v) :: rest =>
      match fieldEntry key v clauses params with
      | Return (clauses', params') => indexEntries rest clauses' params'
      | TypeError => TypeError
      end
  end.
End WithDialect.

(** [buildWhereClause(filter, dialect)], returning [(clause, params)]. *)
Fixpoint buildWhereClause (filter : value) (dialect : string) {struct filter}
  : outcome (string * list value) :=
  match filter with
  | VObj props =>
      filterEntries dialect (fun cond => buildWhereClause cond dialect) props [] []
  | VArr xs => indexEntries dialect (indexed xs) [] []
  | VStr s => indexEntries dialect (indexed (chars s)) [] []
  | VUndef | VNull | VBool _ | VNum _ => Return (""%string, [])
  end.

End Helpers.

(** ** The JavaScript heap

    [applyUpdateOperators] copies a document shallowly and then mutates
    arrays in place, so arrays and nested objects live in a store and a
    value that is an array or an object is a reference into it. *)

Inductive jsval : Type :=
| JUndef
| JNull
| JBool (b : bool)
| JNum (n : Z)
| JStr (s : string)
| JRef (l : nat).

Global Instance jsval_eq_dec : EqDecision jsval.
Proof. solve_decision. Defined.

Inductive cell : Type :=
| CArr (elems : list jsval)
| CObj (props : list (string * jsval)).

Abbreviation heap := (list cell).

(** The own properties of an object, in enumeration order. *)
Abbreviation object := (list (string * jsval)).

Module Js.

(** The own property [k] of [o], [undefined] when there is none: [o[k]]
    for every [k] that is not a name all objects inherit (see
    [inheritedName]). *)
Fixpoint get (o : object) (k : string) : jsval :=
  match o with
  | [] => JUndef
  | (k', v) :: rest => if String.eqb k' k then v else get rest k
  end.

Fixpoint set (o : object) (k : string) (v : jsval) : object :=
  match o with
  | [] => [(k, v)]
  | (k', v') :: rest =>
      if String.eqb k' k then (k', v) :: rest else (k', v') :: set rest k v
  end.

(** [{ ...o, ...src }] *)
Definition spread (o src : object) : object :=
  fold_left (fun acc kv => set acc kv.1 kv.2) src o.

(** A fresh array or object literal. *)
Definition alloc (c : cell) (h : heap) : jsval * heap :=
  (JRef (length h), h ++ [c]).

(** [Array.isArray(v)] and the elements of an array. *)
Definition elements (h : heap) (v : jsval) : option (list jsval) :=
  match v with
  | JRef l => match h !! l with Some (CArr xs) => Some xs | _ => None end
  | _ => None
  end.

Definition isArray (h : heap) (v : jsval) : bool :=
  match elements h v with Some _ => true | None => false end.

(** [a.push(x)]: the array is changed where it is. *)
Definition push (h : heap) (a x : jsval) : heap :=
  match a with
  | JRef l =>
      match h !! l with
      | Some (CArr xs) => <[l := CArr (xs ++ [x])]> h
      | _ => h
      end
  | _ => h
  end.

(** String conversion, as [+] applies it to an operand that is not a
    number: an array is its elements joined by commas, [null] and
    [undefined] elements printing as nothing. A reference met again
    once [fuel] is spent (a cycle) prints as nothing. *)
Fixpoint toString (fuel : nat) (h : heap) (v : jsval) : string :=
  match v with
  | JUndef => "undefined"
  | JNull => "null"
  | JBool true => "true"
  | JBool false => "false"
  | JNum n => pretty n
  | JStr s => s
  | JRef l =>
      match fuel with
      | O => ""
      | S fuel' =>
          match h !! l with
          | Some (CArr xs) =>
              String.concat ","
                (map (fun x => match x with
                               | JUndef | JNull => ""%string
                               | _ => toString fuel' h x
                               end) xs)
          | Some (CObj _) => "[object Object]"
          | None => ""
          end
      end
  end.

(** [(v || 0) + n] for a number [n]: a falsy [v] counts as 0, [true] as
    1, and a string, an array or an object concatenates with the
    decimal form of [n]. Numbers are integers and their sum is exact,
    as it is for doubles on the integers of [safeInteger]. *)
Definition orZeroPlus (h : heap) (v : jsval) (n : Z) : jsval :=
  match v with
  | JUndef | JNull | JBool false => JNum (0 + n)
  | JBool true => JNum (1 + n)
  | JNum m => JNum (m + n)
  | JStr s => if String.eqb s "" then JNum (0 + n) else JStr (s +:+ pretty n)
  | JRef l => JStr (toString (S (length h)) h (JRef l) +:+ pretty n)
  end.

(** [JSON.parse] builds fresh arrays and objects. *)
Fixpoint load (v : value) (h : heap) {struct v} : jsval * heap :=
  match v with
  | VUndef => (JUndef, h)
  | VNull => (JNull, h)
  | VBool b => (JBool b, h)
  | VNum n => (JNum n, h)
  | VStr s => (JStr s, h)
  | VArr xs =>
      let '(elems, h') :=
        (fix each (xs : list value) (h : heap) : list jsval * heap :=
           match xs with
           | [] => ([], h)
           | x :: xs' =>
               let '(jx, h1) := load x h in
               let '(jxs, h2) := each xs' h1 in
               (jx :: jxs, h2)
           end) xs h in
      alloc (CArr elems) h'
  | VObj props =>
      let '(fields, h') :=
        (fix each (props : list (string * value)) (h : heap) : object * heap :=
           match props with
           | [] => ([], h)
           | (k, x) :: props' =>
               let '(jx, h1) := load x h in
               let '(jps, h2) := each props' h1 in
               ((k, jx) :: jps, h2)
           end) props h in
      alloc (CObj fields) h'
  end.

(** The own properties of a freshly parsed document. *)
Fixpoint loadDocument (doc : Document) (h : heap) : object * heap :=
  match doc with
  | [] => ([], h)
  | (k, x) :: doc' =>
      let '(jx, h1) := load x h in
      let '(jps, h2) := loadDocument doc' h1 in
      ((k, jx) :: jps, h2)
  end.

(** Reading a value back as a tree, as [JSON.stringify] walks it;
    [None] on a circular structure. *)
Fixpoint snapshot (fuel : nat) (h : heap) (v : jsval) : option value :=
  match v with
  | JUndef => Some VUndef
  | JNull => Some VNull
  | JBool b => Some (VBool b)
  | JNum n => Some (VNum n)
  | JStr s => Some (VStr s)
  | JRef l =>
      match fuel with
      | O => None
      | S fuel' =>
          match h !! l with
          | Some (CArr xs) => VArr <$> mapM (snapshot fuel' h) xs
          | Some (CObj ps) =>
              VObj <$> mapM (fun kv => pair kv.1 <$> snapshot fuel' h kv.2) ps
          | None => None
          end
      end
  end.

Definition snapshotObject (h : heap) (o : object) : option Document :=
  mapM (fun kv => pair kv.1 <$> snapshot (S (length h)) h kv.2) o.

End Js.

(** ** Update specifications ([types/index.ts], [UpdateFilter<T>])

    The operator keys of a specification in the order they were written:
    [$set], [$inc], [$push], [$pull] with their per-field operands, and
    any other key. *)

Inductive UpdateEntry : Type :=
| SetOp (fields : object)
| IncOp (fields : list (string * Z))
| PushOp (fields : object)
| PullOp (fields : object)
| OtherKey (key : string) (v : jsval).

Abbreviation UpdateFilter := (list UpdateEntry).

(** [update.$set], [update.$inc], [update.$push], [update.$pull]. *)
Fixpoint update_set (u : UpdateFilter) : option object :=
  match u with
  | [] => None
  | SetOp f :: _ => Some f
  | _ :: rest => update_set rest
  end.

Fixpoint update_inc (u : UpdateFilter) : option (list (string * Z)) :=
  match u with
  | [] => None
  | IncOp f :: _ => Some f
  | _ :: rest => update_inc rest
  end.

Fixpoint update_push (u : UpdateFilter) : option object :=
  match u with
  | [] => None
  | PushOp f :: _ => Some f
  | _ :: rest => update_push rest
  end.

Fixpoint update_pull (u : UpdateFilter) : option object :=
  match u with
  | [] => None
  | PullOp f :: _ => Some f
  | _ :: rest => update_pull rest
  end.

(** ** [crud/crud.ts]: the update operators *)

Module Update.

(** [updated[k] = (updated[k] || 0) + update.$inc[k]] *)
Definition incField (h : heap) (updated : object) (kn : string * Z) : object :=
  Js.set updated kn.1 (Js.orZeroPlus h (Js.get updated kn.1) kn.2).

(** [if (!Array.isArray(updated[k])) updated[k] = [];
     updated[k].push(update.$push[k])] *)
Definition pushField (st : object * heap) (kx : string * jsval) : object * heap :=
  let '(updated, h) := st in
  let '(updated, h) :=
    if Js.isArray h (Js.get updated kx.1) then (updated, h)
    else let '(fresh, h') := Js.alloc (CArr []) h in (Js.set updated kx.1 fresh, h') in
  (updated, Js.push h (Js.get updated kx.1) kx.2).

(** [if (Array.isArray(updated[k]))
       updated[k] = updated[k].filter(v => v !== update.$pull[k])] *)
Definition pullField (st : object * heap) (kx : string * jsval) : object * heap :=
  let '(updated, h) := st in
  match Js.elements h (Js.get updated kx.1) with
  | Some xs =>
      let '(kept, h') :=
        Js.alloc (CArr (filter (fun v => v <> kx.2) xs)) h in
      (Js.set updated kx.1 kept, h')
  | None => (updated, h)
  end.

(** [applyUpdateOperators(doc, update)]: [doc] is given by its own
    properties; the result is the new object and the heap after the
    call. *)
Definition applyUpdateOperators (doc : object) (update : UpdateFilter) (h : heap)
  : object * heap :=
  let updated := doc in
  let updated :=
    match update_set update with
    | Some fields => Js.spread updated fields
    | None => updated
    end in
  let updated :=
    match update_inc update with
    | Some fields => fold_left (incField h) fields updated
    | None => updated
    end in
  let st :=
    match update_push update with
    | Some fields => fold_left pushField fields (updated, h)
    | None => (updated, h)
    end in
  match update_pull update with
  | Some fields => fold_left pullField fields st
  | None => st
  end.

End Update.

(** ** Effects: driver calls, exceptions and the heap

    An asynchronous function is a state transformer over the driver's
    state, the JavaScript heap and the list of driver calls made so far;
    it returns or throws.  Awaited calls run in program order. *)

Inductive exn (E : Type) : Type :=
| JsTypeError
| JsSyntaxError
| Raised (e : E).
Arguments JsTypeError {E}.
Arguments JsSyntaxError {E}.
Arguments Raised {E} e.

Inductive result (E A : Type) : Type :=
| Ok (a : A)
| Err (e : E).
Arguments Ok {E A} a.
Arguments Err {E A} e.

(** The driver methods the library calls ([drivers/BaseDriver.ts]). *)
Inductive call (S : Type) : Type :=
| TableExists (table : string)
| Query (sql : string) (params : list value)
| StartSession
| Commit (session : S)
| Rollback (session : S)
| Release (session : S).
Arguments TableExists {S} table.
Arguments Query {S} sql params.
Arguments StartSession {S}.
Arguments Commit {S} session.
Arguments Rollback {S} session.
Arguments Release {S} session.

(** [abstract class BaseDriver]: the methods used by the verbs below, as
    functions of the driver's state [W]; [S] is [ClientSession] and [E]
    what a method may throw. The verbs never pass the optional [session]
    argument of [query]. *)
Class BaseDriver (W S E : Type) : Type := {
  query : string -> list value -> W -> result (exn E) (list Document) * W;
  startSession : W -> result (exn E) S * W;
  commit : S -> W -> result (exn E) unit * W;
  rollback : S -> W -> result (exn E) unit * W;
  release : S -> W -> result (exn E) unit * W;
  getDialect : string;
  tableExists : string -> W -> result (exn E) bool * W;
}.

Record world (W S : Type) : Type := World {
  driverState : W;
  jsHeap : heap;
  calls : list (call S);
}.
Arguments World {W S} driverState jsHeap calls.
Arguments driverState {W S} w.
Arguments jsHeap {W S} w.
Arguments calls {W S} w.

Section Effects.
Context {W Ses E : Type}.

Definition M (A : Type) : Type :=
  world W Ses -> result (exn E) A * world W Ses.

Definition ret {A} (a : A) : M A := fun w => (Ok a, w).

Definition throw {A} (e : exn E) : M A := fun w => (Err e, w).

Definition bind {A B} (m : M A) (k : A -> M B) : M B :=
  fun w =>
    match m w with
    | (Ok a, w') => k a w'
    | (Err e, w') => (Err e, w')
    end.

(** [try { body } catch (err) { handler }] *)
Definition tryCatch {A} (body : M A) (handler : exn E -> M A) : M A :=
  fun w =>
    match body w with
    | (Ok a, w') => (Ok a, w')
    | (Err e, w') => handler e w'
    end.

(** [try { body } finally { cleanup }]: the cleanup runs on every exit
    and keeps the body's completion unless it throws itself. *)
Definition tryFinally {A} (body : M A) (cleanup : M unit) : M A :=
  fun w =>
    match body w with
    | (r, w') =>
        match cleanup w' with
        | (Ok _, w'') => (r, w'')
        | (Err e, w'') => (Err e, w'')
        end
    end.

(** A driver method called by the library: recorded, then run on the
    driver's state. *)
Definition invoke {A} (c : call Ses) (method : W -> result (exn E) A * W) : M A :=
  fun w =>
    let '(r, d) := method (driverState w) in
    (r, World d (jsHeap w) (calls w ++ [c])).

(** Code supplied by the caller: it acts on the driver's state. *)
Definition callback {A} (f : W -> result (exn E) A * W) : M A :=
  fun w =>
    let '(r, d) := f (driverState w) in
    (r, World d (jsHeap w) (calls w)).

(** A synchronous computation that may throw a [TypeError]. *)
Definition ofOutcome {A} (o : outcome A) : M A :=
  match o with
  | Return a => ret a
  | TypeError => throw JsTypeError
  end.

(** A computation on the heap. *)
Definition onHeap {A} (f : heap -> A * heap) : M A :=
  fun w =>
    let '(a, h) := f (jsHeap w) in
    (Ok a, World (driverState w) h (calls w)).
End Effects.

Declare Scope effect_scope.
Delimit Scope effect_scope with effect.
Notation "x <- m ;; k" := (bind m (fun x => k))
  (at level 100, m at next level, right associativity) : effect_scope.

(** ** [crud/crud.ts]: the verbs *)

Module Types.

(** [types/index.ts]: [FindOptions], with the cursor options
    [findWithCursor] adds; an absent option is [None]. *)
Record FindOptions : Type := {
  limit : option Z;
  skip : option Z;
  sort : option (list (string * Z));
  cursorField : option string;
  cursorValue : option value;
  reverse : option bool;
  count : option bool;
}.

(** [{}] *)
Definition noOptions : FindOptions :=
  {| limit := None; skip := None; sort := None; cursorField := None;
     cursorValue := None; reverse := None; count := None |}.

Record UpdateResult : Type := {
  acknowledged : bool;
  matchedCount : nat;
  modifiedCount : nat;
}.

Record DeleteResult : Type := {
  deleteAcknowledged : bool;
  deletedCount : nat;
}.

End Types.
Import Types.

Record CursorPage : Type := {
  data : list Document;
  nextCursor : value;
  totalCount : option value;
}.

Module Crud.
Section WithDriver.
Context {W Ses E : Type} (driver : BaseDriver W Ses E).

(** [JSON.parse], [None] when it throws a [SyntaxError], and
    [JSON.stringify] on a structure without cycles. *)
Variable JSON_parse : value -> option Document.
Variable JSON_stringify : value -> string.

Local Open Scope effect_scope.
Local Abbreviation M := (@M W Ses E).

Definition driver_tableExists (table : string) : M bool :=
  invoke (TableExists table) (tableExists table).

Definition driver_query (sql : string) (params : list value) : M (list Document) :=
  invoke (Query sql params) (query sql params).

(** An optional number used as a condition: [if (options.limit)]. *)
Definition given (n : option Z) : option Z :=
  match n with
  | Some z => if z =? 0 then None else Some z
  | None => None
  end.

(** [Object.entries(options.sort).map(([k, v]) => ...)] *)
Definition sortFields (sort : list (string * Z)) : list string :=
  map (fun kv => "JSON_UNQUOTE(JSON_EXTRACT(data, '$." +:+ kv.1 +:+ "')) "
                 +:+ (if kv.2 =? 1 then "ASC" else "DESC")) sort.

(** The statement [find] builds from the compiled clause and the options. *)
Definition findSql (collection clause : string) (options : FindOptions) : string :=
  let sql := "SELECT data FROM `" +:+ collection +:+ "`" in
  let sql := if String.eqb clause "" then sql else sql +:+ " WHERE " +:+ clause in
  let sql :=
    match sort options with
    | Some s =>
        match sortFields s with
        | [] => sql
        | fields => sql +:+ " ORDER BY " +:+ String.concat ", " fields
        end
    | None => sql
    end in
  let sql :=
    match given (limit options) with
    | Some n => sql +:+ " LIMIT " +:+ pretty n
    | None => sql
    end in
  match given (skip options) with
  | Some n => sql +:+ " OFFSET " +:+ pretty n
  | None => sql
  end.

(** [rows.map(r => JSON.parse(r.data))] *)
Fixpoint parseRows (rows : list Document) : M (list Document) :=
  match rows with
  | [] => ret []
  | r :: rows' =>
      match JSON_parse (prop r "data") with
      | Some doc => docs <- parseRows rows' ;; ret (doc :: docs)
      | None => throw JsSyntaxError
      end
  end.

Definition find (collection : string) (filter : Document) (options : FindOptions)
  : M (list Document) :=
  present <- driver_tableExists collection ;;
  if negb present then ret []
  else
    where_ <- ofOutcome (Helpers.buildWhereClause (VObj filter) getDialect) ;;
    rows <- driver_query (findSql collection where_.1 options) where_.2 ;;
    parseRows rows.

(** [rows[0]?.count || 0] *)
Definition firstCount (rows : list Document) : value :=
  match rows with
  | r :: _ => if truthy (prop r "count") then prop r "count" else VNum 0
  | [] => VNum 0
  end.

Definition countDocuments (collection : string) (filter : Document) : M value :=
  present <- driver_tableExists collection ;;
  if negb present then ret (VNum 0)
  else
    let sql := "SELECT COUNT(*) as count FROM `" +:+ collection +:+ "`" in
    where_ <- ofOutcome (Helpers.buildWhereClause (VObj filter) getDialect) ;;
    let sql := if String.eqb where_.1 "" then sql else sql +:+ " WHERE " +:+ where_.1 in
    rows <- driver_query sql where_.2 ;;
    ret (firstCount rows).

(** [limit && count >= limit] *)
Definition reached (limit : option Z) (count : nat) : bool :=
  match given limit with
  | Some n => n <=? Z.of_nat count
  | None => false
  end.

(** [const updated = applyUpdateOperators(doc, update)] on a parsed
    document, then the parameters [[JSON.stringify(updated), doc.id]].
    [JSON.stringify] throws a [TypeError] on a circular structure. *)
Definition updatedParams (doc : Document) (update : UpdateFilter) : M (list value) :=
  o <- onHeap (Js.loadDocument doc) ;;
  updated <- onHeap (Update.applyUpdateOperators o update) ;;
  fun w =>
    let h := jsHeap w in
    match Js.snapshotObject h updated, Js.snapshot (S (length h)) h (Js.get o "id") with
    | Some tree, Some id => (Ok [VStr (JSON_stringify (VObj tree)); id], w)
    | _, _ => (Err JsTypeError, w)
    end.

(** The [for] loop of [updateMany]. *)
Fixpoint updateEach (collection : string) (update : UpdateFilter) (limit : option Z)
    (docs : list Document) (modifiedCount : nat) : M nat :=
  match docs with
  | [] => ret modifiedCount
  | doc :: docs' =>
      if reached limit modifiedCount then ret modifiedCount
      else
        params <- updatedParams doc update ;;
        let sql := "UPDATE `" +:+ collection
                   +:+ "` SET data = ? WHERE JSON_EXTRACT(data, '$.id') = ?" in
        _ <- driver_query sql params ;;
        updateEach collection update limit docs' (S modifiedCount)
  end.

(** [limit] is [(options as any).limit]. *)
Definition updateMany (collection : string) (filter : Document)
    (update : UpdateFilter) (limit : option Z) : M UpdateResult :=
  present <- driver_tableExists collection ;;
  if negb present then ret {| acknowledged := true; matchedCount := 0; modifiedCount := 0 |}
  else
    docs <- find collection filter noOptions ;;
    match docs with
    | [] => ret {| acknowledged := true; matchedCount := 0; modifiedCount := 0 |}
    | _ =>
        modified <- updateEach collection update limit docs 0%nat ;;
        ret {| acknowledged := true; matchedCount := length docs;
               modifiedCount := modified |}
    end.

(** The [for] loop of [deleteMany]. *)
Fixpoint deleteEach (collection : string) (limit : option Z)
    (docs : list Document) (deleted : nat) : M nat :=
  match docs with
  | [] => ret deleted
  | doc :: docs' =>
      if reached limit deleted then ret deleted
      else
        let sql := "DELETE FROM `" +:+ collection
                   +:+ "` WHERE JSON_EXTRACT(data, '$.id') = ?" in
        _ <- driver_query sql [prop doc "id"] ;;
        deleteEach collection limit docs' (S deleted)
  end.

Definition deleteMany (collection : string) (filter : Document) (limit : option Z)
  : M DeleteResult :=
  present <- driver_tableExists collection ;;
  if negb present then ret {| deleteAcknowledged := true; deletedCount := 0 |}
  else
    docs <- find collection filter noOptions ;;
    deleted <- deleteEach collection limit docs 0%nat ;;
    ret {| deleteAcknowledged := true; deletedCount := deleted |}.

(** [data[data.length - 1]?.[cursorField]] *)
Definition lastField (docs : list Document) (field : string) : value :=
  match last docs with
  | Some doc => prop doc field
  | None => VUndef
  end.

(** [let cursorFilter = { ...filter }], with the comparison on the cursor
    field when a cursor value is given. *)
Definition cursorFilter (filter : Document) (options : FindOptions) : Document :=
  let cursorField := default "id"%string (cursorField options) in
  let reverse := default false (reverse options) in
  match cursorValue options with
  | None | Some VUndef | Some VNull => filter
  | Some cursorValue =>
      setProp filter cursorField
        (VObj [(if reverse then "$lt"%string else "$gt"%string, cursorValue)])
  end.

(** [{ ...options, sort, limit }] *)
Definition pageOptions (options : FindOptions) : FindOptions :=
  let cursorField := default "id"%string (cursorField options) in
  let limit := default 10 (limit options) in
  let reverse := default false (reverse options) in
  let sort := default [(cursorField, if reverse then -1 else 1)] (sort options) in
  {| limit := Some limit; skip := skip options; sort := Some sort;
     cursorField := Types.cursorField options;
     cursorValue := Types.cursorValue options;
     reverse := Types.reverse options; count := Types.count options |}.

Definition findWithCursor (collection : string) (filter : Document)
    (options : FindOptions) : M CursorPage :=
  let cursorField := default "id"%string (cursorField options) in
  let limit := default 10 (limit options) in
  let count := default false (count options) in
  data <- find collection (cursorFilter filter options) (pageOptions options) ;;
  let nextCursor :=
    if Z.of_nat (length data) =? limit then lastField data cursorField else VUndef in
  totalCount <-
    (if count then c <- countDocuments collection filter ;; ret (Some c)
     else ret None) ;;
  ret {| data := data; nextCursor := nextCursor; totalCount := totalCount |}.
End WithDriver.
End Crud.

(** ** The transaction wrapper ([withTransaction]) *)

Module Transaction.
Section WithDriver.
Context {W Ses E : Type} (driver : BaseDriver W Ses E) {T : Type}.

Local Open Scope effect_scope.

(** [fn] is the caller's work; the [isolationLevel] argument is not used. *)
Definition withTransaction (fn : Ses -> W -> result (exn E) T * W) : @M W Ses E T :=
  session <- invoke StartSession startSession ;;
  tryFinally
    (tryCatch
       (result <- callback (fn session) ;;
        _ <- invoke (Commit session) (commit session) ;;
        ret result)
       (fun err =>
          _ <- invoke (Rollback session) (rollback session) ;;
          throw err))
    (invoke (Release session) (release session)).
End WithDriver.
End Transaction.

(** ** [aggregate/aggregate.ts]: the unwind stages

    The last loop of [aggregate], run over the decoded documents when
    the pipeline has no group stage. *)

Module Aggregate.

(** [s.replace(/^\$/, '')] *)
Definition stripDollar (s : string) : string :=
  match s with
  | String "$"%char rest => rest
  | _ => s
  end.

(** [if (stage.$unwind) { const path = stage.$unwind.replace(/^\$/, '') ... }]:
    the path of an unwind stage, [None] for any other stage; a truthy
    [$unwind] that is not a string has no [replace] method. *)
Definition unwindPath (stage : Document) : outcome (option string) :=
  let u := prop stage "$unwind" in
  if truthy u then
    match u with
    | VStr s => Return (Some (stripDollar s))
    | _ => TypeError
    end
  else Return None.

(** [for (const val of doc[path]) unwound.push({ ...doc, [path]: val })] *)
Definition pushEach (doc : Document) (path : string) (vals : list value)
    (unwound : list Document) : list Document :=
  fold_left (fun acc val => acc ++ [setProp doc path val]) vals unwound.

(** [for (const doc of result)], filling [unwound]. *)
Fixpoint unwindDocs (path : string) (result unwound : list Document)
  : list Document :=
  match result with
  | [] => unwound
  | doc :: rest =>
      match prop doc path with
      | VArr vals => unwindDocs path rest (pushEach doc path vals unwound)
      | _ => unwindDocs path rest (unwound ++ [doc])
      end
  end.

(** [for (const stage of pipeline)] *)
Fixpoint unwindStages (pipeline : list Document) (result : list Document)
  : outcome (list Document) :=
  match pipeline with
  | [] => Return result
  | stage :: rest =>
      match unwindPath stage with
      | Return (Some path) => unwindStages rest (unwindDocs path result [])
      | Return None => unwindStages rest result
      | TypeError => TypeError
      end
  end.

End Aggregate.

(** ** What the specification asks for *)

Module Spec.

(** The operators [parseCondition] recognises. *)
Definition recognized (op : string) : bool :=
  existsb (String.eqb op)
    ["$eq"; "$ne"; "$gt"; "$gte"; "$lt"; "$lte"; "$in"; "$nin"; "$not"]%string.

(** Every operand of a set-membership operator is a sequence, in the
    operator mappings and nested filters the compiler visits. *)
Section MembershipOperands.
Variable conditionSafe : value -> bool.

Fixpoint operatorsSafe (ops : list (string * value)) : bool :=
  match ops with
  | [] => true
  | (op, operand) :: rest =>
      (if String.eqb op "$in" || String.eqb op "$nin" then isArray operand
       else if String.eqb op "$not" then conditionSafe operand
       else true)
      && operatorsSafe rest
  end.
End MembershipOperands.

Fixpoint conditionSafe (v : value) : bool :=
  match v with
  | VObj ops => operatorsSafe conditionSafe ops
  | _ => true
  end.

Section NestedFilters.
Variable filterSafe : value -> bool.

Fixpoint entriesSafe (props : list (string * value)) : bool :=
  match props with
  | [] => true
  | (key, v) :: rest =>
      match v with
      | VArr conds =>
          if String.eqb key "$or" || String.eqb key "$and"
          then forallb filterSafe conds
          else if String.eqb key "$not" then filterSafe v
          else conditionSafe v
      | _ =>
          if String.eqb key "$not" && typeofObject v then filterSafe v
          else conditionSafe v
      end && entriesSafe rest
  end.
End NestedFilters.

Fixpoint filterSafe (filter : value) : bool :=
  match filter with
  | VObj props => entriesSafe filterSafe props
  | VArr xs => forallb conditionSafe xs
  | _ => true
  end.

(** The number of placeholders in a clause. *)
Fixpoint placeholderCount (clause : string) : nat :=
  match clause with
  | EmptyString => 0
  | String c rest =>
      ((if Ascii.eqb c "?" then 1 else 0) + placeholderCount rest)%nat
  end.

Section OperandOrder.
(** The operands of a nested operator mapping and of a nested filter. *)
Variable conditionOperands : value -> list value.
Variable filterOperands : value -> list value.

Fixpoint operatorOperands (ops : list (string * value)) : list value :=
  match ops with
  | [] => []
  | (op, operand) :: rest =>
      (if existsb (String.eqb op) ["$eq"; "$ne"; "$gt"; "$gte"; "$lt"; "$lte"]%string
       then [operand]
       else if existsb (String.eqb op) ["$in"; "$nin"]%string
       then match operand with VArr xs => xs | _ => [] end
       else if String.eqb op "$not" then conditionOperands operand
       else [])
      ++ operatorOperands rest
  end.

Fixpoint nestedOperands (conds : list value) : list value :=
  match conds with
  | [] => []
  | cond :: rest => filterOperands cond ++ nestedOperands rest
  end.
End OperandOrder.

Fixpoint conditionOperands (v : value) : list value :=
  match v with
  | VObj ops => operatorOperands conditionOperands ops
  | _ => [v]
  end.

Section Entries.
Variable filterOperands : value -> list value.

Fixpoint entryOperands (props : list (string * value)) : list value :=
  match props with
  | [] => []
  | (key, v) :: rest =>
      match v with
      | VArr conds =>
          if String.eqb key "$or" || String.eqb key "$and"
          then nestedOperands filterOperands conds
          else if String.eqb key "$not" then filterOperands v
          else conditionOperands v
      | _ =>
          if String.eqb key "$not" && typeofObject v then filterOperands v
          else conditionOperands v
      end ++ entryOperands rest
  end.
End Entries.

(** The operand values of a filter in the left-to-right, depth-first
    order of its placeholders, the operands of nested filters
    included (section 4.1 of the specification). *)
Fixpoint filterOperands (filter : value) : list value :=
  match filter with
  | VObj props => entryOperands filterOperands props
  | VArr xs => flat_map conditionOperands xs
  | VStr s => flat_map conditionOperands (chars s)
  | _ => []
  end.

(** An entry of a filter that is a logical combinator. *)
Definition combinator (key : string) (v : value) : bool :=
  (String.eqb key "$or" || String.eqb key "$and") && isArray v
  || String.eqb key "$not" && typeofObject v.

Definition combinatorFree (filter : Document) : bool :=
  forallb (fun kv => negb (combinator kv.1 kv.2)) filter.

(** The key under which an entry of an update specification is written. *)
Definition entryKey (e : UpdateEntry) : string :=
  match e with
  | SetOp _ => "$set"
  | IncOp _ => "$inc"
  | PushOp _ => "$push"
  | PullOp _ => "$pull"
  | OtherKey key _ => key
  end.

(** The number an increment starts from: the value of the field when it
    holds a number, 0 when the field is absent. *)
Definition startNumber (v : jsval) : option Z :=
  match v with
  | JNum m => Some m
  | JUndef => Some 0
  | _ => None
  end.

(** Unwinding as a flat-map (section 4.3): one document per element of
    the sequence at [path], the document itself otherwise. *)
Definition unwound (path : string) (doc : Document) : list Document :=
  match prop doc path with
  | VArr vals => map (fun val => setProp doc path val) vals
  | _ => [doc]
  end.

Definition unwind (path : string) (docs : list Document) : list Document :=
  flat_map (unwound path) docs.

End Spec.

(** ** Reading a run *)

Module Run.

(** The statement tail [find] adds for its options. *)
Definition optionsSql (options : FindOptions) : string :=
  match sort options with
  | Some s =>
      match Crud.sortFields s with
      | [] => ""
      | fields => " ORDER BY " +:+ String.concat ", " fields
      end
  | None => ""
  end
  +:+ match Crud.given (limit options) with
      | Some n => " LIMIT " +:+ pretty n
      | None => ""
      end
  +:+ match Crud.given (skip options) with
      | Some n => " OFFSET " +:+ pretty n
      | None => ""
      end.

(** The sessions released by a list of driver calls. *)
Fixpoint released {Ses : Type} (cs : list (call Ses)) : list Ses :=
  match cs with
  | [] => []
  | Release s :: rest => s :: released rest
  | _ :: rest => released rest
  end.

(** [o] returns when [b] holds and throws otherwise. *)
Definition decides {A} (b : bool) (o : outcome A) : Prop :=
  if b then exists r, o = Return r else o = TypeError.

(** A driver for examples: the tables that exist and the rows the next
    queries answer with. Sessions are numbers and every transaction
    call succeeds. *)
Record script : Type := Script {
  tables : list string;
  answers : list (list Document);
}.

Definition scripted : BaseDriver script nat string := {|
  query _ _ w :=
    match answers w with
    | rows :: rest => (Ok rows, Script (tables w) rest)
    | [] => (Err (Raised "no answer"%string), w)
    end;
  startSession w := (Ok 7%nat, w);
  commit _ w := (Ok tt, w);
  rollback _ w := (Ok tt, w);
  release _ w := (Ok tt, w);
  getDialect := "mysql";
  tableExists t w := (Ok (bool_decide (t ∈ tables w)), w);
|}.

(** The state an example starts from: an empty heap, no call made. *)
Definition start (tables : list string) (answers : list (list Document))
  : world script nat :=
  World (Script tables answers) [] [].

(** The [data] column of the example rows holds the document itself. *)
Definition parsed (v : value) : option Document :=
  match v with
  | VObj doc => Some doc
  | _ => None
  end.

End Run.

(** ** [crud/crud.ts]: the single-document verbs *)

Module CrudOne.
Section WithDriver.
Context {W Ses E : Type} (driver : BaseDriver W Ses E).
Variable JSON_parse : value -> option Document.
Variable JSON_stringify : value -> string.

Local Open Scope effect_scope.

(** [{ ...options, limit: 1 }] *)
Definition limitOne (options : FindOptions) : FindOptions :=
  {| limit := Some 1; skip := skip options; sort := sort options;
     cursorField := cursorField options; cursorValue := cursorValue options;
     reverse := reverse options; count := count options |}.

(** [findOne]: [docs[0] || null], [None] standing for [null]. *)
Definition findOne (collection : string) (filter : Document) (options : FindOptions)
  : @M W Ses E (option Document) :=
  docs <- Crud.find driver JSON_parse collection filter (limitOne options) ;;
  ret (head docs).

(** [updateOne]: the options are not read. *)
Definition updateOne (collection : string) (filter : Document) (update : UpdateFilter)
  : @M W Ses E UpdateResult :=
  docs <- Crud.find driver JSON_parse collection filter (limitOne noOptions) ;;
  match docs with
  | [] => ret {| acknowledged := true; matchedCount := 0; modifiedCount := 0 |}
  | doc :: _ =>
      params <- Crud.updatedParams JSON_stringify doc update ;;
      let sql := "UPDATE `" +:+ collection
                 +:+ "` SET data = ? WHERE JSON_EXTRACT(data, '$.id') = ?" in
      _ <- Crud.driver_query driver sql params ;;
      ret {| acknowledged := true; matchedCount := 1; modifiedCount := 1 |}
  end.

(** [deleteOne]: [deleteMany(driver, collection, filter, 1)]. *)
Definition deleteOne (collection : string) (filter : Document)
  : @M W Ses E DeleteResult :=
  Crud.deleteMany driver JSON_parse collection filter (Some 1).
End WithDriver.
End CrudOne.

(** What the loops of [updateMany] and [deleteMany] send. *)
Module Sent.

Definition deleteOf (collection : string) {Ses : Type} (doc : Document) : call Ses :=
  Query ("DELETE FROM `" +:+ collection +:+ "` WHERE JSON_EXTRACT(data, '$.id') = ?")
        [prop doc "id"].

Definition isUpdateOf (collection : string) {Ses : Type} (c : call Ses) : Prop :=
  match c with
  | Query sql _ =>
      sql = "UPDATE `" +:+ collection
            +:+ "` SET data = ? WHERE JSON_EXTRACT(data, '$.id') = ?"
  | _ => False
  end.

(** The number of documents a limit lets through: all of them when the
    limit is absent or 0 (it is then falsy), none when it is negative. *)
Definition allowed (limit : option Z) (found : nat) : nat :=
  match Crud.given limit with
  | Some l => Nat.min (Z.to_nat l) found
  | None => found
  end.

End Sent.

(** A driver for examples whose rollback always fails; every other call
    succeeds and queries answer with no rows. *)
Module Faulty.

Definition rollbackFails : BaseDriver unit nat string := {|
  query _ _ w := (Ok [], w);
  startSession w := (Ok 7%nat, w);
  commit _ w := (Ok tt, w);
  rollback _ w := (Err (Raised "rollback failed"%string), w);
  release _ w := (Ok tt, w);
  getDialect := "postgres";
  tableExists _ w := (Ok true, w);
|}.

Definition start : world unit nat := World tt [] [].

End Faulty.

(** ** [aggregate/aggregate.ts]: the whole of [aggregate] *)

Module Pipeline.

(** [Object.entries(v)], [Object.keys(v)] and [for (const k in v)]: the
    own enumerable properties of a value. *)
Definition ownEntries (v : value) : Document :=
  match v with
  | VObj props => props
  | VArr xs => indexed xs
  | VStr s => indexed (chars s)
  | VUndef | VNull | VBool _ | VNum _ => []
  end.

(** [v[k]] and [v.k] for a key that can only be an own enumerable
    property ([_id], an operator name, a key [Object.keys] gave). *)
Definition member (v : value) (k : string) : value := prop (ownEntries v) k.

(** A value inside a template literal: [`${v}`]. *)
Fixpoint toText (v : value) : string :=
  match v with
  | VUndef => "undefined"
  | VNull => "null"
  | VBool true => "true"
  | VBool false => "false"
  | VNum n => pretty n
  | VStr s => s
  | VArr xs =>
      String.concat ","
        (map (fun x => match x with
                       | VUndef | VNull => ""%string
                       | _ => toText x
                       end) xs)
  | VObj _ => "[object Object]"
  end.

(** The double quote of the quoted identifiers. *)
Definition dq : string := String (ascii_of_nat 34) EmptyString.

(** The variables the first loop of [aggregate] fills. [groupStage] and
    [projectStage] are [null] ([None]) until a truthy stage value is met. *)
Record stages : Type := Stages {
  groupStage : option value;
  projectStage : option value;
  whereClause : string;
  whereParams : list value;
  sortClause : string;
  limitClause : string;
  offsetClause : string;
}.

Definition noStages : stages :=
  Stages None None "" [] "" "" "".

Section WithRuntime.
(** The text of the number a string converts to, for [Number(s)]. *)
Variable StringToNumber : string -> string.

(** [`${Number(v)}`] *)
Definition numberText (v : value) : string :=
  match v with
  | VUndef => "NaN"
  | VNull => "0"
  | VBool true => "1"
  | VBool false => "0"
  | VNum n => pretty n
  | VStr s => StringToNumber s
  | VArr _ => StringToNumber (toText v)
  | VObj _ => "NaN"
  end.

Section WithDialect.
Variable dialect : string.

(** One sort field: the path expression and the direction. *)
Definition sortField (kv : string * value) : string :=
  Helpers.parseKey dialect kv.1 +:+ " "
  +:+ match kv.2 with
      | VNum 1 => "ASC"
      | _ => "DESC"
      end.

(** The body of [for (const stage of pipeline)], one [if] after the other. *)
Definition matchStep (stage : Document) (acc : stages) : outcome stages :=
  if truthy (prop stage "$match") then
    match Helpers.buildWhereClause (prop stage "$match") dialect with
    | Return (clause, params) =>
        Return (Stages (groupStage acc) (projectStage acc) clause params
                       (sortClause acc) (limitClause acc) (offsetClause acc))
    | TypeError => TypeError
    end
  else Return acc.

Definition sortStep (stage : Document) (acc : stages) : stages :=
  if truthy (prop stage "$sort") then
    Stages (groupStage acc) (projectStage acc) (whereClause acc) (whereParams acc)
           ("ORDER BY "
            +:+ String.concat ", " (map sortField (ownEntries (prop stage "$sort"))))
           (limitClause acc) (offsetClause acc)
  else acc.

Definition groupStep (stage : Document) (acc : stages) : stages :=
  if truthy (prop stage "$group") then
    Stages (Some (prop stage "$group")) (projectStage acc) (whereClause acc)
           (whereParams acc) (sortClause acc) (limitClause acc) (offsetClause acc)
  else acc.

Definition projectStep (stage : Document) (acc : stages) : stages :=
  if truthy (prop stage "$project") then
    Stages (groupStage acc) (Some (prop stage "$project")) (whereClause acc)
           (whereParams acc) (sortClause acc) (limitClause acc) (offsetClause acc)
  else acc.

Definition limitStep (stage : Document) (acc : stages) : stages :=
  if truthy (prop stage "$limit") then
    Stages (groupStage acc) (projectStage acc) (whereClause acc) (whereParams acc)
           (sortClause acc) ("LIMIT " +:+ numberText (prop stage "$limit"))
           (offsetClause acc)
  else acc.

Definition skipStep (stage : Document) (acc : stages) : stages :=
  if truthy (prop stage "$skip") then
    Stages (groupStage acc) (projectStage acc) (whereClause acc) (whereParams acc)
           (sortClause acc) (limitClause acc)
           ("OFFSET " +:+ numberText (prop stage "$skip"))
  else acc.

Definition scanStage (acc : stages) (stage : Document) : outcome stages :=
  match matchStep stage acc with
  | Return acc =>
      Return (skipStep stage
                (limitStep stage
                   (projectStep stage (groupStep stage (sortStep stage acc)))))
  | TypeError => TypeError
  end.

Fixpoint scanStages (pipeline : list Document) (acc : stages) : outcome stages :=
  match pipeline with
  | [] => Return acc
  | stage :: rest =>
      match scanStage acc stage with
      | Return acc' => scanStages rest acc'
      | TypeError => TypeError
      end
  end.
End WithDialect.

(** One accumulator of a group stage: [groupExprs]' callback. *)
Definition groupExpr (g : value) (field : string) : string :=
  let expr := member g field in
  match expr with
  | VObj _ | VArr _ =>
      if truthy (member expr "$sum") then
        "SUM(CAST(data->>'" +:+ toText (member expr "$sum") +:+ "' AS NUMERIC)) AS "
        +:+ dq +:+ field +:+ dq
      else if truthy (member expr "$avg") then
        "AVG(CAST(data->>'" +:+ toText (member expr "$avg") +:+ "' AS NUMERIC)) AS "
        +:+ dq +:+ field +:+ dq
      else if truthy (member expr "$min") then
        "MIN(data->>'" +:+ toText (member expr "$min") +:+ "') AS " +:+ dq +:+ field +:+ dq
      else if truthy (member expr "$max") then
        "MAX(data->>'" +:+ toText (member expr "$max") +:+ "') AS " +:+ dq +:+ field +:+ dq
      else ""
  | _ => ""
  end.

(** [if (s) sql += ` ${s}`] *)
Definition spaced (s : string) : string :=
  if String.eqb s "" then "" else " " +:+ s.

Definition clauseTail (acc : stages) : string :=
  spaced (sortClause acc) +:+ spaced (limitClause acc) +:+ spaced (offsetClause acc).

Definition whereText (acc : stages) : string :=
  if String.eqb (whereClause acc) "" then "" else " WHERE " +:+ whereClause acc.

(** The statement of a pipeline with a group stage. *)
Definition groupSql (collection : string) (g : value) (acc : stages) : string :=
  let groupId := member g "_id" in
  let accumFields :=
    filter (fun k => k <> "_id"%string) (map fst (ownEntries g)) in
  let groupExprs := map (groupExpr g) accumFields in
  "SELECT data->>'" +:+ toText groupId +:+ "' AS _id"
  +:+ match groupExprs with
      | [] => ""
      | _ => ", " +:+ String.concat ", " groupExprs
      end
  +:+ " FROM " +:+ dq +:+ collection +:+ dq
  +:+ whereText acc
  +:+ " GROUP BY data->>'" +:+ toText groupId +:+ "'"
  +:+ clauseTail acc.

(** The statement of a pipeline without a group stage. *)
Definition defaultSql (collection : string) (acc : stages) : string :=
  "SELECT data FROM " +:+ dq +:+ collection +:+ dq +:+ whereText acc +:+ clauseTail acc.

(** The project stage on one document:
    [for (const key in projectStage) if (projectStage[key]) projected[key] = doc[key]]. *)
Definition project (projectStage : value) (doc : Document) : Document :=
  fold_left (fun projected kv =>
               if truthy kv.2 then setProp projected kv.1 (prop doc kv.1)
               else projected)
            (ownEntries projectStage) [].

Section WithDriver.
Context {W Ses E : Type} (driver : BaseDriver W Ses E).
Variable JSON_parse : value -> option Document.

Local Open Scope effect_scope.

(** [aggregate(driver, collection, pipeline)]; the options are not read. *)
Definition aggregate (collection : string) (pipeline : list Document)
  : @M W Ses E (list Document) :=
  acc <- ofOutcome (scanStages getDialect pipeline noStages) ;;
  match groupStage acc with
  | Some g =>
      rows <- Crud.driver_query driver (groupSql collection g acc) (whereParams acc) ;;
      ret rows
  | None =>
      rows <- Crud.driver_query driver (defaultSql collection acc) (whereParams acc) ;;
      result <- Crud.parseRows JSON_parse rows ;;
      let result :=
        match projectStage acc with
        | Some p => map (project p) result
        | None => result
        end in
      ofOutcome (Aggregate.unwindStages pipeline result)
  end.
End WithDriver.
End WithRuntime.

(** The keys a project stage keeps. *)
Definition kept (projectStage : value) (k : string) : bool :=
  existsb (fun kv => String.eqb kv.1 k && truthy kv.2) (ownEntries projectStage).

End Pipeline.

(** * The rest of the library

    The functions below use driver methods the verbs above do not
    ([createTable], the savepoint methods) and the module-level schema
    registry, so they run on a larger state: the driver's state, the
    registry and the list of every driver call made so far. *)

(** State and exceptions over any state. *)
Module Steps.
Section Steps.
Context {St E : Type}.

Definition steps (A : Type) : Type := St -> result (exn E) A * St.

Definition ret {A} (a : A) : steps A := fun s => (Ok a, s).

Definition throw {A} (e : exn E) : steps A := fun s => (Err e, s).

Definition bind {A B} (m : steps A) (k : A -> steps B) : steps B :=
  fun s =>
    match m s with
    | (Ok a, s') => k a s'
    | (Err e, s') => (Err e, s')
    end.

(** [try { body } catch (err) { handler }] *)
Definition tryCatch {A} (body : steps A) (handler : exn E -> steps A) : steps A :=
  fun s =>
    match body s with
    | (Ok a, s') => (Ok a, s')
    | (Err e, s') => handler e s'
    end.
End Steps.
End Steps.

Declare Scope steps_scope.
Delimit Scope steps_scope with steps.
Notation "x <- m ;; k" := (Steps.bind m (fun x => k))
  (at level 100, m at next level, right associativity) : steps_scope.

(** Every driver method the library calls. *)
Inductive request (Ses : Type) : Type :=
| Verb (c : call Ses)
| CreateTable (collection : string) (schema : value)
| DropTable (collection : string)
| ListTables
| CreateSavepoint (session : Ses) (savepointName : string)
| ReleaseSavepoint (session : Ses) (savepointName : string)
| RollbackToSavepoint (session : Ses) (savepointName : string).
Arguments Verb {Ses} c.
Arguments CreateTable {Ses} collection schema.
Arguments DropTable {Ses} collection.
Arguments ListTables {Ses}.
Arguments CreateSavepoint {Ses} session savepointName.
Arguments ReleaseSavepoint {Ses} session savepointName.
Arguments RollbackToSavepoint {Ses} session savepointName.

(** [abstract class BaseDriver]: the table methods. The table names
    [listTables] answers with are whatever the rows hold. *)
Class TableDriver (W E : Type) : Type := {
  createTable : string -> value -> W -> result (exn E) unit * W;
  dropTable : string -> W -> result (exn E) unit * W;
  listTables : W -> result (exn E) (list value) * W;
}.

(** The three methods [withSavepoint] asks of its driver. *)
Class SavepointDriver (W Ses E : Type) : Type := {
  createSavepoint : Ses -> string -> W -> result (exn E) unit * W;
  releaseSavepoint : Ses -> string -> W -> result (exn E) unit * W;
  rollbackToSavepoint : Ses -> string -> W -> result (exn E) unit * W;
}.

(** A compiled schema: Ajv's [ValidateFunction]. *)
Abbreviation ValidateFunction := (value -> bool).

Record library (W Ses : Type) : Type := Library {
  backend : W;
  collectionSchemas : gmap string ValidateFunction;
  requests : list (request Ses);
}.
Arguments Library {W Ses} backend collectionSchemas requests.
Arguments backend {W Ses} l.
Arguments collectionSchemas {W Ses} l.
Arguments requests {W Ses} l.

(** A computation of the library. *)
Abbreviation L W Ses E := (@Steps.steps (library W Ses) E).

Section Library.
Context {W Ses E : Type}.

(** A driver method called by the library: recorded, then run. *)
Definition ask {A} (r : request Ses) (method : W -> result (exn E) A * W) : L W Ses E A :=
  fun s =>
    let '(a, d) := method (backend s) in
    (a, Library d (collectionSchemas s) (requests s ++ [r])).

(** Code supplied by the caller. *)
Definition work {A} (f : W -> result (exn E) A * W) : L W Ses E A :=
  fun s =>
    let '(a, d) := f (backend s) in
    (a, Library d (collectionSchemas s) (requests s)).

(** A synchronous call that returns or throws. *)
Definition sync {A} (r : result (exn E) A) : L W Ses E A := fun s => (r, s).

(** A change of the registry. *)
Definition register (f : gmap string ValidateFunction -> gmap string ValidateFunction)
  : L W Ses E unit :=
  fun s => (Ok tt, Library (backend s) (f (collectionSchemas s)) (requests s)).
End Library.

(** ** [utils/schema.ts] *)

Module Schema.

(** The branch of [inferSchema] a value takes; [undefined] takes none. *)
Definition typeName (val : value) : option string :=
  match val with
  | VNum _ => Some "number"
  | VStr _ => Some "string"
  | VBool _ => Some "boolean"
  | VArr _ => Some "array"
  | VObj _ | VNull => Some "object"
  | VUndef => None
  end.

(** The body of [for (const key in doc)], on [schema.properties] and
    [schema.required]. *)
Definition inferStep (schema : Document * list value) (kv : string * value)
  : Document * list value :=
  (match typeName kv.2 with
   | Some t => setProp schema.1 kv.1 (VObj [("type", VStr t)])
   | None => schema.1
   end,
   schema.2 ++ [VStr kv.1]).

Definition inferSchema (doc : Document) : Document :=
  let schema := fold_left inferStep doc ([], []) in
  [("type", VStr "object"); ("properties", VObj schema.1); ("required", VArr schema.2)].

(** [validateDoc(validate, doc)] *)
Definition validateDoc (validate : ValidateFunction) (doc : value) : bool :=
  validate doc.

End Schema.

(** ** [collection/collection.ts] *)

Module Collection.

(** [validateCollectionDoc], on the registry as it stands. *)
Definition validateCollectionDoc (schemas : gmap string ValidateFunction)
    (collection : string) (doc : value) : bool :=
  match schemas !! collection with
  | Some validator => Schema.validateDoc validator doc
  | None => true
  end.

Section WithDriver.
Context {W Ses E : Type} (tables : TableDriver W E).
(** [compileSchema]: Ajv returns a validator or throws. *)
Variable compileSchema : value -> result (exn E) ValidateFunction.

Local Open Scope steps_scope.

(** [createCollection(driver, name, options)]; [schema] is
    [options?.schema]. The collection returned is its name. *)
Definition createCollection (name : string) (schema : option value)
  : L W Ses E string :=
  _ <- ask (CreateTable name (VObj [])) (createTable name (VObj [])) ;;
  _ <- match schema with
       | Some sch =>
           if truthy sch then
             validator <- sync (compileSchema sch) ;;
             register (fun schemas => <[name := validator]> schemas)
           else Steps.ret tt
       | None => Steps.ret tt
       end ;;
  Steps.ret name.

Definition registerInferredSchema (collection : string) (doc : Document)
  : L W Ses E unit :=
  validator <- sync (compileSchema (VObj (Schema.inferSchema doc))) ;;
  register (fun schemas => <[collection := validator]> schemas).

Definition dropCollection (name : string) : L W Ses E unit :=
  _ <- ask (DropTable name) (dropTable name) ;;
  register (fun schemas => delete name schemas).

Definition listCollections : L W Ses E (list value) :=
  ask ListTables listTables.
End WithDriver.
End Collection.

(** ** [crud/crud.ts]: the insert verbs *)

Module Insert.

Record InsertOneResult : Type := {
  acknowledged : bool;
  insertedId : value;
  inserted : Document;
}.

Record InsertManyResult : Type := {
  manyAcknowledged : bool;
  insertedIds : list value;
  manyInserted : list Document;
}.

(** [docs.map(() => '(?)').join(', ')] *)
Definition valueGroups (docs : list Document) : string :=
  String.concat ", " (map (fun _ => "(?)"%string) docs).

(** [result.insertId ? Array.from({ length }, (_, i) => result.insertId + i) : []] *)
Definition consecutiveIds (insertId : value) (length : nat) : list value :=
  let indices := map Z.of_nat (seq 0 length) in
  match insertId with
  | VUndef | VNull => []
  | VBool b => if b then map (fun i => VNum (1 + i)) indices else []
  | VNum n => if n =? 0 then [] else map (fun i => VNum (n + i)) indices
  | VStr s =>
      if String.eqb s "" then [] else map (fun i => VStr (s +:+ pretty i)) indices
  | VArr _ | VObj _ =>
      map (fun i => VStr (Pipeline.toText insertId +:+ pretty i)) indices
  end.

Section WithDriver.
Context {W Ses E : Type} (driver : BaseDriver W Ses E) (tables : TableDriver W E).
Variable JSON_stringify : value -> string.
(** [result.insertId] of what [driver.query] answered: an insert is
    answered with a header rather than with rows. *)
Variable insertIdOf : list Document -> value.

Local Open Scope steps_scope.

(** [if (!(await driver.tableExists(collection))) await driver.createTable(collection, schema)] *)
Definition ensureTable (collection : string) (schema : value) : L W Ses E unit :=
  present <- ask (Verb (TableExists collection)) (tableExists collection) ;;
  if negb present then ask (CreateTable collection schema) (createTable collection schema)
  else Steps.ret tt.

Definition insertOne (collection : string) (doc : Document)
  : L W Ses E InsertOneResult :=
  _ <- ensureTable collection (VObj doc) ;;
  let sql := "INSERT INTO `" +:+ collection +:+ "` (data) VALUES (?)" in
  let params := [VStr (JSON_stringify (VObj doc))] in
  result <- ask (Verb (Query sql params)) (query sql params) ;;
  Steps.ret {| acknowledged := true;
               insertedId := if truthy (insertIdOf result) then insertIdOf result
                             else VNull;
               inserted := doc |}.

Definition insertMany (collection : string) (docs : list Document)
  : L W Ses E InsertManyResult :=
  _ <- ensureTable collection
         match docs with
         | doc :: _ => VObj doc
         | [] => VUndef
         end ;;
  let sql := "INSERT INTO `" +:+ collection +:+ "` (data) VALUES " +:+ valueGroups docs in
  let params := map (fun d => VStr (JSON_stringify (VObj d))) docs in
  result <- ask (Verb (Query sql params)) (query sql params) ;;
  Steps.ret {| manyAcknowledged := true;
               insertedIds := consecutiveIds (insertIdOf result) (length docs);
               manyInserted := docs |}.
End WithDriver.
End Insert.

(** ** [transaction/transaction.ts]: [withSavepoint] *)

Module Savepoint.
Section WithDriver.
Context {W Ses E : Type} (driver : SavepointDriver W Ses E) {T : Type}.

Local Open Scope steps_scope.

Definition withSavepoint (session : Ses) (fn : Ses -> W -> result (exn E) T * W)
    (savepointName : string) : L W Ses E T :=
  _ <- ask (CreateSavepoint session savepointName)
           (createSavepoint session savepointName) ;;
  Steps.tryCatch
    (result <- work (fn session) ;;
     _ <- ask (ReleaseSavepoint session savepointName)
              (releaseSavepoint session savepointName) ;;
     Steps.ret result)
    (fun err =>
       _ <- ask (RollbackToSavepoint session savepointName)
                (rollbackToSavepoint session savepointName) ;;
       Steps.throw err).
End WithDriver.
End Savepoint.

(** ** [errors/StratisQLError.ts] *)

Module Errors.

(** The fields of a [StratisQLError]; [X] is what the database client
    throws. *)
Record StratisQLError (X : Type) : Type := {
  message : string;
  code : string;
  type : string;
  userMessage : string;
  originalError : option X;
}.
Arguments message {X} s.
Arguments code {X} s.
Arguments type {X} s.
Arguments userMessage {X} s.
Arguments originalError {X} s.

(** The constructor, with its optional arguments. *)
Definition new {X} (message code : string) (originalError : option X)
    (type userMessage : option string) : StratisQLError X :=
  {| message := message;
     code := code;
     type := match type with
             | Some t => t
             | None => "General"
             end;
     userMessage := match userMessage with
                    | Some u =>
                        if String.eqb u "" then "An unexpected error occurred." else u
                    | None => "An unexpected error occurred."
                    end;
     originalError := originalError |}.

(** What a driver throws: an error of the library or the client's own. *)
Inductive thrown (X : Type) : Type :=
| Wrapped (e : StratisQLError X)
| Native (x : X).
Arguments Wrapped {X} e.
Arguments Native {X} x.

End Errors.

(** ** [drivers/PostgresDriver.ts]

    The driver over what it asks of [pg]: a pool [P] that hands out
    clients [C]. A query is answered with its rows ([result.rows]).
    The state of the driver is the pool with the list of every
    operation asked of it; the one-second pause between two connection
    attempts and the logger are outside the model. *)

Module Postgres.

Inductive poolOp (C : Type) : Type :=
| PoolConnect
| PoolQuery (sql : string) (params : option (list value))
| ClientQuery (client : C) (sql : string) (params : option (list value))
| ClientRelease (client : C)
| PoolEnd.
Arguments PoolConnect {C}.
Arguments PoolQuery {C} sql params.
Arguments ClientQuery {C} client sql params.
Arguments ClientRelease {C} client.
Arguments PoolEnd {C}.

Class Pool (P C X : Type) : Type := {
  pool_connect : P -> result X C * P;
  pool_query : string -> option (list value) -> P -> result X (list Document) * P;
  client_query : C -> string -> option (list value) -> P -> result X (list Document) * P;
  client_release : C -> P -> result X unit * P;
  pool_end : P -> result X unit * P;
}.

Record poolState (P C : Type) : Type := PoolState {
  pool : P;
  trace : list (poolOp C);
}.
Arguments PoolState {P C} pool trace.
Arguments pool {P C} p.
Arguments trace {P C} p.

(** [options] of [createIndex] *)
Record CreateIndexesOptions : Type := {
  unique : option bool;
  name : option string;
}.

Section WithPool.
Context {P C X : Type} (pg : Pool P C X).
Import Errors.

Abbreviation D := (@Steps.steps (poolState P C) (thrown X)).

Local Open Scope steps_scope.

(** One operation of the pool: recorded, then run. *)
Definition onPool {A} (op : poolOp C) (f : P -> result X A * P)
  : poolState P C -> result X A * poolState P C :=
  fun s =>
    let '(r, p) := f (pool s) in
    (r, PoolState p (trace s ++ [op])).

(** An awaited operation outside any [try]: its failure is thrown on. *)
Definition await {A} (op : poolOp C) (f : P -> result X A * P) : D A :=
  fun s =>
    match onPool op f s with
    | (Ok a, s') => (Ok a, s')
    | (Err x, s') => (Err (Raised (Native x)), s')
    end.

(** The loop of [connect], [retries] attempts left. *)
Fixpoint connectLoop (retries : nat) : D unit :=
  match retries with
  | O => Steps.ret tt
  | S retries' =>
      fun s =>
        match onPool PoolConnect pool_connect s with
        | (Ok _, s') => (Ok tt, s')
        | (Err err, s') =>
            if Nat.eqb retries' 0 then
              (Err (Raised (Wrapped
                      (new "Failed to connect to PostgreSQL after retries"
                           "PG_CONNECT" (Some err) None None))), s')
            else connectLoop retries' s'
        end
  end.

Definition connect : D unit := connectLoop 3.

Definition disconnect : D unit := await PoolEnd pool_end.

Definition healthCheck : D bool :=
  fun s =>
    match onPool (PoolQuery "SELECT 1" None) (pool_query "SELECT 1" None) s with
    | (Ok _, s') => (Ok true, s')
    | (Err _, s') => (Ok false, s')
    end.

(** [query(sql, params = [], session?)] *)
Definition query (sql : string) (params : option (list value)) (session : option C)
  : D (list Document) :=
  let params := match params with
                | Some ps => ps
                | None => []
                end in
  fun s =>
    match match session with
          | Some client =>
              onPool (ClientQuery client sql (Some params))
                     (client_query client sql (Some params)) s
          | None =>
              onPool (PoolQuery sql (Some params)) (pool_query sql (Some params)) s
          end with
    | (Ok rows, s') => (Ok rows, s')
    | (Err err, s') =>
        (Err (Raised (Wrapped (new "PostgreSQL query failed" "PG_QUERY" (Some err)
                                   None None))), s')
    end.

(** An optional string used as a condition. *)
Definition givenText (s : option string) : option string :=
  match s with
  | Some t => if String.eqb t "" then None else Some t
  | None => None
  end.

Definition startSession (isolationLevel savepointName : option string) : D C :=
  client <- await PoolConnect pool_connect ;;
  _ <- match givenText isolationLevel with
       | Some level =>
           await (ClientQuery client ("BEGIN ISOLATION LEVEL " +:+ level) None)
                 (client_query client ("BEGIN ISOLATION LEVEL " +:+ level) None)
       | None =>
           await (ClientQuery client "BEGIN" None) (client_query client "BEGIN" None)
       end ;;
  _ <- match givenText savepointName with
       | Some name =>
           _ <- await (ClientQuery client ("SAVEPOINT " +:+ name) None)
                      (client_query client ("SAVEPOINT " +:+ name) None) ;;
           Steps.ret tt
       | None => Steps.ret tt
       end ;;
  Steps.ret client.

(** A statement sent on the session's client, its rows dropped. *)
Definition onClient (client : C) (sql : string) : D unit :=
  _ <- await (ClientQuery client sql None) (client_query client sql None) ;;
  Steps.ret tt.

Definition commit (session : C) : D unit := onClient session "COMMIT".

Definition rollback (session : C) : D unit := onClient session "ROLLBACK".

Definition release (session : C) : D unit :=
  await (ClientRelease session) (client_release session).

Definition createSavepoint (session : C) (name : string) : D unit :=
  onClient session ("SAVEPOINT " +:+ name).

Definition releaseSavepoint (session : C) (name : string) : D unit :=
  onClient session ("RELEASE SAVEPOINT " +:+ name).

Definition rollbackToSavepoint (session : C) (name : string) : D unit :=
  onClient session ("ROLLBACK TO SAVEPOINT " +:+ name).

Definition getDialect : string := "postgres".

(** [!!rows[0]?.exists] *)
Definition tableExists (table : string) : D bool :=
  rows <- query "SELECT to_regclass($1) as exists" (Some [VStr table]) None ;;
  Steps.ret match rows with
            | row :: _ => truthy (prop row "exists")
            | [] => false
            end.

Definition createTable (collection : string) (schema : value) : D unit :=
  _ <- query ("CREATE TABLE IF NOT EXISTS " +:+ Pipeline.dq +:+ collection +:+ Pipeline.dq
              +:+ " (id SERIAL PRIMARY KEY, data JSONB)") None None ;;
  Steps.ret tt.

Definition dropTable (collection : string) : D unit :=
  _ <- query ("DROP TABLE IF EXISTS " +:+ Pipeline.dq +:+ collection +:+ Pipeline.dq)
             None None ;;
  Steps.ret tt.

Definition listTables : D (list value) :=
  rows <- query "SELECT tablename FROM pg_tables WHERE schemaname = 'public'"
                None None ;;
  Steps.ret (map (fun row => prop row "tablename") rows).

(** [options?.name || `idx_${Object.keys(indexSpec).join('_')}`] *)
Definition indexName (indexSpec : list (string * Z)) (options : option CreateIndexesOptions)
  : string :=
  match givenText (options ≫= name) with
  | Some n => n
  | None => "idx_" +:+ String.concat "_" (map fst indexSpec)
  end.

Definition createIndexSql (collection : string) (indexSpec : list (string * Z))
    (options : option CreateIndexesOptions) : string :=
  let fields :=
    String.concat ", "
      (map (fun f => Pipeline.dq +:+ "data" +:+ Pipeline.dq +:+ "->>'" +:+ f +:+ "'")
           (map fst indexSpec)) in
  let unique := match options ≫= unique with
                | Some true => "UNIQUE"
                | _ => ""
                end in
  "CREATE " +:+ unique +:+ " INDEX IF NOT EXISTS " +:+ Pipeline.dq
  +:+ indexName indexSpec options +:+ Pipeline.dq +:+ " ON " +:+ Pipeline.dq
  +:+ collection +:+ Pipeline.dq +:+ " (" +:+ fields +:+ ")".

Definition createIndex (collection : string) (indexSpec : list (string * Z))
    (options : option CreateIndexesOptions) : D string :=
  _ <- query (createIndexSql collection indexSpec options) None None ;;
  Steps.ret (indexName indexSpec options).

Definition dropIndex (collection indexName : string) : D unit :=
  _ <- query ("DROP INDEX IF EXISTS " +:+ Pipeline.dq +:+ indexName +:+ Pipeline.dq)
             None None ;;
  Steps.ret tt.

(** The driver as the library sees it: no verb passes a session to
    [query], and [withTransaction] starts its session without arguments. *)
Definition asBase : BaseDriver (poolState P C) C (thrown X) :=
  Build_BaseDriver _ _ _
    (fun sql params => query sql (Some params) None)
    (startSession None None)
    commit
    rollback
    release
    getDialect
    tableExists.

Definition asTables : TableDriver (poolState P C) (thrown X) :=
  Build_TableDriver _ _ createTable dropTable listTables.

Definition asSavepoints : SavepointDriver (poolState P C) C (thrown X) :=
  Build_SavepointDriver _ _ _ createSavepoint releaseSavepoint rollbackToSavepoint.

(** A verb run by the caller's work function: it starts from the
    driver's state and leaves the driver's state. *)
Definition asWork {A} (verb : @M (poolState P C) C (thrown X) A)
  : poolState P C -> result (exn (thrown X)) A * poolState P C :=
  fun d =>
    let '(r, w) := verb (World d [] []) in
    (r, driverState w).

(** The operations a statement sent outside a session adds. *)
Definition onThePool (op : poolOp C) : bool :=
  match op with
  | PoolQuery _ _ => true
  | _ => false
  end.
End WithPool.

(** The failure [query] throws when the client fails, and a failure of
    the client thrown on as it is. *)
Definition queryFailed {X} (e : exn (Errors.thrown X)) : Prop :=
  exists x,
    e = Raised (Errors.Wrapped
                  (Errors.new "PostgreSQL query failed" "PG_QUERY" (Some x) None None)).

Definition clientFailed {X} (e : exn (Errors.thrown X)) : Prop :=
  exists x, e = Raised (Errors.Native x).

(** A computation of the library that reaches the pool only through
    statements sent outside any session. *)
Definition onlyPool {P C X A} (m : @M (poolState P C) C (Errors.thrown X) A) : Prop :=
  forall w,
  exists sent,
    trace (driverState (m w).2) = trace (driverState w) ++ sent
    /\ Forall (fun op => onThePool op = true) sent.
End Postgres.

(** A pool for examples: the answers the next operations get, in order;
    with none left an operation succeeds and a query has no rows. Every
    client is number 1. *)

Module Scripted.

Inductive answer : Type :=
| Rows (rows : list Document)
| Fails (x : string).

Definition next {A} (ok : list Document -> A) (answers : list answer)
  : result string A * list answer :=
  match answers with
  | Rows rows :: rest => (Ok (ok rows), rest)
  | Fails x :: rest => (Err x, rest)
  | [] => (Ok (ok []), [])
  end.

Definition pool : Postgres.Pool (list answer) nat string :=
  Postgres.Build_Pool _ _ _
    (next (fun _ => 1%nat))
    (fun _ _ => next (fun rows => rows))
    (fun _ _ _ => next (fun rows => rows))
    (fun _ => next (fun _ => tt))
    (next (fun _ => tt)).

Definition fresh (answers : list answer) : Postgres.poolState (list answer) nat :=
  Postgres.PoolState answers [].

(** The library on this pool, nothing registered, nothing asked. *)
Definition library (answers : list answer)
  : library (Postgres.poolState (list answer) nat) nat :=
  Library (fresh answers) ∅ [].

(** A compiler of schemas for examples: the validator accepts objects. *)
Definition compileSchema (schema : value) : result (exn (Errors.thrown string)) ValidateFunction :=
  match schema with
  | VObj _ => Ok (fun doc => match doc with VObj _ => true | _ => false end)
  | _ => Err (Raised (Errors.Native "schema must be object"%string))
  end.

End Scripted.

(** * What the statements below are about

    ** Names every object inherits

    [prop] and [Js.get] give the own property of an object. Reading
    [o[k]] in JavaScript gives the own property when there is one and
    goes on to [Object.prototype] otherwise, so the two agree unless [k]
    is one of the names below; writing [o["__proto__"]] does not create
    an own property either. A statement about a field that the code
    reads or writes by name is made for a name that is not inherited. *)

Definition inheritedNames : list string :=
  ["constructor"; "__defineGetter__"; "__defineSetter__"; "hasOwnProperty";
   "__lookupGetter__"; "__lookupSetter__"; "isPrototypeOf"; "propertyIsEnumerable";
   "toString"; "valueOf"; "__proto__"; "toLocaleString"]%string.

Definition inheritedName (k : string) : bool :=
  existsb (String.eqb k) inheritedNames.

(** ** Numbers

    A number of the model is an integer, added exactly. JavaScript adds
    doubles, which is exact on the integers between -(2^53 - 1) and
    2^53 - 1 as long as the sum stays between them. *)

Definition safeInteger (z : Z) : bool :=
  (- (2 ^ 53 - 1) <=? z) && (z <=? 2 ^ 53 - 1).

(** ** Cleanup

    The failure a [try] with [catch] and [finally] raises in the end:
    that of the last cleanup step that failed, and the failure it began
    with when none did. *)

Definition lastFailure {E} (original : exn E) (cleanup : list (result (exn E) unit))
  : exn E :=
  fold_left (fun raised step =>
               match step with
               | Ok _ => raised
               | Err e => e
               end) cleanup original.

(** ** Update specifications: what an operator binds *)

Module Bindings.

(** The operator binds [k] to [v], and to nothing else. *)
Definition binds {A} (fields : option (list (string * A))) (k : string) (v : A) : Prop :=
  exists fs, fields = Some fs /\ NoDup fs.*1 /\ (k, v) ∈ fs.

(** The operator is absent or does not name [k]. *)
Definition silent {A} (fields : option (list (string * A))) (k : string) : Prop :=
  match fields with
  | Some fs => k ∉ fs.*1
  | None => True
  end.

End Bindings.

(** ** Binding parameters to placeholders

    Execution binds the parameters of a statement to its placeholders
    by position. [bound show clause params] is the clause with each
    placeholder replaced, from left to right, by the text [show] gives
    to the parameter at its position (a placeholder without a parameter
    stays). [literal show dialect filter] is the condition the filter
    stands for, written with every operand where it belongs (section
    4.1 of the specification): a comparison is the path of its field,
    the symbol of its operator and the operand; a set membership lists
    the elements of its operand; a negation wraps the condition of its
    operand; the comparisons of a field, and the conditions of the
    fields, are joined by AND, a field without a comparison being left
    out. *)

Module Binding.
Section Binding.
Variable show : value -> string.

Fixpoint bound (clause : string) (params : list value) : string :=
  match clause with
  | EmptyString => EmptyString
  | String c rest =>
      if Ascii.eqb c "?" then
        match params with
        | p :: params' => show p +:+ bound rest params'
        | [] => String c (bound rest [])
        end
      else String c (bound rest params)
  end.

Variable dialect : string.

(** The symbol of a comparison operator. *)
Definition symbol (op : string) : option string :=
  if String.eqb op "$eq" then Some " = "%string
  else if String.eqb op "$ne" then Some " <> "%string
  else if String.eqb op "$gt" then Some " > "%string
  else if String.eqb op "$gte" then Some " >= "%string
  else if String.eqb op "$lt" then Some " < "%string
  else if String.eqb op "$lte" then Some " <= "%string
  else None.

Section Field.
Variable key : string.
(** The condition of the operand of a negation. *)
Variable negated : value -> string.

Fixpoint comparisons (ops : list (string * value)) : list string :=
  match ops with
  | [] => []
  | (op, operand) :: rest =>
      match symbol op with
      | Some sym => [Helpers.parseKey dialect key +:+ sym +:+ show operand]
      | None =>
          if String.eqb op "$in" then
            match operand with
            | VArr xs =>
                [Helpers.parseKey dialect key +:+ " IN ("
                 +:+ String.concat ", " (map show xs) +:+ ")"]
            | _ => []
            end
          else if String.eqb op "$nin" then
            match operand with
            | VArr xs =>
                [Helpers.parseKey dialect key +:+ " NOT IN ("
                 +:+ String.concat ", " (map show xs) +:+ ")"]
            | _ => []
            end
          else if String.eqb op "$not" then ["NOT (" +:+ negated operand +:+ ")"]
          else []
      end ++ comparisons rest
  end.
End Field.

Fixpoint condition (key : string) (v : value) : string :=
  match v with
  | VObj ops => String.concat " AND " (comparisons key (condition key) ops)
  | _ => Helpers.parseKey dialect key +:+ " = " +:+ show v
  end.

Definition literal (filter : list (string * value)) : string :=
  String.concat " AND "
    (List.filter (fun c => negb (String.eqb c ""))
       (map (fun kv => condition kv.1 kv.2) filter)).
End Binding.
End Binding.

(** ** The project stage: keys and unwind paths *)

Module Projected.

(** No key the stage flags is an inherited name. *)
Definition flagsOwn (projectStage : value) : bool :=
  forallb (fun kv => negb (truthy kv.2 && inheritedName kv.1))
          (Pipeline.ownEntries projectStage).

(** Every unwind stage of the pipeline has a path, and one the project
    stage does not keep. *)
Definition unwindsDropped (projectStage : value) (pipeline : list Document) : bool :=
  forallb (fun stage =>
             match Aggregate.unwindPath stage with
             | Return (Some path) => negb (Pipeline.kept projectStage path)
             | Return None => true
             | TypeError => false
             end) pipeline.

End Projected.

(** A driver for examples on which commit and rollback both fail. *)

Module Broken.

Definition commitAndRollbackFail : BaseDriver unit nat string := {|
  query _ _ w := (Ok [], w);
  startSession w := (Ok 7%nat, w);
  commit _ w := (Err (Raised "commit failed"%string), w);
  rollback _ w := (Err (Raised "rollback failed"%string), w);
  release _ w := (Ok tt, w);
  getDialect := "postgres";
  tableExists _ w := (Ok true, w);
|}.

Definition start : world unit nat := World tt [] [].

End Broken.

(** * Verification *)

(** ** Induction on values, through arrays and objects *)

Section ValueInduction.
Variable P : value -> Prop.
Hypothesis HUndef : P VUndef.
Hypothesis HNull : P VNull.
Hypothesis HBool : forall b, P (VBool b).
Hypothesis HNum : forall n, P (VNum n).
Hypothesis HStr : forall s, P (VStr s).
Hypothesis HArr : forall xs, Forall P xs -> P (VArr xs).
Hypothesis HObj : forall props, Forall (fun kv => P kv.2) props -> P (VObj props).

Fixpoint value_ind (v : value) : P v :=
  match v with
  | VUndef => HUndef
  | VNull => HNull
  | VBool b => HBool b
  | VNum n => HNum n
  | VStr s => HStr s
  | VArr xs =>
      HArr xs
        ((fix all (xs : list value) : Forall P xs :=
            match xs with
            | [] => @List.Forall_nil _ P
            | x :: xs' => @List.Forall_cons _ P x xs' (value_ind x) (all xs')
            end) xs)
  | VObj props =>
      HObj props
        ((fix all (props : list (string * value)) : Forall (fun kv => P kv.2) props :=
            match props with
            | [] => @List.Forall_nil _ _
            | kv :: props' =>
                @List.Forall_cons _ (fun kv => P kv.2) kv props' (value_ind kv.2) (all props')
            end) props)
  end.
End ValueInduction.

(** ** The Predicate Compiler *)

Section HelpersFacts.
Import Helpers Run.
Variable dialect : string.

Lemma decides_true {A} (b : bool) (o : outcome A) :
  decides b o -> b = true <-> exists r, o = Return r.
Proof.
  destruct b; simpl; intros H; split; intros H'; try done.
  destruct H' as [r Hr]. congruence.
Qed.

Ltac by_operator op :=
  repeat match goal with
         | |- context [String.eqb op ?s] =>
             destruct (String.eqb_spec op s) as [->|?]; cbn [orb andb]
         end.

Lemma operators_decides key negated safe ops :
  Forall (fun kv => forall params, decides (safe kv.2) (negated kv.2 params)) ops ->
  forall subClauses params,
    decides (Spec.operatorsSafe safe ops)
            (operators dialect key negated ops subClauses params).
Proof.
  induction 1 as [|[op operand] ops Hop _ IH]; intros subClauses params.
  - simpl. eauto.
  - cbn [operators Spec.operatorsSafe]. cbn [snd] in Hop.
    by_operator op; cbn; try apply IH.
    + destruct operand; cbn; try done; apply IH.
    + destruct operand; cbn; try done; apply IH.
    + specialize (Hop params). destruct (safe operand); cbn in *.
      * destruct Hop as [[notCond params'] ->]. apply IH.
      * by rewrite Hop.
Qed.

Lemma parseCondition_decides v :
  forall key params,
    decides (Spec.conditionSafe v) (parseCondition dialect key v params).
Proof.
  induction v as [| | | | | |ops IH] using value_ind; intros key params;
    try (cbn; eauto; fail).
  cbn [parseCondition Spec.conditionSafe].
  apply operators_decides.
  eapply Forall_impl; [exact IH|]. cbn. eauto.
Qed.

Lemma fieldEntry_decides key v clauses params :
  decides (Spec.conditionSafe v) (fieldEntry dialect key v clauses params).
Proof.
  unfold fieldEntry.
  pose proof (parseCondition_decides v key params) as H.
  destruct (Spec.conditionSafe v); cbn in *.
  - destruct H as [[cond params'] ->]. eauto.
  - by rewrite H.
Qed.

Lemma indexEntries_decides entries :
  forall clauses params,
    decides (forallb (fun kv => Spec.conditionSafe kv.2) entries)
            (indexEntries dialect entries clauses params).
Proof.
  induction entries as [|[key v] entries IH]; intros clauses params.
  - cbn. eauto.
  - cbn [indexEntries forallb snd].
    pose proof (fieldEntry_decides key v clauses params) as H.
    destruct (Spec.conditionSafe v); cbn in *.
    + destruct H as [[clauses' params'] ->]. apply IH.
    + by rewrite H.
Qed.

Lemma forallb_indexed (safe : value -> bool) xs :
  forallb (fun kv => safe kv.2) (indexed xs) = forallb safe xs.
Proof.
  unfold indexed.
  enough (H : forall name : nat -> string,
             forallb (fun kv => safe kv.2) (imap (fun i x => (name i, x)) xs)
             = forallb safe xs) by apply H.
  induction xs as [|x xs IH]; intros name; [done|].
  cbn. f_equal. apply (IH (fun i => name (S i))).
Qed.

Lemma forallb_chars s : forallb Spec.conditionSafe (chars s) = true.
Proof. induction s; cbn; auto. Qed.

Section Nested.
Variable compile : value -> outcome (string * list value).
Variable safe : value -> bool.

Lemma nestedClauses_decides conds :
  Forall (fun c => decides (safe c) (compile c)) conds ->
  decides (forallb safe conds) (nestedClauses compile conds).
Proof.
  induction 1 as [|cond conds Hc _ IH]; cbn; [eauto|].
  destruct (safe cond); cbn in *.
  - destruct Hc as [[clause ps] ->].
    destruct (forallb safe conds); cbn in *.
    + destruct IH as [rest ->]. eauto.
    + by rewrite IH.
  - by rewrite Hc.
Qed.

Lemma notEntry_decides v clauses params :
  decides (safe v) (compile v) ->
  decides (safe v) (notEntry compile v clauses params).
Proof.
  unfold notEntry. destruct (safe v); cbn.
  - intros [[clause ps] ->]. eauto.
  - by intros ->.
Qed.

Lemma filterEntries_decides props :
  Forall (fun kv =>
            decides (safe kv.2) (compile kv.2)
            /\ forall conds, kv.2 = VArr conds ->
                             Forall (fun c => decides (safe c) (compile c)) conds)
         props ->
  forall clauses params,
    decides (Spec.entriesSafe safe props)
            (filterEntries dialect compile props clauses params).
Proof.
  induction 1 as [|[key v] props [Hv Helems] _ IH]; intros clauses params.
  - cbn. eauto.
  - cbn [snd] in Hv, Helems.
    assert (Hnot : forall b, b = safe v ->
              decides (b && Spec.entriesSafe safe props)
                match notEntry compile v clauses params with
                | Return (clauses', params') =>
                    filterEntries dialect compile props clauses' params'
                | TypeError => TypeError
                end).
    { intros b ->. pose proof (notEntry_decides v clauses params Hv) as H.
      destruct (safe v); cbn in *.
      - destruct H as [[clauses' params'] ->]. apply IH.
      - by rewrite H. }
    assert (Hfield : decides (Spec.conditionSafe v && Spec.entriesSafe safe props)
                match fieldEntry dialect key v clauses params with
                | Return (clauses', params') =>
                    filterEntries dialect compile props clauses' params'
                | TypeError => TypeError
                end).
    { pose proof (fieldEntry_decides key v clauses params) as H.
      destruct (Spec.conditionSafe v); cbn in *.
      - destruct H as [[clauses' params'] ->]. apply IH.
      - by rewrite H. }
    cbn [filterEntries Spec.entriesSafe].
    destruct v as [| | | | |conds|ops];
      try (destruct (String.eqb key "$not"); cbn [andb typeofObject];
           first [by apply Hnot | exact Hfield]).
    specialize (Helems conds eq_refl).
    pose proof (nestedClauses_decides conds Helems) as Hn.
    destruct (String.eqb key "$or"); cbn [orb].
    { destruct (forallb safe conds); cbn in *.
      - destruct Hn as [orClauses ->]. apply IH.
      - by rewrite Hn. }
    destruct (String.eqb key "$and"); cbn [orb].
    { destruct (forallb safe conds); cbn in *.
      - destruct Hn as [andClauses ->]. apply IH.
      - by rewrite Hn. }
    destruct (String.eqb key "$not"); [by apply Hnot | exact Hfield].
Qed.
End Nested.

(** The compiler returns exactly on the filters whose set-membership
    operands are sequences, and throws a [TypeError] on the others. *)
Lemma buildWhereClause_decides filter :
  decides (Spec.filterSafe filter) (buildWhereClause filter dialect).
Proof.
  enough (H : decides (Spec.filterSafe filter) (buildWhereClause filter dialect)
              /\ forall conds, filter = VArr conds ->
                   Forall (fun c => decides (Spec.filterSafe c)
                                      (buildWhereClause c dialect)) conds)
    by apply H.
  induction filter as [| | | |s|xs IH|props IH] using value_ind;
    try (split; [cbn; eauto | intros ? [=]]; fail).
  - split; [|intros ? [=]].
    cbn [buildWhereClause Spec.filterSafe].
    rewrite <- (forallb_chars s), <- (forallb_indexed Spec.conditionSafe).
    apply indexEntries_decides.
  - split.
    + cbn [buildWhereClause Spec.filterSafe].
      rewrite <- (forallb_indexed Spec.conditionSafe). apply indexEntries_decides.
    + intros conds [= <-]. eapply Forall_impl; [exact IH|]. cbn. tauto.
  - split; [|intros ? [=]].
    cbn [buildWhereClause Spec.filterSafe].
    apply (filterEntries_decides (fun cond => buildWhereClause cond dialect)).
    exact IH.
Qed.

Lemma operators_skip key negated ops1 op operand ops2 :
  Spec.recognized op = false ->
  forall subClauses params,
    operators dialect key negated (ops1 ++ (op, operand) :: ops2) subClauses params
    = operators dialect key negated (ops1 ++ ops2) subClauses params.
Proof.
  intros Hop. unfold Spec.recognized in Hop. cbn [existsb] in Hop.
  repeat match type of Hop with
         | _ || _ = false => apply orb_false_elim in Hop as [? Hop]
         end.
  induction ops1 as [|[op' operand'] ops1 IH]; intros subClauses params.
  - cbn [app operators].
    repeat match goal with
           | H : String.eqb op _ = false |- _ => rewrite H; clear H
           end.
    done.
  - cbn [app operators]. repeat case_match; try done; apply IH.
Qed.

Lemma filterEntries_field compile key ops ops' before after :
  key <> "$not"%string ->
  (forall params,
      parseCondition dialect key (VObj ops) params
      = parseCondition dialect key (VObj ops') params) ->
  forall clauses params,
    filterEntries dialect compile (before ++ (key, VObj ops) :: after) clauses params
    = filterEntries dialect compile (before ++ (key, VObj ops') :: after) clauses params.
Proof.
  intros Hkey Hcond.
  induction before as [|[key' v'] before IH]; intros clauses params.
  - cbn [app filterEntries].
    apply String.eqb_neq in Hkey. rewrite Hkey. cbn [andb].
    unfold fieldEntry. by rewrite Hcond.
  - cbn [app filterEntries]. repeat case_match; try done; apply IH.
Qed.

Lemma operators_params key negated condOps ops :
  Forall (fun kv => forall params c ps,
              negated kv.2 params = Return (c, ps) -> ps = params ++ condOps kv.2) ops ->
  forall subClauses params c ps,
    operators dialect key negated ops subClauses params = Return (c, ps) ->
    ps = params ++ Spec.operatorOperands condOps ops.
Proof.
  induction 1 as [|[op operand] ops Hop _ IH]; intros subClauses params c ps.
  - cbn. intros [= _ <-]. by rewrite app_nil_r.
  - cbn [operators Spec.operatorOperands existsb]. cbn [snd] in Hop.
    by_operator op; cbn [orb];
      try (intros H; apply IH in H; by rewrite H, <- app_assoc).
    + destruct operand; cbn; try done.
      intros H; apply IH in H; by rewrite H, <- app_assoc.
    + destruct operand; cbn; try done.
      intros H; apply IH in H; by rewrite H, <- app_assoc.
    + destruct (negated operand params) as [[notCond params']|] eqn:Hn; [|done].
      apply Hop in Hn. intros H; apply IH in H. by rewrite H, Hn, <- app_assoc.
    + apply IH.
Qed.

Lemma parseCondition_params v :
  forall key params c ps,
    parseCondition dialect key v params = Return (c, ps) ->
    ps = params ++ Spec.conditionOperands v.
Proof.
  induction v as [| | | | | |ops IH] using value_ind; intros key params c ps;
    try (cbn; by intros [= _ <-]).
  cbn [parseCondition Spec.conditionOperands].
  apply operators_params. eapply Forall_impl; [exact IH|]. cbn. eauto.
Qed.

Lemma filterEntries_params compile filterOps props :
  Spec.combinatorFree props = true ->
  forall clauses params c ps,
    filterEntries dialect compile props clauses params = Return (c, ps) ->
    ps = params ++ Spec.entryOperands filterOps props.
Proof.
  induction props as [|[key v] props IH]; intros Hfree clauses params c ps.
  - cbn. intros [= _ <-]. by rewrite app_nil_r.
  - cbn [Spec.combinatorFree forallb fst snd] in Hfree.
    apply andb_prop in Hfree as [Hentry Hfree]. apply negb_true_iff in Hentry.
    assert (Hfield :
              match fieldEntry dialect key v clauses params with
              | Return (clauses', params') =>
                  filterEntries dialect compile props clauses' params'
              | TypeError => TypeError
              end = Return (c, ps) ->
              ps = params ++ Spec.conditionOperands v ++ Spec.entryOperands filterOps props).
    { unfold fieldEntry.
      destruct (parseCondition dialect key v params) as [[cond params']|] eqn:Hc; [|done].
      apply parseCondition_params in Hc. intros H. apply (IH Hfree) in H.
      by rewrite H, Hc, <- app_assoc. }
    unfold Spec.combinator in Hentry.
    cbn [filterEntries Spec.entryOperands].
    destruct v; cbn [isArray typeofObject] in Hentry |- *;
      destruct (String.eqb key "$or"), (String.eqb key "$and"),
        (String.eqb key "$not");
      cbn [andb orb] in Hentry |- *; try discriminate; exact Hfield.
Qed.

(** On a filter without logical combinators the returned parameters are
    the operands in placeholder order. *)
Lemma buildWhereClause_params_without_combinators props c ps :
  Spec.combinatorFree props = true ->
  buildWhereClause (VObj props) dialect = Return (c, ps) ->
  ps = Spec.filterOperands (VObj props).
Proof.
  intros Hfree. cbn [buildWhereClause Spec.filterOperands].
  intros H. by apply (filterEntries_params _ Spec.filterOperands) in H.
Qed.
End HelpersFacts.

(** C8, as amended: the Predicate Compiler returns on exactly the filters
    whose set-membership operands are sequences (and throws a TypeError on
    the others); and in a filter whose field value is a nested operator
    mapping, an unrecognized operator contributes no clause text and no
    parameters: the outcome is that of the filter without it. *)
Theorem unrecognized_operator_skipped
    (dialect : string) (filter : value)
    (before after : list (string * value)) (key : string)
    (ops1 ops2 : list (string * value)) (op : string) (operand : value) :
  Spec.recognized op = false ->
  key <> "$not"%string ->
  (Spec.filterSafe filter = true
   <-> exists r, Helpers.buildWhereClause filter dialect = Return r)
  /\ Helpers.buildWhereClause
       (VObj (before ++ (key, VObj (ops1 ++ (op, operand) :: ops2)) :: after)) dialect
     = Helpers.buildWhereClause
         (VObj (before ++ (key, VObj (ops1 ++ ops2)) :: after)) dialect.
Proof.
  intros Hop Hkey. split.
  - apply decides_true, buildWhereClause_decides.
  - cbn [Helpers.buildWhereClause].
    apply filterEntries_field; [done|].
    intros params. cbn [Helpers.parseCondition]. by apply operators_skip.
Qed.

Lemma unrecognized_operator_skipped_witness :
  Spec.recognized "$near" = false
  /\ "age"%string <> "$not"%string
  /\ ((Spec.filterSafe (VObj [("age", VObj [("$in", VArr [VNum 18])])]) = true
       <-> exists r,
            Helpers.buildWhereClause
              (VObj [("age", VObj [("$in", VArr [VNum 18])])]) "postgres" = Return r)
      /\ Helpers.buildWhereClause
           (VObj ([] ++ ("age", VObj ([("$gte", VNum 18)]
                                       ++ ("$near", VNum 3) :: [("$lte", VNum 65)])) :: []))
           "postgres"
         = Helpers.buildWhereClause
             (VObj ([] ++ ("age", VObj ([("$gte", VNum 18)] ++ [("$lte", VNum 65)])) :: []))
             "postgres").
Proof.
  split; [reflexivity|]. split; [discriminate|].
  apply (unrecognized_operator_skipped "postgres"
           (VObj [("age", VObj [("$in", VArr [VNum 18])])]) [] [] "age"
           [("$gte", VNum 18)] [("$lte", VNum 65)] "$near" (VNum 3));
    [reflexivity | discriminate].
Defined.

(** C8 as the specification states it fails: this filter has an
    unrecognized operator next to a set-membership operator whose operand
    is not a sequence, and compiling it throws. *)
Lemma unrecognized_operator_filter_throws :
  Spec.recognized "$near" = false
  /\ Helpers.buildWhereClause
       (VObj [("age", VObj [("$near", VNum 3); ("$in", VNum 18)])]) "mysql"
     = TypeError.
Proof. split; reflexivity. Qed.

(** C1: the parameters of nested filters are not appended. A filter made
    of one disjunction or conjunction always comes back with an empty
    parameter list, whatever its nested filters; in the filter below the
    disjunction holds two nested filters, the compiled clause has two
    placeholders, the operands in placeholder order are 1 and 2, and the
    returned parameter list is empty. *)
Theorem nested_parameters_dropped :
  (forall dialect key conds clause params,
      key = "$or"%string \/ key = "$and"%string ->
      Helpers.buildWhereClause (VObj [(key, VArr conds)]) dialect
      = Return (clause, params) ->
      params = [])
  /\ let filter :=
       VObj [("$or", VArr [VObj [("a", VNum 1)]; VObj [("b", VObj [("$gt", VNum 2)])]])] in
     Helpers.buildWhereClause filter "postgres"
     = Return ("((data->>'a' = ?) OR (data->>'b' > ?))"%string, [])
     /\ Spec.placeholderCount "((data->>'a' = ?) OR (data->>'b' > ?))" = 2%nat
     /\ Spec.filterOperands filter = [VNum 1; VNum 2].
Proof.
  split; [|repeat split; reflexivity].
  intros dialect key conds clause params [-> | ->];
    cbn [Helpers.buildWhereClause Helpers.filterEntries String.eqb Ascii.eqb
           Bool.eqb];
    destruct (Helpers.nestedClauses _ conds); cbn; congruence.
Qed.

(** ** The update operators *)

Section UpdateFacts.
Import Update.

Lemma get_set_eq o k v : Js.get (Js.set o k v) k = v.
Proof.
  induction o as [|[k' v'] o IH]; cbn.
  - by rewrite String.eqb_refl.
  - destruct (String.eqb_spec k' k) as [->|Hne]; cbn.
    + by rewrite String.eqb_refl.
    + apply String.eqb_neq in Hne. by rewrite Hne.
Qed.

Lemma get_set_ne o k k' v : k <> k' -> Js.get (Js.set o k v) k' = Js.get o k'.
Proof.
  intros Hne. induction o as [|[k0 v0] o IH]; cbn.
  - apply String.eqb_neq in Hne. by rewrite Hne.
  - destruct (String.eqb_spec k0 k) as [->|Hne0]; cbn.
    + apply String.eqb_neq in Hne. by rewrite Hne.
    + by rewrite IH.
Qed.

(** After an append the field holds an array: the elements it held
    before (none if it was not an array) followed by the operand; the
    other fields of the new document are as they were. *)
Lemma pushField_spec o h k x :
  exists o' h',
    pushField (o, h) (k, x) = (o', h')
    /\ Js.elements h' (Js.get o' k)
       = Some (default [] (Js.elements h (Js.get o k)) ++ [x])
    /\ forall k', k <> k' -> Js.get o' k' = Js.get o k'.
Proof.
  unfold pushField, Js.isArray. cbn [fst snd].
  destruct (Js.elements h (Js.get o k)) as [xs|] eqn:Hel.
  - eexists _, _. split; [reflexivity|]. split; [|done].
    unfold Js.elements, Js.push in *.
    destruct (Js.get o k) as [| | | | |l]; try done.
    destruct (h !! l) as [[ys|]|] eqn:Hl; try done.
    injection Hel as ->. cbn.
    rewrite list_lookup_insert_eq; [done|].
    by eapply lookup_lt_Some.
  - cbn. eexists _, _. split; [reflexivity|]. split.
    + rewrite get_set_eq. unfold Js.push, Js.elements.
      rewrite lookup_app_r by done. rewrite Nat.sub_diag. cbn.
      by rewrite list_lookup_insert_eq by (rewrite length_app; cbn; lia).
    + intros k' Hne. by apply get_set_ne.
Qed.

Lemma update_lookups_permutation u1 u2 :
  NoDup (map Spec.entryKey u1) ->
  Permutation u1 u2 ->
  update_set u1 = update_set u2 /\ update_inc u1 = update_inc u2
  /\ update_push u1 = update_push u2 /\ update_pull u1 = update_pull u2.
Proof.
  intros Hnd Hperm. induction Hperm as [|e u u' _ IH|e e' u|u u' u'' H1 IH1 H2 IH2].
  - done.
  - apply NoDup_cons in Hnd as [_ Hnd]. destruct (IH Hnd) as (?&?&?&?).
    destruct e; cbn; auto.
  - apply NoDup_cons in Hnd as [Hin _]. cbn in Hin.
    destruct e, e'; cbn in *; try done; exfalso; apply Hin; left.
  - destruct (IH1 Hnd) as (?&?&?&?).
    assert (Hnd' : NoDup (map Spec.entryKey u')).
    { by rewrite <- (Permutation_map Spec.entryKey H1). }
    destruct (IH2 Hnd') as (?&?&?&?).
    repeat split; congruence.
Qed.
End UpdateFacts.

Section SharingFacts.
Import Update.

Lemma pullField_extends st kx : st.2 `prefix_of` (pullField st kx).2.
Proof.
  destruct st as [o h]. unfold pullField. cbn [fst snd].
  destruct (Js.elements h (Js.get o kx.1)); cbn; [|done].
  by apply prefix_app_r.
Qed.

Lemma pull_fields_extend fields :
  forall st, st.2 `prefix_of` (fold_left pullField fields st).2.
Proof.
  induction fields as [|kx fields IH]; intros st; [done|].
  cbn [fold_left]. etrans; [apply pullField_extends | apply IH].
Qed.

Lemma set_keys o k v k' :
  k' ∈ (Js.set o k v).*1 <-> k' = k \/ k' ∈ o.*1.
Proof.
  induction o as [|[k0 v0] o IH]; cbn.
  - set_solver.
  - destruct (String.eqb_spec k0 k) as [->|Hne]; cbn; set_solver.
Qed.

Lemma set_same o k v : k ∈ o.*1 -> Js.get o k = v -> Js.set o k v = o.
Proof.
  induction o as [|[k0 v0] o IH]; cbn; [set_solver|].
  destruct (String.eqb_spec k0 k) as [->|Hne].
  - by intros _ ->.
  - intros Hin Hget. f_equal. apply IH; [set_solver | done].
Qed.

Lemma get_spread_notin src :
  forall o k, k ∉ src.*1 -> Js.get (Js.spread o src) k = Js.get o k.
Proof.
  unfold Js.spread.
  induction src as [|[k0 v0] src IH]; intros o k Hk; [done|].
  cbn [fold_left fst snd]. rewrite IH by set_solver.
  apply get_set_ne. set_solver.
Qed.

Lemma get_spread_in src :
  NoDup src.*1 ->
  forall o k v, (k, v) ∈ src -> Js.get (Js.spread o src) k = v.
Proof.
  unfold Js.spread.
  induction src as [|[k0 v0] src IH]; intros Hnd o k v Hin; [set_solver|].
  cbn in Hnd. apply NoDup_cons in Hnd as [Hk0 Hnd].
  cbn [fold_left fst snd].
  apply elem_of_cons in Hin as [[= -> ->]|Hin].
  - pose proof (get_spread_notin src (Js.set o k0 v0) k0 Hk0) as H.
    unfold Js.spread in H. rewrite H. apply get_set_eq.
  - by apply IH.
Qed.

Lemma spread_keys src :
  forall o k, k ∈ (Js.spread o src).*1 <-> k ∈ src.*1 \/ k ∈ o.*1.
Proof.
  unfold Js.spread.
  induction src as [|[k0 v0] src IH]; intros o k; cbn [fold_left fst snd].
  - set_solver.
  - rewrite IH, set_keys. set_solver.
Qed.

Lemma spread_fixed src o :
  (forall k v, (k, v) ∈ src -> k ∈ o.*1 /\ Js.get o k = v) ->
  Js.spread o src = o.
Proof.
  unfold Js.spread. induction src as [|[k0 v0] src IH]; intros H; [done|].
  cbn [fold_left fst snd].
  destruct (H k0 v0) as [Hin Hget]; [set_solver|].
  rewrite (set_same o k0 v0 Hin Hget). apply IH. intros k v Hkv. apply H. set_solver.
Qed.
End SharingFacts.

Section OrderFacts.
Import Update.

Lemma inc_fold_other h incs :
  forall o k, k ∉ incs.*1 -> Js.get (fold_left (incField h) incs o) k = Js.get o k.
Proof.
  induction incs as [|[k0 n0] incs IH]; intros o k Hk; [done|].
  cbn [fold_left]. rewrite IH by set_solver.
  unfold incField. cbn [fst snd]. apply get_set_ne. set_solver.
Qed.

Lemma inc_fold_bound h incs :
  NoDup incs.*1 ->
  forall o k n,
    (k, n) ∈ incs ->
    Js.get (fold_left (incField h) incs o) k = Js.orZeroPlus h (Js.get o k) n.
Proof.
  induction incs as [|[k0 n0] incs IH]; intros Hnd o k n Hin; [set_solver|].
  cbn in Hnd. apply NoDup_cons in Hnd as [Hk0 Hnd]. cbn [fold_left].
  apply elem_of_cons in Hin as [[= -> ->]|Hin].
  - rewrite inc_fold_other by done. unfold incField. cbn [fst snd]. apply get_set_eq.
  - rewrite (IH Hnd _ k n Hin). unfold incField. cbn [fst snd].
    rewrite get_set_ne; [done|]. intros ->. apply Hk0.
    apply list_elem_of_fmap. by exists (k, n).
Qed.

Lemma orZeroPlus_scalar h h' v n : Js.elements h' (Js.orZeroPlus h v n) = None.
Proof. destruct v as [| |[]| |s|]; cbn; try done. by destruct (String.eqb s ""). Qed.

Lemma push_fold_other fields :
  forall st k, k ∉ fields.*1 -> Js.get (fold_left pushField fields st).1 k = Js.get st.1 k.
Proof.
  induction fields as [|[k0 x0] fields IH]; intros [o h] k Hk; [done|].
  cbn [fold_left]. rewrite IH by set_solver.
  destruct (pushField_spec o h k0 x0) as (o' & h' & -> & _ & Hother).
  cbn [fst]. apply Hother. set_solver.
Qed.

Lemma pullField_other st k0 y k :
  k0 <> k -> Js.get (pullField st (k0, y)).1 k = Js.get st.1 k.
Proof.
  intros Hne. destruct st as [o h]. unfold pullField. cbn [fst snd].
  destruct (Js.elements h (Js.get o k0)); cbn; [by apply get_set_ne|done].
Qed.

Lemma pull_fold_other fields :
  forall st k, k ∉ fields.*1 -> Js.get (fold_left pullField fields st).1 k = Js.get st.1 k.
Proof.
  induction fields as [|[k0 y0] fields IH]; intros st k Hk; [done|].
  cbn [fold_left]. rewrite IH by set_solver. apply pullField_other. set_solver.
Qed.

Lemma elements_prefix (h h' : heap) v xs :
  h `prefix_of` h' -> Js.elements h v = Some xs -> Js.elements h' v = Some xs.
Proof.
  intros [added ->]. unfold Js.elements. destruct v as [| | | | |l]; try done.
  destruct (h !! l) as [c|] eqn:Hl; [|done].
  by rewrite (lookup_app_l_Some _ _ _ _ Hl).
Qed.

(** After a removal the field holds a new array: the elements it held
    that are not the operand. *)
Lemma pullField_spec o h k y xs :
  Js.elements h (Js.get o k) = Some xs ->
  exists o' h',
    pullField (o, h) (k, y) = (o', h')
    /\ Js.elements h' (Js.get o' k) = Some (filter (fun v => v <> y) xs).
Proof.
  intros Hel. unfold pullField. cbn [fst snd]. rewrite Hel. cbn.
  eexists _, _. split; [reflexivity|].
  rewrite get_set_eq. unfold Js.elements.
  by rewrite lookup_app_r, Nat.sub_diag by done.
Qed.
End OrderFacts.



(** C2: the document [{id: 1, tags: ["a"]}] is given to
    [applyUpdateOperators] with [{$push: {tags: "b"}}]. The new document
    shares the array of the input document, and the append changes that
    array: read before the call the input document is
    [{id: 1, tags: ["a"]}], read after it it is [{id: 1, tags: ["a", "b"]}]. *)
Theorem append_changes_input_document :
  let doc : object := [("id", JNum 1); ("tags", JRef 0)] in
  let h : heap := [CArr [JStr "a"]] in
  let '(updated, h') := Update.applyUpdateOperators doc [PushOp [("tags", JStr "b")]] h in
  Js.snapshotObject h doc = Some [("id", VNum 1); ("tags", VArr [VStr "a"])]
  /\ Js.snapshotObject h' doc = Some [("id", VNum 1); ("tags", VArr [VStr "a"; VStr "b"])]
  /\ Js.get updated "tags" = Js.get doc "tags".
Proof. repeat split; reflexivity. Qed.

(** C6, as amended: when the incremented field of the starting document is
    absent or holds a number, neither field has a name that every object
    inherits, and the numbers and their sums are integers that doubles
    hold exactly, applying twice in sequence a specification that
    increments that field and appends to another field gives a document
    whose incremented field is the starting number (0 if absent) plus
    twice the operand, and whose appended field holds the elements it
    held at the start (none if it held no sequence) followed by the
    operand twice; the second application changes the result of the
    first, so update application is not idempotent. *)
Theorem increment_and_append_twice
    (doc : object) (h : heap) (u : UpdateFilter)
    (k1 k2 : string) (n s : Z) (x : jsval) :
  update_set u = None ->
  update_inc u = Some [(k1, n)] ->
  update_push u = Some [(k2, x)] ->
  update_pull u = None ->
  k1 <> k2 ->
  Spec.startNumber (Js.get doc k1) = Some s ->
  inheritedName k1 = false ->
  inheritedName k2 = false ->
  safeInteger s = true ->
  safeInteger n = true ->
  safeInteger (s + n) = true ->
  safeInteger (s + 2 * n) = true ->
  let once := Update.applyUpdateOperators doc u h in
  let twice := Update.applyUpdateOperators once.1 u once.2 in
  Js.get twice.1 k1 = JNum (s + 2 * n)
  /\ Js.elements twice.2 (Js.get twice.1 k2)
     = Some (default [] (Js.elements h (Js.get doc k2)) ++ [x; x])
  /\ Js.elements once.2 (Js.get once.1 k2)
     = Some (default [] (Js.elements h (Js.get doc k2)) ++ [x])
  /\ twice <> once.
Proof.
  intros Hset Hinc Hpush Hpull Hne Hstart _ _ _ _ _ _ once twice.
  assert (Hrun : forall d g,
             Update.applyUpdateOperators d u g
             = Update.pushField
                 (Js.set d k1 (Js.orZeroPlus g (Js.get d k1) n), g) (k2, x)).
  { intros d g. unfold Update.applyUpdateOperators.
    by rewrite Hset, Hinc, Hpush, Hpull. }
  assert (Hstart1 : Js.orZeroPlus h (Js.get doc k1) n = JNum (s + n)).
  { destruct (Js.get doc k1); try done; cbn in *; congruence. }
  subst twice once. rewrite (Hrun doc h), Hstart1.
  destruct (pushField_spec (Js.set doc k1 (JNum (s + n))) h k2 x)
    as (d1 & h1 & -> & Hel1 & Hother1).
  cbn [fst snd]. rewrite (Hrun d1 h1).
  rewrite (get_set_ne _ _ _ _ Hne) in Hel1.
  assert (Hk1 : Js.get d1 k1 = JNum (s + n)).
  { rewrite Hother1 by congruence. apply get_set_eq. }
  rewrite Hk1. cbn [Js.orZeroPlus].
  destruct (pushField_spec (Js.set d1 k1 (JNum (s + n + n))) h1 k2 x)
    as (d2 & h2 & Heq2 & Hel2 & Hother2).
  rewrite Heq2. cbn [fst snd].
  rewrite (get_set_ne _ _ _ _ Hne), Hel1 in Hel2.
  change (Js.elements h2 (Js.get d2 k2)
          = Some ((default [] (Js.elements h (Js.get doc k2)) ++ [x]) ++ [x])) in Hel2.
  assert (Hk2 : Js.get d2 k1 = JNum (s + 2 * n)).
  { rewrite Hother2 by congruence. rewrite get_set_eq. f_equal. lia. }
  repeat split; try done.
  - by rewrite Hel2, <- app_assoc.
  - intros [= -> ->]. rewrite Hel1 in Hel2.
    apply (f_equal (fmap length)) in Hel2. cbn in Hel2.
    rewrite !length_app in Hel2. cbn in Hel2. injection Hel2. lia.
Qed.

Lemma increment_and_append_twice_witness :
  update_set [IncOp [("visits", 2)]; PushOp [("tags", JStr "b")]] = None
  /\ update_inc [IncOp [("visits", 2)]; PushOp [("tags", JStr "b")]]
     = Some [("visits"%string, 2)]
  /\ update_push [IncOp [("visits", 2)]; PushOp [("tags", JStr "b")]]
     = Some [("tags"%string, JStr "b")]
  /\ update_pull [IncOp [("visits", 2)]; PushOp [("tags", JStr "b")]] = None
  /\ "visits"%string <> "tags"%string
  /\ Spec.startNumber (Js.get [("visits", JNum 5); ("tags", JRef 0)] "visits") = Some 5
  /\ inheritedName "visits" = false
  /\ inheritedName "tags" = false
  /\ safeInteger 5 = true
  /\ safeInteger 2 = true
  /\ safeInteger (5 + 2) = true
  /\ safeInteger (5 + 2 * 2) = true
  /\ (let once :=
        Update.applyUpdateOperators [("visits", JNum 5); ("tags", JRef 0)]
          [IncOp [("visits", 2)]; PushOp [("tags", JStr "b")]] [CArr [JStr "a"]] in
      let twice :=
        Update.applyUpdateOperators once.1
          [IncOp [("visits", 2)]; PushOp [("tags", JStr "b")]] once.2 in
      Js.get twice.1 "visits" = JNum (5 + 2 * 2)
      /\ Js.elements twice.2 (Js.get twice.1 "tags")
         = Some (default [] (Js.elements [CArr [JStr "a"]]
                               (Js.get [("visits", JNum 5); ("tags", JRef 0)] "tags"))
                 ++ [JStr "b"; JStr "b"])
      /\ Js.elements once.2 (Js.get once.1 "tags")
         = Some (default [] (Js.elements [CArr [JStr "a"]]
                               (Js.get [("visits", JNum 5); ("tags", JRef 0)] "tags"))
                 ++ [JStr "b"])
      /\ twice <> once).
Proof.
  do 4 (split; [reflexivity|]). split; [discriminate|]. do 7 (split; [reflexivity|]).
  apply (increment_and_append_twice [("visits", JNum 5); ("tags", JRef 0)]
           [CArr [JStr "a"]] [IncOp [("visits", 2)]; PushOp [("tags", JStr "b")]]
           "visits" "tags" 2 5 (JStr "b"));
    first [reflexivity | discriminate].
Defined.

(** C6 as the specification states it fails on a starting document whose
    incremented field holds a string: the increment concatenates, so two
    applications of [{$inc: {n: 1}, $push: {tags: "t"}}] to [{n: "x"}]
    leave ["x11"] in the field, which is not the starting value plus
    twice the operand (["x" + 2] is ["x2"]) and not a number. *)
Lemma increment_on_string_concatenates :
  let doc : object := [("n", JStr "x")] in
  let u : UpdateFilter := [IncOp [("n", 1)]; PushOp [("tags", JStr "t")]] in
  let once := Update.applyUpdateOperators doc u [] in
  let twice := Update.applyUpdateOperators once.1 u once.2 in
  Js.get twice.1 "n" = JStr "x11"
  /\ Js.orZeroPlus [] (Js.get doc "n") (2 * 1) = JStr "x2"
  /\ Js.get twice.1 "n" <> Js.orZeroPlus [] (Js.get doc "n") (2 * 1).
Proof. repeat split; try reflexivity. discriminate. Qed.

(** ** The verbs *)

Lemma string_app_cons (c : ascii) (s1 s2 : string) :
  String c s1 +:+ s2 = String c (s1 +:+ s2).
Proof. reflexivity. Qed.

Lemma string_app_assoc (s1 s2 s3 : string) : (s1 +:+ s2) +:+ s3 = s1 +:+ (s2 +:+ s3).
Proof. induction s1 as [|c s1 IH]; [done|]. by rewrite !string_app_cons, IH. Qed.

Lemma string_app_nil_r (s : string) : s +:+ "" = s.
Proof. induction s as [|c s IH]; [done|]. by rewrite string_app_cons, IH. Qed.

Section CrudFacts.
Context {W Ses E : Type} (driver : BaseDriver W Ses E).
Variable JSON_parse : value -> option Document.
Variable JSON_stringify : value -> string.

Lemma findSql_no_clause collection options :
  Crud.findSql collection "" options
  = "SELECT data FROM `" +:+ collection +:+ "`" +:+ Run.optionsSql options.
Proof.
  unfold Crud.findSql, Run.optionsSql. cbn [String.eqb].
  destruct (sort options) as [s|]; [destruct (Crud.sortFields s)|];
    destruct (Crud.given (limit options)), (Crud.given (skip options));
    rewrite ?string_app_assoc, ?string_app_nil_r; cbn [String.append];
    rewrite ?string_app_assoc, ?string_app_nil_r; reflexivity.
Qed.

(** A verb that starts with the table check, on a state where the
    check answers [present]. *)
Lemma tableExists_run collection (w : world W Ses) present d :
  tableExists collection (driverState w) = (Ok present, d) ->
  Crud.driver_tableExists driver collection w
  = (Ok present, World d (jsHeap w) (calls w ++ [TableExists collection])).
Proof. intros H. unfold Crud.driver_tableExists, invoke. by rewrite H. Qed.
End CrudFacts.

(** C10: when the table of the collection does not exist, find returns
    the empty list, countDocuments returns 0, updateMany reports no
    matched and no modified document and deleteMany no deleted document;
    each returns normally and the table check is the only driver call it
    makes. *)
Theorem missing_table_short_circuits
    {W Ses E : Type} (driver : BaseDriver W Ses E)
    (JSON_parse : value -> option Document) (JSON_stringify : value -> string)
    (collection : string) (filter : Document) (options : FindOptions)
    (update : UpdateFilter) (updateLimit deleteLimit : option Z)
    (w : world W Ses) (d : W) :
  tableExists collection (driverState w) = (Ok false, d) ->
  let w' := World d (jsHeap w) (calls w ++ [TableExists collection]) in
  Crud.find driver JSON_parse collection filter options w = (Ok [], w')
  /\ Crud.countDocuments driver collection filter w = (Ok (VNum 0), w')
  /\ Crud.updateMany driver JSON_parse JSON_stringify collection filter update
       updateLimit w
     = (Ok {| acknowledged := true; matchedCount := 0; modifiedCount := 0 |}, w')
  /\ Crud.deleteMany driver JSON_parse collection filter deleteLimit w
     = (Ok {| deleteAcknowledged := true; deletedCount := 0 |}, w').
Proof.
  intros Hmissing w'.
  pose proof (tableExists_run driver collection w false d Hmissing) as Hrun.
  unfold Crud.find, Crud.countDocuments, Crud.updateMany, Crud.deleteMany, bind.
  rewrite Hrun. cbn. done.
Qed.

Lemma missing_table_short_circuits_witness :
  tableExists (BaseDriver := Run.scripted) "users"
    (driverState (Run.start ["orders"%string] []))
  = (Ok false, Run.Script ["orders"%string] [])
  /\ (let w' := World (Run.Script ["orders"%string] [])
                  (jsHeap (Run.start ["orders"%string] []))
                  (calls (Run.start ["orders"%string] []) ++ [TableExists "users"]) in
      Crud.find Run.scripted Run.parsed "users" [("age", VNum 3)] noOptions
        (Run.start ["orders"%string] [])
      = (Ok [], w')
      /\ Crud.countDocuments Run.scripted "users" [("age", VNum 3)]
           (Run.start ["orders"%string] [])
         = (Ok (VNum 0), w')
      /\ Crud.updateMany Run.scripted Run.parsed (fun _ => ""%string) "users"
           [("age", VNum 3)] [IncOp [("age", 1)]] None
           (Run.start ["orders"%string] [])
         = (Ok {| acknowledged := true; matchedCount := 0; modifiedCount := 0 |}, w')
      /\ Crud.deleteMany Run.scripted Run.parsed "users" [("age", VNum 3)] (Some 1)
           (Run.start ["orders"%string] [])
         = (Ok {| deleteAcknowledged := true; deletedCount := 0 |}, w')).
Proof.
  split; [reflexivity|].
  apply (missing_table_short_circuits Run.scripted Run.parsed (fun _ => ""%string)
           "users" [("age", VNum 3)] noOptions [IncOp [("age", 1)]] None (Some 1)
           (Run.start ["orders"%string] [])).
  reflexivity.
Defined.

Section FindFacts.
Context {W Ses E : Type} (driver : BaseDriver W Ses E).
Variable JSON_parse : value -> option Document.

Lemma parseRows_decoded rows docs (w : world W Ses) :
  mapM (fun r => JSON_parse (prop r "data")) rows = Some docs ->
  Crud.parseRows (E := E) JSON_parse rows w = (Ok docs, w).
Proof.
  revert docs. induction rows as [|r rows IH]; intros docs Hdocs.
  - by injection Hdocs as <-.
  - cbn in Hdocs. cbn [Crud.parseRows].
    destruct (JSON_parse (prop r "data")) as [doc|]; [|done].
    cbn in Hdocs. destruct (mapM _ rows) as [docs'|]; [|done].
    injection Hdocs as <-. unfold bind. by rewrite (IH docs' eq_refl).
Qed.

Lemma findWithCursor_inv collection filter options (w w' : world W Ses) page :
  Crud.findWithCursor driver JSON_parse collection filter options w = (Ok page, w') ->
  exists w1,
    Crud.find driver JSON_parse collection (Crud.cursorFilter filter options)
      (Crud.pageOptions options) w = (Ok (data page), w1)
    /\ nextCursor page
       = if Z.of_nat (length (data page)) =? default 10 (limit options)
         then Crud.lastField (data page) (default "id"%string (cursorField options))
         else VUndef.
Proof.
  unfold Crud.findWithCursor, bind at 1.
  destruct (Crud.find _ _ _ _ _ w) as [[docs|e] w1]; [|done].
  intros Hrun. exists w1. split; f_equal.
  all: unfold bind in Hrun;
    destruct (default false (count options));
    [destruct (Crud.countDocuments _ _ _ w1) as [[c|e] w2]; [|done]|];
    cbn in Hrun; by injection Hrun as <- _.
Qed.
End FindFacts.

(** C9: a filter with no entries compiles to the empty clause and the
    empty parameter list, and find on it, once the table is known to
    exist, sends the statement without a WHERE clause (the plain SELECT
    followed only by what the options add) with no parameters, and
    returns every row the driver answers it with, decoded. *)
Theorem empty_filter_selects_every_row
    {W Ses E : Type} (driver : BaseDriver W Ses E)
    (JSON_parse : value -> option Document)
    (collection : string) (options : FindOptions)
    (w : world W Ses) (d d' : W) (rows docs : list Document) :
  let sql := "SELECT data FROM `" +:+ collection +:+ "`" +:+ Run.optionsSql options in
  tableExists collection (driverState w) = (Ok true, d) ->
  query sql [] d = (Ok rows, d') ->
  mapM (fun r => JSON_parse (prop r "data")) rows = Some docs ->
  Helpers.buildWhereClause (VObj []) getDialect = Return (""%string, [])
  /\ Run.optionsSql noOptions = ""%string
  /\ Crud.find driver JSON_parse collection [] options w
     = (Ok docs,
        World d' (jsHeap w) (calls w ++ [TableExists collection; Query sql []])).
Proof.
  intros sql Hpresent Hquery Hdocs.
  split; [reflexivity|]. split; [reflexivity|].
  unfold Crud.find, bind.
  rewrite (tableExists_run driver collection w true d Hpresent).
  cbn [negb Helpers.buildWhereClause Helpers.filterEntries ofOutcome ret fst snd].
  change (String.concat " AND " []) with ""%string.
  rewrite findSql_no_clause. fold sql.
  unfold Crud.driver_query, invoke. cbn [driverState jsHeap calls].
  rewrite Hquery.
  rewrite (parseRows_decoded JSON_parse rows docs _ Hdocs).
  by rewrite <- app_assoc.
Qed.

Lemma empty_filter_selects_every_row_witness :
  tableExists (BaseDriver := Run.scripted) "users"
    (driverState
       (Run.start ["users"%string]
          [[[("data", VObj [("id", VNum 1)])]; [("data", VObj [("id", VNum 2)])]]]))
  = (Ok true,
     Run.Script ["users"%string]
       [[[("data", VObj [("id", VNum 1)])]; [("data", VObj [("id", VNum 2)])]]])
  /\ query (BaseDriver := Run.scripted)
       ("SELECT data FROM `" +:+ "users" +:+ "`" +:+ Run.optionsSql noOptions) []
       (Run.Script ["users"%string]
          [[[("data", VObj [("id", VNum 1)])]; [("data", VObj [("id", VNum 2)])]]])
     = (Ok [[("data", VObj [("id", VNum 1)])]; [("data", VObj [("id", VNum 2)])]],
        Run.Script ["users"%string] [])
  /\ mapM (fun r => Run.parsed (prop r "data"))
       [[("data", VObj [("id", VNum 1)])]; [("data", VObj [("id", VNum 2)])]]
     = Some [[("id", VNum 1)]; [("id", VNum 2)]]
  /\ Crud.find Run.scripted Run.parsed "users" [] noOptions
       (Run.start ["users"%string]
          [[[("data", VObj [("id", VNum 1)])]; [("data", VObj [("id", VNum 2)])]]])
     = (Ok [[("id", VNum 1)]; [("id", VNum 2)]],
        World (Run.Script ["users"%string] []) []
          [TableExists "users"; Query "SELECT data FROM `users`" []]).
Proof.
  split; [reflexivity|]. split; [reflexivity|]. split; [reflexivity|].
  apply (empty_filter_selects_every_row Run.scripted Run.parsed "users" noOptions
           (Run.start ["users"%string]
              [[[("data", VObj [("id", VNum 1)])]; [("data", VObj [("id", VNum 2)])]]])
           (Run.Script ["users"%string]
              [[[("data", VObj [("id", VNum 1)])]; [("data", VObj [("id", VNum 2)])]]])
           (Run.Script ["users"%string] [])
           [[("data", VObj [("id", VNum 1)])]; [("data", VObj [("id", VNum 2)])]]
           [[("id", VNum 1)]; [("id", VNum 2)]]);
    reflexivity.
Defined.



(** ** The transaction wrapper *)

(** Running the awaited driver calls whose answers are known. *)
Ltac run_calls :=
  repeat (cbn [fst snd driverState jsHeap calls];
          match goal with
          | H : ?call = (_, _) |- context [?call] => rewrite H
          end);
  cbn [fst snd driverState jsHeap calls].

(** C3, as amended: once a session is started, if the caller's work
    raises, the wrapper calls rollback and then release on that session
    and nothing else, whatever the two answer, and what it raises is the
    failure of the last of the two that failed, and the failure of the
    work, unchanged, when both succeeded; and whatever the work, commit,
    rollback and release do, the wrapper releases the session exactly
    once. *)
Theorem transaction_rolls_back_then_releases
    {W Ses E T : Type} (driver : BaseDriver W Ses E)
    (fn : Ses -> W -> result (exn E) T * W)
    (w : world W Ses) (session : Ses) (d1 : W) :
  startSession (driverState w) = (Ok session, d1) ->
  let run := Transaction.withTransaction driver fn w in
  (forall e d2,
      fn session d1 = (Err e, d2) ->
      calls run.2 = calls w ++ [StartSession; Rollback session; Release session]
      /\ driverState run.2 = (release session (rollback session d2).2).2
      /\ run.1 = Err (lastFailure e [(rollback session d2).1;
                                     (release session (rollback session d2).2).1])
      /\ (forall d3 d4,
             rollback session d2 = (Ok tt, d3) ->
             release session d3 = (Ok tt, d4) ->
             run = (Err e, World d4 (jsHeap w)
                             (calls w ++ [StartSession; Rollback session;
                                          Release session]))))
  /\ (exists made, calls run.2 = calls w ++ made /\ Run.released made = [session]).
Proof.
  intros Hstart run. subst run.
  unfold Transaction.withTransaction, tryFinally, tryCatch, bind, callback, invoke,
    ret, throw.
  split.
  - intros e d2 Hfn.
    destruct (rollback session d2) as [rb d3] eqn:Hrb.
    destruct (release session d3) as [rel d4] eqn:Hrel.
    run_calls. destruct rb as [[]|e2], rel as [[]|e3]; run_calls;
      rewrite <- ?app_assoc; cbn [app];
      (split; [done|]); (split; [done|]); (split; [done|]);
      intros d3' d4' Hrb' Hrel'; congruence.
  - destruct (fn session d1) as [[r|e] d2] eqn:Hfn.
    + destruct (commit session d2) as [[[]|e2] d3] eqn:Hcommit.
      * destruct (release session d3) as [[[]|e3] d4] eqn:Hrel;
          run_calls; rewrite <- ?app_assoc; cbn [app]; by eexists.
      * destruct (rollback session d3) as [[[]|e3] d4] eqn:Hrb;
          destruct (release session d4) as [[[]|e4] d5] eqn:Hrel;
          run_calls; rewrite <- ?app_assoc; cbn [app]; by eexists.
    + destruct (rollback session d2) as [[[]|e3] d3] eqn:Hrb;
        destruct (release session d3) as [[[]|e4] d4] eqn:Hrel;
        run_calls; rewrite <- ?app_assoc; cbn [app]; by eexists.
Qed.

Lemma transaction_rolls_back_then_releases_witness :
  let fn : nat -> Run.script -> result (exn string) unit * Run.script :=
    fun _ db => (Err (Raised "constraint"%string), Run.Script ("written"%string :: Run.tables db) []) in
  startSession (BaseDriver := Run.scripted) (driverState (Run.start [] []))
  = (Ok 7%nat, Run.Script [] [])
  /\ fn 7%nat (Run.Script [] [])
     = (Err (Raised "constraint"%string), Run.Script ["written"%string] [])
  /\ Transaction.withTransaction Run.scripted fn (Run.start [] [])
     = (Err (Raised "constraint"%string),
        World (Run.Script ["written"%string] []) []
          [StartSession; Rollback 7%nat; Release 7%nat]).
Proof.
  intros fn.
  split; [reflexivity|]. split; [reflexivity|].
  destruct (transaction_rolls_back_then_releases Run.scripted fn (Run.start [] [])
              7%nat (Run.Script [] []) eq_refl) as [Hfail _].
  destruct (Hfail (Raised "constraint"%string) (Run.Script ["written"%string] []) eq_refl)
    as (_ & _ & _ & Hrun).
  exact (Hrun (Run.Script ["written"%string] []) (Run.Script ["written"%string] [])
           eq_refl eq_refl).
Defined.

(** C3 as the specification states it fails when the rollback fails:
    the work raises ["constraint"], the driver's rollback raises
    ["rollback failed"], and the wrapper, after releasing the session,
    raises the failure of the rollback; the failure of the work is
    lost. *)
Lemma rollback_failure_replaces_work_failure :
  let fn : nat -> unit -> result (exn string) unit * unit :=
    fun _ db => (Err (Raised "constraint"%string), db) in
  let run := Transaction.withTransaction Faulty.rollbackFails fn Faulty.start in
  fn 7%nat tt = (Err (Raised "constraint"%string), tt)
  /\ run = (Err (Raised "rollback failed"%string),
            World tt [] [StartSession; Rollback 7%nat; Release 7%nat])
  /\ run.1 <> Err (Raised "constraint"%string).
Proof. repeat split; try reflexivity. discriminate. Qed.

(** ** The unwind stage *)

Section UnwindFacts.
Import Aggregate.

Lemma pushEach_app doc path vals unwound :
  pushEach doc path vals unwound
  = unwound ++ map (fun val => setProp doc path val) vals.
Proof.
  unfold pushEach. revert unwound.
  induction vals as [|val vals IH]; intros unwound; cbn.
  - by rewrite app_nil_r.
  - by rewrite IH, <- app_assoc.
Qed.

Lemma unwindDocs_app path result unwound :
  unwindDocs path result unwound = unwound ++ Spec.unwind path result.
Proof.
  revert unwound. induction result as [|doc result IH]; intros unwound.
  - cbn. by rewrite app_nil_r.
  - cbn [unwindDocs Spec.unwind flat_map]. unfold Spec.unwound at 1.
    destruct (prop doc path);
      rewrite IH, ?pushEach_app, <- ?app_assoc; reflexivity.
Qed.

Lemma prop_setProp_eq doc k v : prop (setProp doc k v) k = v.
Proof.
  induction doc as [|[k' v'] doc IH]; cbn.
  - by rewrite String.eqb_refl.
  - destruct (String.eqb_spec k' k) as [->|Hne]; cbn.
    + by rewrite String.eqb_refl.
    + apply String.eqb_neq in Hne. by rewrite Hne.
Qed.

Lemma prop_setProp_ne doc k k' v : k <> k' -> prop (setProp doc k v) k' = prop doc k'.
Proof.
  intros Hne. induction doc as [|[k0 v0] doc IH]; cbn.
  - apply String.eqb_neq in Hne. by rewrite Hne.
  - destruct (String.eqb_spec k0 k) as [->|Hne0]; cbn.
    + apply String.eqb_neq in Hne. by rewrite Hne.
    + by rewrite IH.
Qed.
End UnwindFacts.

(** C7: an unwind stage on a field path turns the decoded result
    sequence into the flat-map of its documents: a document whose value
    at the path is a sequence gives one document per element, in element
    order, equal to it except that the field holds that element; any
    other document (field absent or not a sequence) is passed through
    unchanged. *)
Theorem unwind_is_flat_map
    (stage : Document) (s : string) (result : list Document) :
  prop stage "$unwind" = VStr s ->
  s <> ""%string ->
  let path := Aggregate.stripDollar s in
  Aggregate.unwindStages [stage] result = Return (flat_map (Spec.unwound path) result)
  /\ (forall doc vals,
         prop doc path = VArr vals ->
         Spec.unwound path doc = map (fun val => setProp doc path val) vals
         /\ forall val,
              prop (setProp doc path val) path = val
              /\ forall k, path <> k -> prop (setProp doc path val) k = prop doc k)
  /\ (forall doc, isArray (prop doc path) = false -> Spec.unwound path doc = [doc]).
Proof.
  intros Hstage Hs path. repeat split.
  - cbn [Aggregate.unwindStages]. unfold Aggregate.unwindPath.
    rewrite Hstage. cbn [truthy].
    apply String.eqb_neq in Hs. rewrite Hs. cbn [negb].
    fold path. by rewrite unwindDocs_app.
  - unfold Spec.unwound. by rewrite H.
  - apply prop_setProp_eq.
  - intros k Hk. by apply prop_setProp_ne.
  - intros doc Hdoc. unfold Spec.unwound. by destruct (prop doc path).
Qed.

Lemma unwind_is_flat_map_witness :
  prop [("$unwind", VStr "$roles")] "$unwind" = VStr "$roles"
  /\ "$roles"%string <> ""%string
  /\ Aggregate.unwindStages [[("$unwind", VStr "$roles")]]
       [[("id", VNum 1); ("roles", VArr [VStr "a"; VStr "b"])];
        [("id", VNum 2)];
        [("id", VNum 3); ("roles", VStr "x")]]
     = Return [[("id", VNum 1); ("roles", VStr "a")];
               [("id", VNum 1); ("roles", VStr "b")];
               [("id", VNum 2)];
               [("id", VNum 3); ("roles", VStr "x")]].
Proof.
  split; [reflexivity|]. split; [discriminate|].
  destruct (unwind_is_flat_map [("$unwind", VStr "$roles")] "$roles"
              [[("id", VNum 1); ("roles", VArr [VStr "a"; VStr "b"])];
               [("id", VNum 2)];
               [("id", VNum 3); ("roles", VStr "x")]]
              eq_refl ltac:(discriminate)) as [-> _].
  reflexivity.
Defined.

(** * Further properties of the code *)

(** ** The Predicate Compiler: parameters and placeholders *)

Section PlaceholderCount.
Import Helpers.
Variable dialect : string.

Lemma count_app (a b : string) :
  Spec.placeholderCount (a +:+ b)
  = (Spec.placeholderCount a + Spec.placeholderCount b)%nat.
Proof.
  induction a as [|c a IH]; [done|].
  rewrite string_app_cons. cbn [Spec.placeholderCount]. rewrite IH. lia.
Qed.

Lemma count_concat (sep : string) (l : list string) :
  Spec.placeholderCount sep = 0%nat ->
  Spec.placeholderCount (String.concat sep l)
  = sum_list_with Spec.placeholderCount l.
Proof.
  intros Hsep. induction l as [|x [|y l] IH]; [done| |].
  - cbn. lia.
  - change (String.concat sep (x :: y :: l))
      with (x +:+ sep +:+ String.concat sep (y :: l)).
    rewrite !count_app, IH, Hsep. cbn. lia.
Qed.

Lemma count_placeholders (xs : list value) :
  Spec.placeholderCount (String.concat ", " (map (fun _ => "?"%string) xs))
  = length xs.
Proof.
  rewrite count_concat by reflexivity.
  induction xs as [|x xs IH]; [done|]. cbn [map sum_list_with]. by rewrite IH.
Qed.

Lemma count_parseKey (key : string) :
  Spec.placeholderCount (parseKey dialect key) = Spec.placeholderCount key.
Proof.
  unfold parseKey. destruct (String.eqb dialect "postgres");
    rewrite !count_app; cbn; lia.
Qed.

Ltac count_up :=
  repeat (progress (rewrite ?length_app, ?sum_list_with_app, ?count_app,
                      ?count_parseKey, ?count_placeholders in *;
                    cbn [sum_list_with length] in * ));
  repeat match goal with
         | H : context [Spec.placeholderCount (String ?c ?s)] |- _ =>
             let n := eval vm_compute in (Spec.placeholderCount (String c s)) in
             change (Spec.placeholderCount (String c s)) with n in H
         | |- context [Spec.placeholderCount (String ?c ?s)] =>
             let n := eval vm_compute in (Spec.placeholderCount (String c s)) in
             change (Spec.placeholderCount (String c s)) with n
         end.

Lemma operators_count key negated ops :
  Spec.placeholderCount key = 0%nat ->
  Forall (fun kv => forall params c ps,
              negated kv.2 params = Return (c, ps) ->
              (Spec.placeholderCount c + length params)%nat = length ps) ops ->
  forall subClauses params c ps,
    operators dialect key negated ops subClauses params = Return (c, ps) ->
    (Spec.placeholderCount c + length params)%nat
    = (sum_list_with Spec.placeholderCount subClauses + length ps)%nat.
Proof.
  intros Hkey. induction 1 as [|[op operand] ops Hop _ IH];
    intros subClauses params c ps.
  - cbn [operators]. intros [= <- <-].
    rewrite count_concat by reflexivity. lia.
  - cbn [operators]. cbn [snd] in Hop.
    repeat case_match; try done; intros Hrun; apply IH in Hrun;
      try (match goal with
           | H : negated _ _ = Return _ |- _ => apply Hop in H
           end);
      try (match goal with
           | H : placeholders ?o = Return _ |- _ =>
               destruct o; try done; injection H as <- <-
           end);
      count_up; lia.
Qed.

Lemma parseCondition_count v :
  forall key params c ps,
    Spec.placeholderCount key = 0%nat ->
    parseCondition dialect key v params = Return (c, ps) ->
    (Spec.placeholderCount c + length params)%nat = length ps.
Proof.
  induction v as [| | | | | |ops IH] using value_ind; intros key params c ps Hkey;
    try (cbn [parseCondition]; intros [= <- <-]; count_up; lia).
  cbn [parseCondition]. intros Hrun.
  apply operators_count in Hrun; [cbn in Hrun; lia | done |].
  eapply Forall_impl; [exact IH|]. cbn. eauto.
Qed.

Lemma filterEntries_count compile props :
  Spec.combinatorFree props = true ->
  Forall (fun kv => Spec.placeholderCount kv.1 = 0%nat) props ->
  forall clauses params c ps,
    filterEntries dialect compile props clauses params = Return (c, ps) ->
    (Spec.placeholderCount c + length params)%nat
    = (sum_list_with Spec.placeholderCount clauses + length ps)%nat.
Proof.
  intros Hfree Hkeys. revert Hfree.
  induction Hkeys as [|[key v] props Hkey _ IH]; intros Hfree clauses params c ps.
  - cbn [filterEntries]. intros [= <- <-].
    rewrite count_concat by reflexivity. lia.
  - cbn [Spec.combinatorFree forallb fst snd] in Hfree, Hkey.
    apply andb_prop in Hfree as [Hentry Hfree]. apply negb_true_iff in Hentry.
    assert (Hfield :
              match fieldEntry dialect key v clauses params with
              | Return (clauses', params') =>
                  filterEntries dialect compile props clauses' params'
              | TypeError => TypeError
              end = Return (c, ps) ->
              (Spec.placeholderCount c + length params)%nat
              = (sum_list_with Spec.placeholderCount clauses + length ps)%nat).
    { unfold fieldEntry.
      destruct (parseCondition dialect key v params) as [[cond params']|] eqn:Hc;
        [|done].
      apply parseCondition_count in Hc; [|done].
      intros Hrun. apply (IH Hfree) in Hrun.
      destruct (String.eqb_spec cond "") as [->|_]; count_up; cbn in *; lia. }
    unfold Spec.combinator in Hentry. cbn [filterEntries].
    destruct v; cbn [isArray typeofObject] in Hentry |- *;
      destruct (String.eqb key "$or"), (String.eqb key "$and"),
        (String.eqb key "$not");
      cbn [andb orb] in Hentry |- *; try discriminate; exact Hfield.
Qed.
End PlaceholderCount.

Section BindingFacts.
Import Helpers.
Variable show : value -> string.
Variable dialect : string.

(** The placeholders of [c] are as many as the values of [ps], and bound
    to them [c] reads [lit]. *)
Let aligned (c : string) (ps : list value) (lit : string) : Prop :=
  Spec.placeholderCount c = length ps /\ Binding.bound show c ps = lit.

Lemma bound_app a :
  forall b p1 p2,
    Spec.placeholderCount a = length p1 ->
    Binding.bound show (a +:+ b) (p1 ++ p2)
    = Binding.bound show a p1 +:+ Binding.bound show b p2.
Proof.
  induction a as [|c a IH]; intros b p1 p2 Hcount.
  - destruct p1; [done|discriminate].
  - rewrite string_app_cons. cbn [Binding.bound Spec.placeholderCount] in *.
    destruct (Ascii.eqb c "?").
    + destruct p1 as [|p p1]; [discriminate|]. cbn [app].
      rewrite IH by (cbn in Hcount; lia). by rewrite string_app_assoc.
    + rewrite string_app_cons. f_equal. apply IH. cbn in Hcount. lia.
Qed.

Lemma aligned_text t : Spec.placeholderCount t = 0%nat -> aligned t [] t.
Proof.
  intros Ht. split; [done|].
  induction t as [|c t IH]; [done|]. cbn [Binding.bound Spec.placeholderCount] in *.
  destruct (Ascii.eqb c "?"); [discriminate|]. f_equal. apply IH. lia.
Qed.

Lemma aligned_hole v : aligned "?" [v] (show v).
Proof. split; [done|]. cbn. apply string_app_nil_r. Qed.

Lemma aligned_app a p la b q lb :
  aligned a p la -> aligned b q lb -> aligned (a +:+ b) (p ++ q) (la +:+ lb).
Proof.
  intros [Ha <-] [Hb <-]. split.
  - rewrite count_app, length_app. lia.
  - by apply bound_app.
Qed.

Lemma aligned_concat sep (tr : list (string * list value * string)) :
  Spec.placeholderCount sep = 0%nat ->
  Forall (fun t => aligned t.1.1 t.1.2 t.2) tr ->
  aligned (String.concat sep (map (fun t => t.1.1) tr))
          (concat (map (fun t => t.1.2) tr))
          (String.concat sep (map (fun t => t.2) tr)).
Proof.
  intros Hsep. induction tr as [|t [|t' tr] IH]; intros Htr.
  - by apply aligned_text.
  - apply Forall_cons in Htr as [Ht _]. cbn. by rewrite app_nil_r.
  - apply Forall_cons in Htr as [Ht Htr]. specialize (IH Htr).
    change (aligned (t.1.1 +:+ sep +:+ String.concat sep (map (fun t => t.1.1) (t' :: tr)))
                    (t.1.2 ++ [] ++ concat (map (fun t => t.1.2) (t' :: tr)))
                    (t.2 +:+ sep +:+ String.concat sep (map (fun t => t.2) (t' :: tr)))).
    apply aligned_app; [done|]. apply aligned_app; [by apply aligned_text|done].
Qed.

Lemma aligned_placeholders xs :
  aligned (String.concat ", " (map (fun _ => "?"%string) xs)) xs
          (String.concat ", " (map show xs)).
Proof.
  pose proof (aligned_concat ", " (map (fun x => ("?"%string, [x], show x)) xs) eq_refl)
    as H.
  rewrite !map_map in H. cbn [fst snd] in H.
  replace (concat (map (fun x => [x]) xs)) with xs in H.
  - apply H. clear H. induction xs as [|x xs IH]; constructor; [apply aligned_hole|done].
  - clear H. induction xs as [|x xs IH]; [done|]. cbn. by f_equal.
Qed.

Lemma parseKey_text key :
  Spec.placeholderCount key = 0%nat ->
  aligned (parseKey dialect key) [] (parseKey dialect key).
Proof. intros Hkey. apply aligned_text. by rewrite count_parseKey. Qed.

Lemma parseKey_starts key : exists c s, parseKey dialect key = String c s.
Proof. unfold parseKey. destruct (String.eqb dialect "postgres"); by eexists _, _. Qed.

Lemma starts_app c s t : String c s +:+ t <> ""%string.
Proof. by rewrite string_app_cons. Qed.

Lemma concat_nonempty sep (l : list string) :
  Forall (fun s => s <> ""%string) l -> String.concat sep l = ""%string -> l = [].
Proof.
  destruct l as [|x [|y l]]; [done| |]; intros Hl; apply Forall_cons in Hl as [Hx _].
  - cbn. done.
  - cbn. destruct x; [done|]. by rewrite string_app_cons.
Qed.

(** What a compiled sub-clause is made of: its text, the parameters it
    adds, and what it reads with them bound. *)
Let good (t : string * list value * string) : Prop :=
  aligned t.1.1 t.1.2 t.2 /\ t.1.1 <> ""%string /\ t.2 <> ""%string.

Lemma good_comparison key sym v :
  Spec.placeholderCount key = 0%nat ->
  Spec.placeholderCount sym = 0%nat ->
  good (parseKey dialect key +:+ (sym +:+ "?"), [v],
        parseKey dialect key +:+ sym +:+ show v).
Proof.
  intros Hkey Hsym. destruct (parseKey_starts key) as (c & s & Hs).
  split; [|split]; cbn [fst snd].
  - apply (aligned_app _ [] _ _ [v]); [by apply parseKey_text|].
    apply (aligned_app _ [] _ _ [v]); [by apply aligned_text|apply aligned_hole].
  - rewrite Hs. apply starts_app.
  - rewrite Hs. apply starts_app.
Qed.

Lemma good_membership key word xs :
  Spec.placeholderCount key = 0%nat ->
  Spec.placeholderCount word = 0%nat ->
  good (parseKey dialect key +:+ word
        +:+ String.concat ", " (map (fun _ => "?"%string) xs) +:+ ")", xs,
        parseKey dialect key +:+ word +:+ String.concat ", " (map show xs) +:+ ")").
Proof.
  intros Hkey Hword. destruct (parseKey_starts key) as (c & s & Hs).
  split; [|split]; cbn [fst snd].
  - apply (aligned_app _ [] _ _ xs); [by apply parseKey_text|].
    apply (aligned_app _ [] _ _ xs); [by apply aligned_text|].
    rewrite <- (app_nil_r xs) at 2.
    apply aligned_app; [apply aligned_placeholders|by apply aligned_text].
  - rewrite Hs. apply starts_app.
  - rewrite Hs. apply starts_app.
Qed.

Lemma good_negation c news lit :
  aligned c news lit -> good ("NOT (" +:+ c +:+ ")", news, "NOT (" +:+ lit +:+ ")").
Proof.
  intros Hc. split; [|split]; cbn [fst snd]; [|done..].
  apply (aligned_app _ [] _ _ news); [by apply aligned_text|].
  rewrite <- (app_nil_r news) at 1.
  apply aligned_app; [done|by apply aligned_text].
Qed.

Ltac each_operator op :=
  repeat match goal with
         | |- context [String.eqb op ?s] =>
             destruct (String.eqb_spec op s) as [->|?]; cbn [orb andb]
         end.

Ltac extend IH t :=
  let Hrun := fresh "Hrun" in
  let tr := fresh "tr" in
  let Hgood := fresh "Hgood" in
  let Hlits := fresh "Hlits" in
  intros Hrun; apply IH in Hrun as (tr & Hgood & -> & -> & Hlits);
  exists (t :: tr);
  split; [apply Forall_cons; split; [|exact Hgood]|];
  [|cbn [map concat fst snd app]; rewrite <- ?app_assoc; cbn [app];
    split; [done|]; split; [done|]; by rewrite Hlits].

Lemma operators_bound key negated cond ops :
  Spec.placeholderCount key = 0%nat ->
  Forall (fun kv => forall params c ps,
              negated kv.2 params = Return (c, ps) ->
              exists news, ps = params ++ news /\ aligned c news (cond kv.2)) ops ->
  forall subClauses params c ps,
    operators dialect key negated ops subClauses params = Return (c, ps) ->
    exists tr,
      Forall good tr
      /\ c = String.concat " AND " (subClauses ++ map (fun t => t.1.1) tr)
      /\ ps = params ++ concat (map (fun t => t.1.2) tr)
      /\ map (fun t => t.2) tr = Binding.comparisons show dialect key cond ops.
Proof.
  intros Hkey. induction 1 as [|[op operand] ops Hop _ IH];
    intros subClauses params c ps.
  - cbn [operators]. intros [= <- <-]. exists []. by rewrite !app_nil_r.
  - cbn [operators Binding.comparisons]. unfold Binding.symbol. cbn [snd] in Hop.
    each_operator op.
    + extend IH (parseKey dialect key +:+ " = ?", [operand],
              parseKey dialect key +:+ " = " +:+ show operand).
      by apply (good_comparison key " = ").
    + extend IH (parseKey dialect key +:+ " <> ?", [operand],
              parseKey dialect key +:+ " <> " +:+ show operand).
      by apply (good_comparison key " <> ").
    + extend IH (parseKey dialect key +:+ " > ?", [operand],
              parseKey dialect key +:+ " > " +:+ show operand).
      by apply (good_comparison key " > ").
    + extend IH (parseKey dialect key +:+ " >= ?", [operand],
              parseKey dialect key +:+ " >= " +:+ show operand).
      by apply (good_comparison key " >= ").
    + extend IH (parseKey dialect key +:+ " < ?", [operand],
              parseKey dialect key +:+ " < " +:+ show operand).
      by apply (good_comparison key " < ").
    + extend IH (parseKey dialect key +:+ " <= ?", [operand],
              parseKey dialect key +:+ " <= " +:+ show operand).
      by apply (good_comparison key " <= ").
    + destruct operand as [| | | | |xs|]; cbn [placeholders]; try done.
      extend IH (parseKey dialect key +:+ " IN ("
              +:+ String.concat ", " (map (fun _ => "?"%string) xs) +:+ ")", xs,
              parseKey dialect key +:+ " IN (" +:+ String.concat ", " (map show xs)
              +:+ ")").
      by apply (good_membership key " IN (").
    + destruct operand as [| | | | |xs|]; cbn [placeholders]; try done.
      extend IH (parseKey dialect key +:+ " NOT IN ("
              +:+ String.concat ", " (map (fun _ => "?"%string) xs) +:+ ")", xs,
              parseKey dialect key +:+ " NOT IN (" +:+ String.concat ", " (map show xs)
              +:+ ")").
      by apply (good_membership key " NOT IN (").
    + destruct (negated operand params) as [[notCond params']|] eqn:Hneg; [|done].
      apply Hop in Hneg as (news & -> & Hal).
      extend IH ("NOT (" +:+ notCond +:+ ")", news, "NOT (" +:+ cond operand +:+ ")").
      by apply good_negation.
    + intros Hrun. apply IH in Hrun as (tr & Hgood & -> & -> & Hlits).
      by exists tr.
Qed.

Lemma good_concat_empty (tr : list (string * list value * string)) :
  Forall good tr ->
  (String.concat " AND " (map (fun t => t.1.1) tr) = ""%string -> tr = [])
  /\ (String.concat " AND " (map (fun t => t.2) tr) = ""%string -> tr = []).
Proof.
  intros Htr. split; intros Hempty; apply concat_nonempty in Hempty.
  - by destruct tr.
  - apply Forall_map. eapply Forall_impl; [exact Htr|]. by intros t (_ & ? & _).
  - by destruct tr.
  - apply Forall_map. eapply Forall_impl; [exact Htr|]. by intros t (_ & _ & ?).
Qed.

Lemma parseCondition_bound v :
  forall key params c ps,
    Spec.placeholderCount key = 0%nat ->
    parseCondition dialect key v params = Return (c, ps) ->
    exists news,
      ps = params ++ news
      /\ aligned c news (Binding.condition show dialect key v)
      /\ (c = ""%string <-> Binding.condition show dialect key v = ""%string).
Proof.
  induction v as [| | | | | |ops IH] using value_ind; intros key params c ps Hkey;
    try (cbn [parseCondition Binding.condition]; intros [= <- <-];
         match goal with
         | |- context [_ ++ [?v]] =>
             destruct (good_comparison key " = " v Hkey eq_refl) as (Hal & Hc & Hl);
             exists [v]; cbn [fst snd] in *; split; [done|]; split; [exact Hal|];
             split; intros Hempty; [by destruct (Hc Hempty)|by destruct (Hl Hempty)]
         end).
  cbn [parseCondition Binding.condition]. intros Hrun.
  apply (operators_bound key _ (Binding.condition show dialect key)) in Hrun
    as (tr & Hgood & -> & -> & Hlits); [|done|].
  - cbn [app]. rewrite <- Hlits. exists (concat (map (fun t => t.1.2) tr)).
    split; [done|]. split.
    + apply aligned_concat; [done|].
      eapply Forall_impl; [exact Hgood|]. by intros t (? & _).
    + destruct (good_concat_empty tr Hgood) as [Hc Hl].
      split; intros Hempty; [rewrite (Hc Hempty)|rewrite (Hl Hempty)]; done.
  - eapply Forall_impl; [exact IH|]. cbn. intros kv Hkv params' c' ps' Hrun'.
    destruct (Hkv key params' c' ps' Hkey Hrun') as (news & ? & ? & _). eauto.
Qed.

Lemma fieldEntry_bound key v clauses params clauses' params' :
  Spec.placeholderCount key = 0%nat ->
  fieldEntry dialect key v clauses params = Return (clauses', params') ->
  exists tr,
    Forall good tr
    /\ clauses' = clauses ++ map (fun t => t.1.1) tr
    /\ params' = params ++ concat (map (fun t => t.1.2) tr)
    /\ map (fun t => t.2) tr
       = List.filter (fun c => negb (String.eqb c ""))
           [Binding.condition show dialect key v].
Proof.
  intros Hkey. unfold fieldEntry.
  destruct (parseCondition dialect key v params) as [[cond ps]|] eqn:Hc; [|done].
  apply parseCondition_bound in Hc as (news & -> & Hal & Hempty); [|done].
  cbn [List.filter].
  destruct (String.eqb_spec cond "") as [->|Hne]; intros [= <- <-].
  - destruct Hal as [Hcount _]. destruct news; [|discriminate].
    exists []. rewrite (proj1 Hempty eq_refl). cbn. by rewrite !app_nil_r.
  - exists [(cond, news, Binding.condition show dialect key v)].
    assert (Hlit : Binding.condition show dialect key v <> ""%string).
    { intros Hl. by apply Hne, Hempty. }
    apply String.eqb_neq in Hlit. rewrite Hlit. cbn. rewrite app_nil_r.
    repeat split; try done. constructor; [|done].
    apply String.eqb_neq in Hlit. split; [exact Hal|]. by split.
Qed.

Lemma filterEntries_bound compile props :
  Spec.combinatorFree props = true ->
  Forall (fun kv => Spec.placeholderCount kv.1 = 0%nat) props ->
  forall clauses params c ps,
    filterEntries dialect compile props clauses params = Return (c, ps) ->
    exists tr,
      Forall good tr
      /\ c = String.concat " AND " (clauses ++ map (fun t => t.1.1) tr)
      /\ ps = params ++ concat (map (fun t => t.1.2) tr)
      /\ map (fun t => t.2) tr
         = List.filter (fun c => negb (String.eqb c ""))
             (map (fun kv => Binding.condition show dialect kv.1 kv.2) props).
Proof.
  intros Hfree Hkeys. revert Hfree.
  induction Hkeys as [|[key v] props Hkey _ IH]; intros Hfree clauses params c ps.
  - cbn [filterEntries]. intros [= <- <-]. exists []. by rewrite !app_nil_r.
  - cbn [Spec.combinatorFree forallb fst snd] in Hfree, Hkey.
    apply andb_prop in Hfree as [Hentry Hfree]. apply negb_true_iff in Hentry.
    assert (Hfield :
              match fieldEntry dialect key v clauses params with
              | Return (clauses', params') =>
                  filterEntries dialect compile props clauses' params'
              | TypeError => TypeError
              end = Return (c, ps) ->
              exists tr,
                Forall good tr
                /\ c = String.concat " AND " (clauses ++ map (fun t => t.1.1) tr)
                /\ ps = params ++ concat (map (fun t => t.1.2) tr)
                /\ map (fun t => t.2) tr
                   = List.filter (fun c => negb (String.eqb c ""))
                       (map (fun kv => Binding.condition show dialect kv.1 kv.2)
                            ((key, v) :: props))).
    { destruct (fieldEntry dialect key v clauses params) as [[clauses' params']|] eqn:Hf;
        [|done].
      apply fieldEntry_bound in Hf as (tr1 & Hgood1 & -> & -> & Hlits1); [|done].
      intros Hrun. apply (IH Hfree) in Hrun as (tr2 & Hgood2 & -> & -> & Hlits2).
      exists (tr1 ++ tr2). rewrite !map_app, concat_app, <- !app_assoc.
      split; [by apply Forall_app|]. split; [done|]. split; [done|].
      rewrite Hlits1, Hlits2. cbn [map List.filter fst snd].
      by destruct (negb _). }
    unfold Spec.combinator in Hentry.
    cbn [filterEntries].
    destruct v; cbn [isArray typeofObject] in Hentry |- *;
      destruct (String.eqb key "$or"), (String.eqb key "$and"),
        (String.eqb key "$not");
      cbn [andb orb] in Hentry |- *; try discriminate; exact Hfield.
Qed.

(** On a filter without combinators whose field names hold no question
    mark, the clause read with its parameters bound by position is the
    condition of the filter. *)
Lemma buildWhereClause_bound props c ps :
  Spec.combinatorFree props = true ->
  Forall (fun kv => Spec.placeholderCount kv.1 = 0%nat) props ->
  buildWhereClause (VObj props) dialect = Return (c, ps) ->
  Binding.bound show c ps = Binding.literal show dialect props.
Proof.
  intros Hfree Hkeys. cbn [buildWhereClause]. intros Hrun.
  apply filterEntries_bound in Hrun as (tr & Hgood & -> & -> & Hlits); [|done..].
  cbn [app]. unfold Binding.literal. rewrite <- Hlits.
  apply aligned_concat; [done|].
  eapply Forall_impl; [exact Hgood|]. by intros t (? & _).
Qed.
End BindingFacts.

(** X1: on a filter without logical combinators whose set-membership
    operands are sequences, the compiler returns, and the parameter list
    is the list of operand values in the order of their placeholders:
    when no field name holds a question mark, the clause read with each
    placeholder replaced, from left to right, by the parameter at its
    position is the condition of the filter with every operand in its
    own comparison, whatever text stands for a value. *)
Theorem parameters_follow_placeholders
    (dialect : string) (props : list (string * value)) :
  Spec.combinatorFree props = true ->
  Spec.filterSafe (VObj props) = true ->
  exists clause,
    Helpers.buildWhereClause (VObj props) dialect
    = Return (clause, Spec.filterOperands (VObj props))
    /\ (Forall (fun kv => Spec.placeholderCount kv.1 = 0%nat) props ->
        forall show : value -> string,
          Binding.bound show clause (Spec.filterOperands (VObj props))
          = Binding.literal show dialect props).
Proof.
  intros Hfree Hsafe.
  pose proof (buildWhereClause_decides dialect (VObj props)) as Hdec.
  rewrite Hsafe in Hdec. destruct Hdec as [[clause params] Hrun].
  assert (Hparams : params = Spec.filterOperands (VObj props)).
  { by eapply buildWhereClause_params_without_combinators. }
  subst params. exists clause. split; [done|].
  intros Hkeys show. by eapply buildWhereClause_bound.
Qed.

Lemma parameters_follow_placeholders_witness :
  Spec.combinatorFree
    [("age", VObj [("$gte", VNum 18); ("$in", VArr [VNum 20; VNum 30])]);
     ("name", VStr "Ann")] = true
  /\ Spec.filterSafe
       (VObj [("age", VObj [("$gte", VNum 18); ("$in", VArr [VNum 20; VNum 30])]);
              ("name", VStr "Ann")]) = true
  /\ exists clause,
       Helpers.buildWhereClause
         (VObj [("age", VObj [("$gte", VNum 18); ("$in", VArr [VNum 20; VNum 30])]);
                ("name", VStr "Ann")]) "postgres"
       = Return (clause,
                 Spec.filterOperands
                   (VObj [("age", VObj [("$gte", VNum 18);
                                        ("$in", VArr [VNum 20; VNum 30])]);
                          ("name", VStr "Ann")]))
       /\ (Forall (fun kv : string * value => Spec.placeholderCount kv.1 = 0%nat)
             [("age", VObj [("$gte", VNum 18); ("$in", VArr [VNum 20; VNum 30])]);
              ("name", VStr "Ann")] ->
           forall show : value -> string,
             Binding.bound show clause
               (Spec.filterOperands
                  (VObj [("age", VObj [("$gte", VNum 18);
                                       ("$in", VArr [VNum 20; VNum 30])]);
                         ("name", VStr "Ann")]))
             = Binding.literal show "postgres"
                 [("age", VObj [("$gte", VNum 18); ("$in", VArr [VNum 20; VNum 30])]);
                  ("name", VStr "Ann")]).
Proof.
  split; [reflexivity|]. split; [reflexivity|].
  apply (parameters_follow_placeholders "postgres"); reflexivity.
Defined.

(** X2: on a filter without logical combinators whose field names hold no
    question mark, every compiled clause has exactly as many placeholders
    as the parameter list has values, so positional binding lines up. *)
Theorem placeholders_match_parameters
    (dialect : string) (props : list (string * value))
    (clause : string) (params : list value) :
  Spec.combinatorFree props = true ->
  Forall (fun kv => Spec.placeholderCount kv.1 = 0%nat) props ->
  Helpers.buildWhereClause (VObj props) dialect = Return (clause, params) ->
  Spec.placeholderCount clause = length params.
Proof.
  intros Hfree Hkeys Hrun. cbn [Helpers.buildWhereClause] in Hrun.
  apply filterEntries_count in Hrun; [|done..]. cbn in Hrun. lia.
Qed.

Lemma placeholders_match_parameters_witness :
  Spec.combinatorFree
    [("age", VObj [("$not", VObj [("$in", VArr [VNum 1; VNum 2])])]); ("n", VNull)]
  = true
  /\ Forall (fun kv => Spec.placeholderCount kv.1 = 0%nat)
       [("age", VObj [("$not", VObj [("$in", VArr [VNum 1; VNum 2])])]); ("n", VNull)]
  /\ Helpers.buildWhereClause
       (VObj [("age", VObj [("$not", VObj [("$in", VArr [VNum 1; VNum 2])])]);
              ("n", VNull)]) "postgres"
     = Return ("NOT (data->>'age' IN (?, ?)) AND data->>'n' = ?"%string,
               [VNum 1; VNum 2; VNull])
  /\ Spec.placeholderCount "NOT (data->>'age' IN (?, ?)) AND data->>'n' = ?"
     = length [VNum 1; VNum 2; VNull].
Proof.
  assert (Hkeys : Forall (fun kv : string * value => Spec.placeholderCount kv.1 = 0%nat)
                    [("age", VObj [("$not", VObj [("$in", VArr [VNum 1; VNum 2])])]);
                     ("n", VNull)]).
  { repeat constructor. }
  split; [reflexivity|]. split; [exact Hkeys|]. split; [reflexivity|].
  apply (placeholders_match_parameters "postgres"
           [("age", VObj [("$not", VObj [("$in", VArr [VNum 1; VNum 2])])]);
            ("n", VNull)]); [reflexivity | exact Hkeys | reflexivity].
Defined.

(** ** The Predicate Compiler: the dialect *)

Section DialectFacts.
Import Helpers.
Variables d1 d2 : string.
Hypothesis Hkey : forall key, parseKey d1 key = parseKey d2 key.

Lemma operators_dialect key negated1 negated2 ops :
  Forall (fun kv => forall params, negated1 kv.2 params = negated2 kv.2 params) ops ->
  forall subClauses params,
    operators d1 key negated1 ops subClauses params
    = operators d2 key negated2 ops subClauses params.
Proof.
  induction 1 as [|[op operand] ops Hop _ IH]; intros subClauses params; [done|].
  cbn [operators]. cbn [snd] in Hop. rewrite Hkey, Hop.
  repeat case_match; try done; apply IH.
Qed.

Lemma parseCondition_dialect v :
  forall key params, parseCondition d1 key v params = parseCondition d2 key v params.
Proof.
  induction v as [| | | | | |ops IH] using value_ind; intros key params;
    cbn [parseCondition]; try (by rewrite (Hkey key)).
  apply operators_dialect. eapply Forall_impl; [exact IH|]. cbn. eauto.
Qed.

Lemma fieldEntry_dialect key v clauses params :
  fieldEntry d1 key v clauses params = fieldEntry d2 key v clauses params.
Proof. unfold fieldEntry. by rewrite parseCondition_dialect. Qed.

Lemma indexEntries_dialect entries :
  forall clauses params,
    indexEntries d1 entries clauses params = indexEntries d2 entries clauses params.
Proof.
  induction entries as [|[key v] entries IH]; intros clauses params; [done|].
  cbn [indexEntries]. rewrite fieldEntry_dialect.
  repeat case_match; try done; apply IH.
Qed.

Lemma nestedClauses_dialect compile1 compile2 conds :
  Forall (fun c => compile1 c = compile2 c) conds ->
  nestedClauses compile1 conds = nestedClauses compile2 conds.
Proof.
  induction 1 as [|cond conds Hc _ IH]; [done|].
  cbn [nestedClauses]. by rewrite Hc, IH.
Qed.

Lemma filterEntries_dialect compile1 compile2 props :
  Forall (fun kv =>
            compile1 kv.2 = compile2 kv.2
            /\ forall conds, kv.2 = VArr conds ->
                             Forall (fun c => compile1 c = compile2 c) conds) props ->
  forall clauses params,
    filterEntries d1 compile1 props clauses params
    = filterEntries d2 compile2 props clauses params.
Proof.
  induction 1 as [|[key v] props [Hv Helems] _ IH]; intros clauses params; [done|].
  cbn [snd] in Hv, Helems. cbn [filterEntries].
  unfold notEntry. rewrite fieldEntry_dialect, Hv.
  destruct v as [| | | | |conds|ops];
    try (repeat case_match; try done; apply IH).
  rewrite (nestedClauses_dialect compile1 compile2 conds (Helems conds eq_refl)).
  repeat case_match; try done; apply IH.
Qed.

Lemma buildWhereClause_dialect filter :
  buildWhereClause filter d1 = buildWhereClause filter d2.
Proof.
  enough (H : buildWhereClause filter d1 = buildWhereClause filter d2
              /\ forall conds, filter = VArr conds ->
                   Forall (fun c => buildWhereClause c d1 = buildWhereClause c d2) conds)
    by apply H.
  induction filter as [| | | |s|xs IH|props IH] using value_ind;
    try (split; [done | intros ? [=]]; fail).
  - split; [|intros ? [=]]. cbn [buildWhereClause]. apply indexEntries_dialect.
  - split.
    + cbn [buildWhereClause]. apply indexEntries_dialect.
    + intros conds [= <-]. eapply Forall_impl; [exact IH|]. cbn. tauto.
  - split; [|intros ? [=]]. cbn [buildWhereClause].
    by apply filterEntries_dialect.
Qed.
End DialectFacts.

(** X3: every dialect name other than "postgres" compiles as "mysql"
    does: an unknown or misspelt dialect silently gives the MySQL path
    extraction, for every filter, including on the filters that throw. *)
Theorem unknown_dialect_compiles_as_mysql (dialect : string) (filter : value) :
  dialect <> "postgres"%string ->
  Helpers.buildWhereClause filter dialect = Helpers.buildWhereClause filter "mysql".
Proof.
  intros Hne. apply buildWhereClause_dialect. intros key.
  unfold Helpers.parseKey. apply String.eqb_neq in Hne. by rewrite Hne.
Qed.

Lemma unknown_dialect_compiles_as_mysql_witness :
  "Postgres"%string <> "postgres"%string
  /\ Helpers.buildWhereClause (VObj [("age", VObj [("$gt", VNum 3)])]) "Postgres"
     = Helpers.buildWhereClause (VObj [("age", VObj [("$gt", VNum 3)])]) "mysql".
Proof.
  split; [discriminate|].
  apply (unknown_dialect_compiles_as_mysql "Postgres"). discriminate.
Defined.

(** ** The update operators: what is shared and what is copied *)


(** X4: a specification without an append never changes what was on the
    heap before the call: the heap is only extended (by the arrays a removal
    builds), so the input document and every array it holds read as
    before. *)
Theorem without_append_nothing_is_mutated
    (doc : object) (u : UpdateFilter) (h : heap) :
  update_push u = None ->
  h `prefix_of` (Update.applyUpdateOperators doc u h).2
  /\ forall l c, h !! l = Some c ->
                 (Update.applyUpdateOperators doc u h).2 !! l = Some c.
Proof.
  intros Hpush.
  assert (Hpre : h `prefix_of` (Update.applyUpdateOperators doc u h).2).
  { unfold Update.applyUpdateOperators. rewrite Hpush.
    destruct (update_pull u) as [fields|]; [|done].
    apply (pull_fields_extend fields (_, h)). }
  split; [exact Hpre|].
  intros l c Hl. destruct Hpre as [added ->]. by apply lookup_app_l_Some.
Qed.

Lemma without_append_nothing_is_mutated_witness :
  update_push [PullOp [("tags", JStr "a")]; IncOp [("n", 1)]] = None
  /\ Update.applyUpdateOperators [("n", JNum 1); ("tags", JRef 0)]
       [PullOp [("tags", JStr "a")]; IncOp [("n", 1)]] [CArr [JStr "a"; JStr "b"]]
     = ([("n", JNum 2); ("tags", JRef 1)], [CArr [JStr "a"; JStr "b"]; CArr [JStr "b"]])
  /\ [CArr [JStr "a"; JStr "b"]]
       `prefix_of` (Update.applyUpdateOperators [("n", JNum 1); ("tags", JRef 0)]
                      [PullOp [("tags", JStr "a")]; IncOp [("n", 1)]]
                      [CArr [JStr "a"; JStr "b"]]).2.
Proof.
  split; [reflexivity|]. split; [reflexivity|].
  apply (without_append_nothing_is_mutated [("n", JNum 1); ("tags", JRef 0)]
           [PullOp [("tags", JStr "a")]; IncOp [("n", 1)]] [CArr [JStr "a"; JStr "b"]]).
  reflexivity.
Defined.

(** X5: a specification that only replaces fields is a shallow merge: the
    heap is untouched, each named field holds its operand itself (an array
    operand is shared, not copied), every other field is as in the input,
    and applying the specification again changes nothing. *)
Theorem replacement_is_shallow_merge
    (doc : object) (u : UpdateFilter) (h : heap) (fields : object) :
  update_set u = Some fields ->
  update_inc u = None ->
  update_push u = None ->
  update_pull u = None ->
  NoDup fields.*1 ->
  let r := Update.applyUpdateOperators doc u h in
  r.2 = h
  /\ (forall k v, (k, v) ∈ fields -> Js.get r.1 k = v)
  /\ (forall k, k ∉ fields.*1 -> Js.get r.1 k = Js.get doc k)
  /\ Update.applyUpdateOperators r.1 u r.2 = r.
Proof.
  intros Hset Hinc Hpush Hpull Hnd r.
  assert (Hrun : forall d g, Update.applyUpdateOperators d u g = (Js.spread d fields, g)).
  { intros d g. unfold Update.applyUpdateOperators.
    by rewrite Hset, Hinc, Hpush, Hpull. }
  subst r. rewrite Hrun. cbn [fst snd]. repeat split.
  - intros k v Hkv. by apply get_spread_in.
  - intros k Hk. by apply get_spread_notin.
  - rewrite Hrun. f_equal. apply spread_fixed. intros k v Hkv. split.
    + apply spread_keys. left. apply list_elem_of_fmap. by exists (k, v).
    + by apply get_spread_in.
Qed.

Lemma replacement_is_shallow_merge_witness :
  update_set [SetOp [("name", JStr "Ann"); ("tags", JRef 0)]]
  = Some [("name"%string, JStr "Ann"); ("tags"%string, JRef 0)]
  /\ update_inc [SetOp [("name", JStr "Ann"); ("tags", JRef 0)]] = None
  /\ update_push [SetOp [("name", JStr "Ann"); ("tags", JRef 0)]] = None
  /\ update_pull [SetOp [("name", JStr "Ann"); ("tags", JRef 0)]] = None
  /\ NoDup [("name"%string, JStr "Ann"); ("tags"%string, JRef 0)].*1
  /\ (let r := Update.applyUpdateOperators [("id", JNum 1); ("name", JStr "Bob")]
                 [SetOp [("name", JStr "Ann"); ("tags", JRef 0)]] [CArr [JStr "a"]] in
      r.2 = [CArr [JStr "a"]]
      /\ (forall k v,
             (k, v) ∈ [("name"%string, JStr "Ann"); ("tags"%string, JRef 0)] ->
             Js.get r.1 k = v)
      /\ (forall k,
             k ∉ [("name"%string, JStr "Ann"); ("tags"%string, JRef 0)].*1 ->
             Js.get r.1 k = Js.get [("id", JNum 1); ("name", JStr "Bob")] k)
      /\ Update.applyUpdateOperators r.1
           [SetOp [("name", JStr "Ann"); ("tags", JRef 0)]] r.2 = r).
Proof.
  assert (Hnd : NoDup [("name"%string, JStr "Ann"); ("tags"%string, JRef 0)].*1).
  { apply (bool_decide_unpack _). reflexivity. }
  do 4 (split; [reflexivity|]). split; [exact Hnd|].
  apply (replacement_is_shallow_merge [("id", JNum 1); ("name", JStr "Bob")]
           [SetOp [("name", JStr "Ann"); ("tags", JRef 0)]] [CArr [JStr "a"]]
           [("name"%string, JStr "Ann"); ("tags"%string, JRef 0)]);
    first [reflexivity | exact Hnd].
Defined.

(** X6: when a specification replaces a field by an array and appends to
    the same field, the array of the specification is the one appended to:
    applied to two documents in turn, both documents hold that one array,
    which has gained the operand twice. *)
Theorem replacement_array_is_shared_between_documents
    (doc1 doc2 : object) (u : UpdateFilter) (h : heap)
    (k : string) (l : nat) (xs : list jsval) (x : jsval) :
  update_set u = Some [(k, JRef l)] ->
  update_inc u = None ->
  update_push u = Some [(k, x)] ->
  update_pull u = None ->
  h !! l = Some (CArr xs) ->
  let r1 := Update.applyUpdateOperators doc1 u h in
  let r2 := Update.applyUpdateOperators doc2 u r1.2 in
  Js.get r1.1 k = JRef l
  /\ Js.get r2.1 k = JRef l
  /\ Js.elements r1.2 (JRef l) = Some (xs ++ [x])
  /\ Js.elements r2.2 (JRef l) = Some (xs ++ [x; x]).
Proof.
  intros Hset Hinc Hpush Hpull Hl r1 r2.
  assert (Hrun : forall d g ys,
             g !! l = Some (CArr ys) ->
             Update.applyUpdateOperators d u g
             = (Js.set d k (JRef l), <[l := CArr (ys ++ [x])]> g)).
  { intros d g ys Hg. unfold Update.applyUpdateOperators.
    rewrite Hset, Hinc, Hpush, Hpull. cbn [fold_left Js.spread fst snd].
    unfold Update.pushField, Js.isArray, Js.push, Js.elements. cbn [fst snd].
    rewrite get_set_eq, Hg. by rewrite get_set_eq, Hg. }
  assert (Hl1 : (<[l := CArr (xs ++ [x])]> h) !! l = Some (CArr (xs ++ [x]))).
  { apply list_lookup_insert_eq. by eapply lookup_lt_Some. }
  subst r2 r1. rewrite (Hrun doc1 h xs Hl). cbn [fst snd].
  rewrite (Hrun doc2 _ _ Hl1). cbn [fst snd Js.elements].
  rewrite !get_set_eq, Hl1.
  rewrite list_lookup_insert_eq
    by (rewrite length_insert; by eapply lookup_lt_Some).
  by rewrite <- app_assoc.
Qed.

Lemma replacement_array_is_shared_between_documents_witness :
  update_set [SetOp [("tags", JRef 0)]; PushOp [("tags", JStr "new")]]
  = Some [("tags"%string, JRef 0)]
  /\ update_push [SetOp [("tags", JRef 0)]; PushOp [("tags", JStr "new")]]
     = Some [("tags"%string, JStr "new")]
  /\ [CArr []] !! 0%nat = Some (CArr [])
  /\ (let r1 := Update.applyUpdateOperators [("id", JNum 1)]
                  [SetOp [("tags", JRef 0)]; PushOp [("tags", JStr "new")]] [CArr []] in
      let r2 := Update.applyUpdateOperators [("id", JNum 2)]
                  [SetOp [("tags", JRef 0)]; PushOp [("tags", JStr "new")]] r1.2 in
      Js.get r1.1 "tags" = JRef 0
      /\ Js.get r2.1 "tags" = JRef 0
      /\ Js.elements r1.2 (JRef 0) = Some ([] ++ [JStr "new"])
      /\ Js.elements r2.2 (JRef 0) = Some ([] ++ [JStr "new"; JStr "new"])).
Proof.
  split; [reflexivity|]. split; [reflexivity|]. split; [reflexivity|].
  apply (replacement_array_is_shared_between_documents [("id", JNum 1)] [("id", JNum 2)]
           [SetOp [("tags", JRef 0)]; PushOp [("tags", JStr "new")]] [CArr []]
           "tags" 0%nat [] (JStr "new")); reflexivity.
Defined.

(** ** The verbs: missing tables, malformed filters, limits *)

Section VerbFacts.
Context {W Ses E : Type} (driver : BaseDriver W Ses E).
Variable JSON_parse : value -> option Document.
Variable JSON_stringify : value -> string.

Lemma deleteEach_sent collection limit docs :
  forall deleted (w w' : world W Ses) n,
    Crud.deleteEach driver collection limit docs deleted w = (Ok n, w') ->
    let m := match Crud.given limit with
             | Some l => Nat.min (Z.to_nat l - deleted) (length docs)
             | None => length docs
             end in
    n = (deleted + m)%nat
    /\ calls w' = calls w ++ map (Sent.deleteOf collection) (take m docs).
Proof.
  induction docs as [|doc docs IH]; intros deleted w w' n.
  - cbn [Crud.deleteEach]. intros [= <- <-]. cbn.
    destruct (Crud.given limit); rewrite ?Nat.min_0_r;
      cbn; by rewrite Nat.add_0_r, app_nil_r.
  - cbn [Crud.deleteEach]. unfold Crud.reached.
    destruct (Crud.given limit) as [l|] eqn:Hl;
      [destruct (Z.leb_spec l (Z.of_nat deleted)) as [Hle|Hgt]|].
    + intros [= <- <-].
      replace (Z.to_nat l - deleted)%nat with 0%nat by lia.
      cbn. by rewrite Nat.add_0_r, app_nil_r.
    + unfold bind, Crud.driver_query, invoke.
      destruct (query _ _ (driverState w)) as [[rows|e] d1]; [|done].
      intros Hrun. apply IH in Hrun. cbn [calls length] in Hrun.
      cbv zeta in Hrun. destruct Hrun as (-> & ->). cbn [length].
      replace (Nat.min (Z.to_nat l - deleted) (S (length docs)))
        with (S (Nat.min (Z.to_nat l - S deleted) (length docs))) by lia.
      cbn [take map]. rewrite <- app_assoc. split; [lia | done].
    + unfold bind, Crud.driver_query, invoke.
      destruct (query _ _ (driverState w)) as [[rows|e] d1]; [|done].
      intros Hrun. apply IH in Hrun. cbn [calls length] in Hrun.
      cbv zeta in Hrun. destruct Hrun as (-> & ->). cbn [length].
      cbn [length take map]. rewrite <- app_assoc. split; [lia | done].
Qed.

Lemma updatedParams_calls doc update (w w' : world W Ses) r :
  Crud.updatedParams (E := E) JSON_stringify doc update w = (r, w') ->
  calls w' = calls w /\ driverState w' = driverState w.
Proof.
  unfold Crud.updatedParams, bind, onHeap.
  destruct (Js.loadDocument doc (jsHeap w)) as [o h1]. cbn [jsHeap driverState calls].
  destruct (Update.applyUpdateOperators o update h1) as [updated h2].
  cbn [jsHeap driverState calls].
  repeat case_match; by intros [= <- <-].
Qed.

Lemma updateEach_sent collection update limit docs :
  forall modified (w w' : world W Ses) n,
    Crud.updateEach driver JSON_stringify collection update limit docs modified w
    = (Ok n, w') ->
    let m := match Crud.given limit with
             | Some l => Nat.min (Z.to_nat l - modified) (length docs)
             | None => length docs
             end in
    n = (modified + m)%nat
    /\ exists sent, calls w' = calls w ++ sent
                    /\ length sent = m
                    /\ Forall (Sent.isUpdateOf collection) sent.
Proof.
  induction docs as [|doc docs IH]; intros modified w w' n.
  - cbn [Crud.updateEach]. intros [= <- <-]. cbn.
    destruct (Crud.given limit); rewrite ?Nat.min_0_r;
      (split; [lia|]); exists []; by rewrite app_nil_r.
  - cbn [Crud.updateEach]. unfold Crud.reached.
    destruct (Crud.given limit) as [l|] eqn:Hl;
      [destruct (Z.leb_spec l (Z.of_nat modified)) as [Hle|Hgt]|].
    + intros [= <- <-].
      replace (Z.to_nat l - modified)%nat with 0%nat by lia.
      cbn. split; [lia|]. exists []. by rewrite app_nil_r.
    + unfold bind at 1.
      destruct (Crud.updatedParams _ _ _ w) as [[params|e] w1] eqn:Hp; [|done].
      apply updatedParams_calls in Hp as [Hc _].
      unfold bind, Crud.driver_query, invoke.
      destruct (query _ _ (driverState w1)) as [[rows|e] d1]; [|done].
      intros Hrun. apply IH in Hrun. cbn [calls length] in Hrun.
      cbv zeta in Hrun. rewrite Hc in Hrun.
      destruct Hrun as (-> & sent & -> & Hlen & Hall). cbn [length].
      replace (Nat.min (Z.to_nat l - modified) (S (length docs)))
        with (S (Nat.min (Z.to_nat l - S modified) (length docs))) by lia.
      split; [lia|]. eexists (_ :: sent). rewrite <- app_assoc.
      split; [reflexivity|]. split; [cbn; lia|]. by constructor.
    + unfold bind at 1.
      destruct (Crud.updatedParams _ _ _ w) as [[params|e] w1] eqn:Hp; [|done].
      apply updatedParams_calls in Hp as [Hc _].
      unfold bind, Crud.driver_query, invoke.
      destruct (query _ _ (driverState w1)) as [[rows|e] d1]; [|done].
      intros Hrun. apply IH in Hrun. cbn [calls length] in Hrun.
      cbv zeta in Hrun. rewrite Hc in Hrun.
      destruct Hrun as (-> & sent & -> & Hlen & Hall). cbn [length].
      split; [lia|]. eexists (_ :: sent). rewrite <- app_assoc.
      split; [reflexivity|]. split; [cbn; lia|]. by constructor.
Qed.
End VerbFacts.

(** X7: when the table of the collection does not exist, findOne returns
    null, updateOne reports no matched and no modified document, deleteOne
    no deleted document, and a cursor-paginated find that does not ask for
    a count returns an empty page with an undefined cursor; each makes the
    table check and no other driver call. *)
Theorem single_document_verbs_on_missing_table
    {W Ses E : Type} (driver : BaseDriver W Ses E)
    (JSON_parse : value -> option Document) (JSON_stringify : value -> string)
    (collection : string) (filter : Document) (options : FindOptions)
    (update : UpdateFilter) (w : world W Ses) (d : W) :
  tableExists collection (driverState w) = (Ok false, d) ->
  let w' := World d (jsHeap w) (calls w ++ [TableExists collection]) in
  CrudOne.findOne driver JSON_parse collection filter options w = (Ok None, w')
  /\ CrudOne.updateOne driver JSON_parse JSON_stringify collection filter update w
     = (Ok {| acknowledged := true; matchedCount := 0; modifiedCount := 0 |}, w')
  /\ CrudOne.deleteOne driver JSON_parse collection filter w
     = (Ok {| deleteAcknowledged := true; deletedCount := 0 |}, w')
  /\ (default false (count options) = false ->
      Crud.findWithCursor driver JSON_parse collection filter options w
      = (Ok {| data := []; nextCursor := VUndef; totalCount := None |}, w')).
Proof.
  intros Hmissing w'.
  pose proof (tableExists_run driver collection w false d Hmissing) as Hrun.
  unfold CrudOne.findOne, CrudOne.updateOne, CrudOne.deleteOne, Crud.findWithCursor,
    Crud.deleteMany, Crud.find, bind.
  rewrite Hrun. cbn [negb].
  split; [done|]. split; [done|]. split; [done|].
  intros ->. unfold ret. by case_match.
Qed.

Lemma single_document_verbs_on_missing_table_witness :
  tableExists (BaseDriver := Run.scripted) "users" (driverState (Run.start [] []))
  = (Ok false, Run.Script [] [])
  /\ CrudOne.findOne Run.scripted Run.parsed "users" [("id", VNum 1)] noOptions
       (Run.start [] [])
     = (Ok None, World (Run.Script [] []) [] [TableExists "users"])
  /\ CrudOne.updateOne Run.scripted Run.parsed (fun _ => ""%string) "users"
       [("id", VNum 1)] [IncOp [("n", 1)]] (Run.start [] [])
     = (Ok {| acknowledged := true; matchedCount := 0; modifiedCount := 0 |},
        World (Run.Script [] []) [] [TableExists "users"]).
Proof.
  split; [reflexivity|].
  destruct (single_document_verbs_on_missing_table Run.scripted Run.parsed
              (fun _ => ""%string) "users" [("id", VNum 1)] noOptions
              [IncOp [("n", 1)]] (Run.start [] []) (Run.Script [] []) eq_refl)
    as (Hfind & Hupdate & _).
  split; [exact Hfind | exact Hupdate].
Defined.

(** X8: on an existing table, a filter with a set-membership operand that
    is not a sequence makes find and countDocuments throw a TypeError
    after the table check, before any statement is sent. *)
Theorem malformed_filter_sends_no_statement
    {W Ses E : Type} (driver : BaseDriver W Ses E)
    (JSON_parse : value -> option Document)
    (collection : string) (filter : Document) (options : FindOptions)
    (w : world W Ses) (d : W) :
  tableExists collection (driverState w) = (Ok true, d) ->
  Spec.filterSafe (VObj filter) = false ->
  let w' := World d (jsHeap w) (calls w ++ [TableExists collection]) in
  Crud.find driver JSON_parse collection filter options w = (Err JsTypeError, w')
  /\ Crud.countDocuments driver collection filter w = (Err JsTypeError, w').
Proof.
  intros Hpresent Hunsafe w'.
  pose proof (tableExists_run driver collection w true d Hpresent) as Hrun.
  pose proof (buildWhereClause_decides getDialect (VObj filter)) as Hdec.
  rewrite Hunsafe in Hdec. unfold Run.decides in Hdec.
  unfold Crud.find, Crud.countDocuments, bind. rewrite Hrun. cbn [negb].
  by rewrite Hdec.
Qed.

Lemma malformed_filter_sends_no_statement_witness :
  tableExists (BaseDriver := Run.scripted) "users"
    (driverState (Run.start ["users"%string] []))
  = (Ok true, Run.Script ["users"%string] [])
  /\ Spec.filterSafe (VObj [("age", VObj [("$in", VNum 3)])]) = false
  /\ Crud.find Run.scripted Run.parsed "users" [("age", VObj [("$in", VNum 3)])]
       noOptions (Run.start ["users"%string] [])
     = (Err JsTypeError,
        World (Run.Script ["users"%string] []) [] [TableExists "users"]).
Proof.
  split; [reflexivity|]. split; [reflexivity|].
  apply (malformed_filter_sends_no_statement Run.scripted Run.parsed "users"
           [("age", VObj [("$in", VNum 3)])] noOptions
           (Run.start ["users"%string] []) (Run.Script ["users"%string] []));
    reflexivity.
Defined.





(** X11: in a cursor-paginated find the comparison on the cursor field
    takes the place of whatever condition the caller's filter had on that
    field, every other entry of the filter being kept; without a cursor
    value (absent, undefined or null) the filter is used as it is. *)
Theorem cursor_condition_replaces_filter_entry
    (filter : Document) (options : FindOptions) (v : value) :
  cursorValue options = Some v ->
  v <> VUndef ->
  v <> VNull ->
  let field := default "id"%string (cursorField options) in
  let op := if default false (reverse options) then "$lt"%string else "$gt"%string in
  prop (Crud.cursorFilter filter options) field = VObj [(op, v)]
  /\ (forall k, field <> k -> prop (Crud.cursorFilter filter options) k = prop filter k)
  /\ (forall options',
         cursorValue options' = None \/ cursorValue options' = Some VNull
         \/ cursorValue options' = Some VUndef ->
         Crud.cursorFilter filter options' = filter).
Proof.
  intros Hv Hundef Hnull field op. unfold Crud.cursorFilter. rewrite Hv.
  repeat split.
  - destruct v; try done; apply prop_setProp_eq.
  - intros k Hk. destruct v; try done; by apply prop_setProp_ne.
  - intros options' [-> | [-> | ->]]; reflexivity.
Qed.

Lemma cursor_condition_replaces_filter_entry_witness :
  let options :=
    {| limit := None; skip := None; sort := None; cursorField := None;
       cursorValue := Some (VNum 5); reverse := None; count := None |} in
  cursorValue options = Some (VNum 5)
  /\ VNum 5 <> VUndef
  /\ VNum 5 <> VNull
  /\ prop (Crud.cursorFilter [("id", VObj [("$lt", VNum 100)]); ("age", VNum 3)] options)
       (default "id"%string (cursorField options))
     = VObj [("$gt"%string, VNum 5)].
Proof.
  intros options. split; [reflexivity|]. split; [discriminate|]. split; [discriminate|].
  destruct (cursor_condition_replaces_filter_entry
              [("id", VObj [("$lt", VNum 100)]); ("age", VNum 3)] options (VNum 5)
              eq_refl ltac:(discriminate) ltac:(discriminate)) as [H _].
  exact H.
Defined.

(** ** The transaction wrapper: the other exits *)

(** X12: once a session is started, a work function that returns is
    followed by commit. When commit succeeds the session is released,
    and the result of the work is returned, or the failure of release
    raised. When commit fails, the wrapper rolls back and releases,
    whatever the two answer, and raises the failure of the last of
    commit, rollback and release that failed: the failure of commit
    only when rollback and release both succeed. *)
Theorem transaction_commits_then_releases
    {W Ses E T : Type} (driver : BaseDriver W Ses E)
    (fn : Ses -> W -> result (exn E) T * W)
    (w : world W Ses) (session : Ses) (d1 d2 : W) (r : T) :
  startSession (driverState w) = (Ok session, d1) ->
  fn session d1 = (Ok r, d2) ->
  (forall d3 released d4,
      commit session d2 = (Ok tt, d3) ->
      release session d3 = (released, d4) ->
      Transaction.withTransaction driver fn w
      = (match released with
         | Ok _ => Ok r
         | Err e => Err e
         end,
         World d4 (jsHeap w)
           (calls w ++ [StartSession; Commit session; Release session])))
  /\ (forall e d3 rolled d4 released d5,
         commit session d2 = (Err e, d3) ->
         rollback session d3 = (rolled, d4) ->
         release session d4 = (released, d5) ->
         Transaction.withTransaction driver fn w
         = (Err (lastFailure e [rolled; released]),
            World d5 (jsHeap w)
              (calls w ++ [StartSession; Commit session; Rollback session;
                           Release session]))).
Proof.
  intros Hstart Hfn.
  unfold Transaction.withTransaction, tryFinally, tryCatch, bind, callback, invoke,
    ret, throw.
  split.
  - intros d3 released d4 Hcommit Hrel. run_calls.
    destruct released as [[]|e]; by rewrite <- !app_assoc.
  - intros e d3 rolled d4 released d5 Hcommit Hrb Hrel. run_calls.
    destruct rolled as [[]|e1]; run_calls; destruct released as [[]|e2];
      by rewrite <- !app_assoc.
Qed.

Lemma transaction_commits_then_releases_witness :
  let fn : nat -> unit -> result (exn string) Z * unit :=
    fun _ db => (Ok 42, db) in
  startSession (BaseDriver := Broken.commitAndRollbackFail) (driverState Broken.start)
  = (Ok 7%nat, tt)
  /\ fn 7%nat tt = (Ok 42, tt)
  /\ Transaction.withTransaction Broken.commitAndRollbackFail fn Broken.start
     = (Err (Raised "rollback failed"%string),
        World tt [] [StartSession; Commit 7%nat; Rollback 7%nat; Release 7%nat]).
Proof.
  intros fn. split; [reflexivity|]. split; [reflexivity|].
  destruct (transaction_commits_then_releases Broken.commitAndRollbackFail fn
              Broken.start 7%nat tt tt 42 eq_refl eq_refl) as [_ Hfailed].
  exact (Hfailed (Raised "commit failed"%string) tt
           (Err (Raised "rollback failed"%string)) tt (Ok tt) tt
           eq_refl eq_refl eq_refl).
Defined.

(** X13: a failure of the cleanup replaces the outcome of the work. When
    the work raises and rollback raises too, the failure raised by the
    wrapper is the one of rollback (release still runs); and when release
    raises, its failure is raised even after a successful commit. *)
Theorem cleanup_failure_replaces_outcome
    {W Ses E T : Type} (driver : BaseDriver W Ses E)
    (fn : Ses -> W -> result (exn E) T * W)
    (w : world W Ses) (session : Ses) (d1 : W) :
  startSession (driverState w) = (Ok session, d1) ->
  (forall e e' d2 d3 d4,
      fn session d1 = (Err e, d2) ->
      rollback session d2 = (Err e', d3) ->
      release session d3 = (Ok tt, d4) ->
      Transaction.withTransaction driver fn w
      = (Err e', World d4 (jsHeap w)
                   (calls w ++ [StartSession; Rollback session; Release session])))
  /\ (forall r e' d2 d3 d4,
         fn session d1 = (Ok r, d2) ->
         commit session d2 = (Ok tt, d3) ->
         release session d3 = (Err e', d4) ->
         Transaction.withTransaction driver fn w
         = (Err e', World d4 (jsHeap w)
                      (calls w ++ [StartSession; Commit session; Release session]))).
Proof.
  intros Hstart.
  unfold Transaction.withTransaction, tryFinally, tryCatch, bind, callback, invoke,
    ret, throw.
  split.
  - intros e e' d2 d3 d4 Hfn Hrb Hrel. run_calls. by rewrite <- !app_assoc.
  - intros r e' d2 d3 d4 Hfn Hcommit Hrel. run_calls. by rewrite <- !app_assoc.
Qed.

Lemma cleanup_failure_replaces_outcome_witness :
  let fn : nat -> unit -> result (exn string) Z * unit :=
    fun _ db => (Err (Raised "constraint"%string), db) in
  startSession (BaseDriver := Faulty.rollbackFails) (driverState Faulty.start)
  = (Ok 7%nat, tt)
  /\ fn 7%nat tt = (Err (Raised "constraint"%string), tt)
  /\ rollback (BaseDriver := Faulty.rollbackFails) 7%nat tt
     = (Err (Raised "rollback failed"%string), tt)
  /\ Transaction.withTransaction Faulty.rollbackFails fn Faulty.start
     = (Err (Raised "rollback failed"%string),
        World tt [] [StartSession; Rollback 7%nat; Release 7%nat]).
Proof.
  intros fn. split; [reflexivity|]. split; [reflexivity|]. split; [reflexivity|].
  destruct (cleanup_failure_replaces_outcome Faulty.rollbackFails fn Faulty.start
              7%nat tt eq_refl) as [Hmask _].
  exact (Hmask _ _ _ _ _ eq_refl eq_refl eq_refl).
Defined.

(** ** The unwind stages: composition and sizes *)

Section UnwindMore.
Import Aggregate.

Lemma unwindStages_app p1 :
  forall p2 result,
    unwindStages (p1 ++ p2) result
    = match unwindStages p1 result with
      | Return result' => unwindStages p2 result'
      | TypeError => TypeError
      end.
Proof.
  induction p1 as [|stage p1 IH]; intros p2 result; [done|].
  cbn [app unwindStages]. destruct (unwindPath stage) as [[path|]|]; by rewrite ?IH.
Qed.

Lemma unwind_length path docs :
  length (Spec.unwind path docs)
  = sum_list_with (fun doc => match prop doc path with
                              | VArr vals => length vals
                              | _ => 1%nat
                              end) docs.
Proof.
  unfold Spec.unwind. induction docs as [|doc docs IH]; [done|].
  cbn [flat_map sum_list_with]. rewrite length_app, IH. f_equal.
  unfold Spec.unwound. destruct (prop doc path); try done. by rewrite length_map.
Qed.
End UnwindMore.

(** X14: unwind stages act one after the other in pipeline order: running
    a pipeline is running its first part and then the rest on what the
    first part produced; a stage without a truthy [$unwind] changes
    nothing, and a truthy [$unwind] that is not a string throws a
    TypeError whatever the documents. *)
Theorem unwind_stages_compose
    (p1 p2 : list Document) (stage : Document) (result : list Document) :
  Aggregate.unwindStages (p1 ++ p2) result
  = match Aggregate.unwindStages p1 result with
    | Return result' => Aggregate.unwindStages p2 result'
    | TypeError => TypeError
    end
  /\ (truthy (prop stage "$unwind") = false ->
      Aggregate.unwindStages (stage :: p2) result = Aggregate.unwindStages p2 result)
  /\ (truthy (prop stage "$unwind") = true ->
      (forall s, prop stage "$unwind" <> VStr s) ->
      Aggregate.unwindStages (stage :: p2) result = TypeError).
Proof.
  split; [apply unwindStages_app|]. split.
  - intros Hfalsy. cbn [Aggregate.unwindStages]. unfold Aggregate.unwindPath.
    by rewrite Hfalsy.
  - intros Htruthy Hnot. cbn [Aggregate.unwindStages]. unfold Aggregate.unwindPath.
    rewrite Htruthy. destruct (prop stage "$unwind"); try done. by destruct (Hnot s).
Qed.

(** X15: an unwind stage on a path produces, for each document, as many
    documents as the sequence at the path has elements and one document
    when there is no sequence there; in particular a document whose
    sequence is empty disappears from the result. *)
Theorem unwind_sizes
    (stage : Document) (s : string) (result : list Document) :
  prop stage "$unwind" = VStr s ->
  s <> ""%string ->
  let path := Aggregate.stripDollar s in
  exists out,
    Aggregate.unwindStages [stage] result = Return out
    /\ length out
       = sum_list_with (fun doc => match prop doc path with
                                   | VArr vals => length vals
                                   | _ => 1%nat
                                   end) result
    /\ (Forall (fun doc => prop doc path = VArr []) result -> out = []).
Proof.
  intros Hstage Hs path.
  exists (Spec.unwind path result). split; [|split].
  - cbn [Aggregate.unwindStages]. unfold Aggregate.unwindPath.
    rewrite Hstage. cbn [truthy].
    apply String.eqb_neq in Hs. rewrite Hs. cbn [negb].
    fold path. by rewrite unwindDocs_app.
  - apply unwind_length.
  - unfold Spec.unwind. induction 1 as [|doc docs Hdoc _ IH]; [done|].
    cbn [flat_map]. rewrite IH. unfold Spec.unwound. by rewrite Hdoc.
Qed.

Lemma unwind_sizes_witness :
  prop [("$unwind", VStr "$roles")] "$unwind" = VStr "$roles"
  /\ "$roles"%string <> ""%string
  /\ exists out,
       Aggregate.unwindStages [[("$unwind", VStr "$roles")]]
         [[("id", VNum 1); ("roles", VArr [])];
          [("id", VNum 2); ("roles", VArr [VStr "a"; VStr "b"])];
          [("id", VNum 3)]] = Return out
       /\ length out = 3%nat.
Proof.
  split; [reflexivity|]. split; [discriminate|].
  destruct (unwind_sizes [("$unwind", VStr "$roles")] "$roles"
              [[("id", VNum 1); ("roles", VArr [])];
               [("id", VNum 2); ("roles", VArr [VStr "a"; VStr "b"])];
               [("id", VNum 3)]] eq_refl ltac:(discriminate))
    as (out & Hrun & Hlen & _).
  exists out. split; [exact Hrun | exact Hlen].
Defined.

(** ** The aggregation pipeline *)

Section PipelineFacts.
Import Pipeline.
Variable StringToNumber : string -> string.
Variable dialect : string.

Lemma sortStep_keeps stage acc :
  whereClause (sortStep dialect stage acc) = whereClause acc
  /\ whereParams (sortStep dialect stage acc) = whereParams acc
  /\ groupStage (sortStep dialect stage acc) = groupStage acc.
Proof. unfold sortStep. by case_match. Qed.

Lemma groupStep_keeps stage acc :
  whereClause (groupStep stage acc) = whereClause acc
  /\ whereParams (groupStep stage acc) = whereParams acc
  /\ ((truthy (prop stage "$group") = true \/ is_Some (groupStage acc)) ->
      is_Some (groupStage (groupStep stage acc))).
Proof.
  unfold groupStep. case_match; (split; [done|split; [done|]]); cbn; [eauto|].
  by intros [|].
Qed.

Lemma projectStep_keeps stage acc :
  whereClause (projectStep stage acc) = whereClause acc
  /\ whereParams (projectStep stage acc) = whereParams acc
  /\ groupStage (projectStep stage acc) = groupStage acc.
Proof. unfold projectStep. by case_match. Qed.

Lemma limitStep_keeps stage acc :
  whereClause (limitStep StringToNumber stage acc) = whereClause acc
  /\ whereParams (limitStep StringToNumber stage acc) = whereParams acc
  /\ groupStage (limitStep StringToNumber stage acc) = groupStage acc.
Proof. unfold limitStep. by case_match. Qed.

Lemma skipStep_keeps stage acc :
  whereClause (skipStep StringToNumber stage acc) = whereClause acc
  /\ whereParams (skipStep StringToNumber stage acc) = whereParams acc
  /\ groupStage (skipStep StringToNumber stage acc) = groupStage acc.
Proof. unfold skipStep. by case_match. Qed.

Lemma steps_where stage acc :
  let acc' := skipStep StringToNumber stage
                (limitStep StringToNumber stage
                   (projectStep stage (groupStep stage (sortStep dialect stage acc)))) in
  whereClause acc' = whereClause acc /\ whereParams acc' = whereParams acc.
Proof.
  cbv zeta.
  destruct (skipStep_keeps stage
              (limitStep StringToNumber stage
                 (projectStep stage (groupStep stage (sortStep dialect stage acc)))))
    as (-> & -> & _).
  destruct (limitStep_keeps stage
              (projectStep stage (groupStep stage (sortStep dialect stage acc))))
    as (-> & -> & _).
  destruct (projectStep_keeps stage (groupStep stage (sortStep dialect stage acc)))
    as (-> & -> & _).
  destruct (groupStep_keeps stage (sortStep dialect stage acc)) as (-> & -> & _).
  by destruct (sortStep_keeps stage acc) as (-> & -> & _).
Qed.

Lemma steps_group stage acc :
  let acc' := skipStep StringToNumber stage
                (limitStep StringToNumber stage
                   (projectStep stage (groupStep stage (sortStep dialect stage acc)))) in
  (truthy (prop stage "$group") = true \/ is_Some (groupStage acc)) ->
  is_Some (groupStage acc').
Proof.
  cbv zeta. intros Hg.
  destruct (skipStep_keeps stage
              (limitStep StringToNumber stage
                 (projectStep stage (groupStep stage (sortStep dialect stage acc)))))
    as (_ & _ & ->).
  destruct (limitStep_keeps stage
              (projectStep stage (groupStep stage (sortStep dialect stage acc))))
    as (_ & _ & ->).
  destruct (projectStep_keeps stage (groupStep stage (sortStep dialect stage acc)))
    as (_ & _ & ->).
  destruct (groupStep_keeps stage (sortStep dialect stage acc)) as (_ & _ & Hgroup).
  apply Hgroup. destruct (sortStep_keeps stage acc) as (_ & _ & ->). done.
Qed.

Lemma scanStage_match acc stage clause params :
  truthy (prop stage "$match") = true ->
  Helpers.buildWhereClause (prop stage "$match") dialect = Return (clause, params) ->
  exists acc', scanStage StringToNumber dialect acc stage = Return acc'
               /\ whereClause acc' = clause /\ whereParams acc' = params.
Proof.
  intros Hm Hb. unfold scanStage, matchStep. rewrite Hm, Hb.
  eexists. split; [reflexivity|]. apply steps_where.
Qed.

Lemma scanStage_keeps acc stage :
  truthy (prop stage "$match") = false ->
  exists acc', scanStage StringToNumber dialect acc stage = Return acc'
               /\ whereClause acc' = whereClause acc
               /\ whereParams acc' = whereParams acc.
Proof.
  intros Hm. unfold scanStage, matchStep. rewrite Hm.
  eexists. split; [reflexivity|]. apply steps_where.
Qed.

Lemma scanStages_keeps pipeline :
  forall acc,
    Forall (fun stage => truthy (prop stage "$match") = false) pipeline ->
    exists acc', scanStages StringToNumber dialect pipeline acc = Return acc'
                 /\ whereClause acc' = whereClause acc
                 /\ whereParams acc' = whereParams acc.
Proof.
  induction pipeline as [|stage rest IH]; intros acc Hno.
  - by exists acc.
  - apply Forall_cons in Hno as [Hs Hrest].
    destruct (scanStage_keeps acc stage Hs) as (acc1 & H1 & Hc & Hp).
    destruct (IH acc1 Hrest) as (acc2 & H2 & Hc2 & Hp2).
    exists acc2. cbn [scanStages]. rewrite H1. split; [done|]. split; congruence.
Qed.

Lemma scanStages_app p1 :
  forall p2 acc,
    scanStages StringToNumber dialect (p1 ++ p2) acc
    = match scanStages StringToNumber dialect p1 acc with
      | Return acc' => scanStages StringToNumber dialect p2 acc'
      | TypeError => TypeError
      end.
Proof.
  induction p1 as [|stage p1 IH]; intros p2 acc; [done|].
  cbn [app scanStages]. destruct (scanStage _ _ acc stage); by rewrite ?IH.
Qed.

Lemma scanStage_unsafe acc stage :
  truthy (prop stage "$match") = true ->
  Spec.filterSafe (prop stage "$match") = false ->
  scanStage StringToNumber dialect acc stage = TypeError.
Proof.
  intros Hm Hs. unfold scanStage, matchStep. rewrite Hm.
  pose proof (buildWhereClause_decides dialect (prop stage "$match")) as Hd.
  rewrite Hs in Hd. cbn in Hd. by rewrite Hd.
Qed.

Lemma scanStages_unsafe pipeline stage :
  In stage pipeline ->
  truthy (prop stage "$match") = true ->
  Spec.filterSafe (prop stage "$match") = false ->
  forall acc, scanStages StringToNumber dialect pipeline acc = TypeError.
Proof.
  intros Hin Hm Hs. induction pipeline as [|st rest IH]; intros acc; [done|].
  cbn [scanStages]. destruct Hin as [->|Hin].
  - by rewrite scanStage_unsafe.
  - destruct (scanStage _ _ acc st); [by apply IH|done].
Qed.

Lemma scanStage_group acc stage acc' :
  scanStage StringToNumber dialect acc stage = Return acc' ->
  (truthy (prop stage "$group") = true \/ is_Some (groupStage acc)) ->
  is_Some (groupStage acc').
Proof.
  unfold scanStage. intros Hscan Hg.
  destruct (matchStep dialect stage acc) as [acc1|] eqn:Hm; [|done].
  injection Hscan as <-. apply steps_group.
  destruct Hg as [Hg|Hg]; [by left|right].
  unfold matchStep in Hm. repeat case_match; by simplify_eq.
Qed.

Lemma scanStages_group pipeline :
  forall acc acc',
    scanStages StringToNumber dialect pipeline acc = Return acc' ->
    (Exists (fun stage => truthy (prop stage "$group") = true) pipeline
     \/ is_Some (groupStage acc)) ->
    is_Some (groupStage acc').
Proof.
  induction pipeline as [|stage rest IH]; intros acc acc' Hscan Hg.
  - injection Hscan as <-. destruct Hg as [Hg|]; [|done]. by apply Exists_nil in Hg.
  - cbn [scanStages] in Hscan.
    destruct (scanStage _ _ acc stage) as [acc1|] eqn:H1; [|done].
    apply (IH acc1 acc' Hscan).
    destruct Hg as [Hg|Hg].
    + apply Exists_cons in Hg as [Hg|Hg]; [right|by left].
      eapply scanStage_group; eauto.
    + right. eapply scanStage_group; eauto.
Qed.

Lemma project_fold doc k entries :
  forall projected,
    prop (fold_left (fun projected kv =>
                       if truthy kv.2 then setProp projected kv.1 (prop doc kv.1)
                       else projected) entries projected) k
    = if existsb (fun kv => String.eqb kv.1 k && truthy kv.2) entries
      then prop doc k else prop projected k.
Proof.
  induction entries as [|[k' v] entries IH]; intros projected; [done|].
  cbn [fold_left existsb fst snd]. rewrite IH.
  destruct (existsb _ entries); [by rewrite orb_true_r|]. rewrite orb_false_r.
  destruct (truthy v); [|by rewrite andb_false_r].
  rewrite andb_true_r. destruct (String.eqb_spec k' k) as [->|Hne].
  - apply prop_setProp_eq.
  - by apply prop_setProp_ne.
Qed.

Lemma project_ext doc doc' entries :
  Forall (fun kv => truthy kv.2 = true -> prop doc kv.1 = prop doc' kv.1) entries ->
  forall projected,
    fold_left (fun projected kv =>
                 if truthy kv.2 then setProp projected kv.1 (prop doc kv.1)
                 else projected) entries projected
    = fold_left (fun projected kv =>
                   if truthy kv.2 then setProp projected kv.1 (prop doc' kv.1)
                   else projected) entries projected.
Proof.
  induction 1 as [|[k v] entries Hkv _ IH]; intros projected; [done|].
  cbn [fold_left fst snd]. cbn in Hkv.
  destruct (truthy v); [|apply IH]. rewrite (Hkv eq_refl). apply IH.
Qed.

Lemma unwind_without_array path docs :
  Forall (fun doc => isArray (prop doc path) = false) docs ->
  Aggregate.unwindDocs path docs [] = docs.
Proof.
  intros Hdocs. rewrite unwindDocs_app. cbn [app].
  induction Hdocs as [|doc docs Hdoc _ IH]; [done|].
  unfold Spec.unwind in *. cbn [flat_map]. unfold Spec.unwound at 1.
  destruct (prop doc path); try done; cbn [app]; by rewrite IH.
Qed.

Section WithDriver.
Context {W Ses E : Type} (driver : BaseDriver W Ses E).
Variable JSON_parse : value -> option Document.

Lemma parseRows_world rows (w : world W Ses) :
  (Crud.parseRows (E := E) JSON_parse rows w).2 = w.
Proof.
  revert w. induction rows as [|r rows IH]; intros w; [done|].
  cbn [Crud.parseRows]. destruct (JSON_parse (prop r "data")); [|done].
  unfold bind. specialize (IH w).
  destruct (Crud.parseRows JSON_parse rows w) as [[docs|e] w']; cbn in *; by subst.
Qed.

Lemma aggregate_calls collection pipeline acc (w : world W Ses) :
  scanStages StringToNumber getDialect pipeline noStages = Return acc ->
  calls (aggregate StringToNumber driver JSON_parse collection pipeline w).2
  = calls w
    ++ [Query (match groupStage acc with
               | Some g => groupSql collection g acc
               | None => defaultSql collection acc
               end) (whereParams acc)].
Proof.
  intros Hscan. unfold aggregate, bind at 1. rewrite Hscan. cbn [ofOutcome ret].
  destruct (groupStage acc) as [g|].
  - unfold bind, Crud.driver_query, invoke, ret.
    by destruct (query _ _ _) as [[rows|e] d].
  - unfold bind at 1, Crud.driver_query, invoke.
    destruct (query _ _ _) as [[rows|e] d]; [|done].
    unfold bind.
    pose proof (parseRows_world rows
                  (World d (jsHeap w)
                     (calls w ++ [Query (defaultSql collection acc) (whereParams acc)])))
      as Hw.
    destruct (Crud.parseRows JSON_parse rows _) as [[docs|e] w']; cbn in Hw; subst w';
      [|done].
    by destruct (Aggregate.unwindStages pipeline _).
Qed.
End WithDriver.
End PipelineFacts.



(** X17 ([aggregate], the stage loop). A truthy [$match] that
    [buildWhereClause] cannot compile makes [aggregate] throw a
    [TypeError] before any statement is sent, also when a later match
    stage would have replaced it. *)
Theorem unsafe_match_stage_throws_before_query
    {W Ses E : Type} (driver : BaseDriver W Ses E)
    (StringToNumber : string -> string) (JSON_parse : value -> option Document)
    (collection : string) (pipeline : list Document) (stage : Document)
    (w : world W Ses) :
  In stage pipeline ->
  truthy (prop stage "$match") = true ->
  Spec.filterSafe (prop stage "$match") = false ->
  Pipeline.aggregate StringToNumber driver JSON_parse collection pipeline w
  = (Err JsTypeError, w).
Proof.
  intros Hin Hm Hs. unfold Pipeline.aggregate, bind.
  by rewrite (scanStages_unsafe StringToNumber getDialect pipeline stage Hin Hm Hs).
Qed.

Lemma unsafe_match_stage_throws_before_query_witness :
  Pipeline.aggregate (fun s => s) Run.scripted Run.parsed "users"
    [[("$match", VObj [("age", VObj [("$in", VNum 3)])])];
     [("$match", VObj [("age", VNum 30)])]]
    (Run.start ["users"] [[]])
  = (Err JsTypeError, Run.start ["users"] [[]]).
Proof.
  apply (unsafe_match_stage_throws_before_query Run.scripted (fun s => s) Run.parsed
           "users" _ [("$match", VObj [("age", VObj [("$in", VNum 3)])])]).
  - left. reflexivity.
  - reflexivity.
  - reflexivity.
Defined.

(** X18 ([aggregate], the group branch). As soon as one stage has a
    truthy [$group], [aggregate] sends the grouping statement and hands
    back the driver's answer as it is: rows are not decoded, and the
    project and unwind stages of the pipeline are not applied. A failure
    of the driver is passed on unchanged. *)
Theorem group_stage_returns_driver_rows
    {W Ses E : Type} (driver : BaseDriver W Ses E)
    (StringToNumber : string -> string) (JSON_parse : value -> option Document)
    (collection : string) (pipeline : list Document) (acc : Pipeline.stages)
    (w : world W Ses) :
  Exists (fun stage => truthy (prop stage "$group") = true) pipeline ->
  Pipeline.scanStages StringToNumber getDialect pipeline Pipeline.noStages
    = Return acc ->
  exists g,
    Pipeline.groupStage acc = Some g
    /\ Pipeline.aggregate StringToNumber driver JSON_parse collection pipeline w
       = (let '(r, d) := query (Pipeline.groupSql collection g acc)
                           (Pipeline.whereParams acc) (driverState w) in
          (r, World d (jsHeap w)
                (calls w ++ [Query (Pipeline.groupSql collection g acc)
                               (Pipeline.whereParams acc)]))).
Proof.
  intros Hgroup Hscan.
  destruct (scanStages_group StringToNumber getDialect pipeline _ acc Hscan
              (or_introl Hgroup)) as [g Hg].
  exists g. split; [done|].
  unfold Pipeline.aggregate, bind at 1. rewrite Hscan. cbn [ofOutcome ret]. rewrite Hg.
  unfold bind, Crud.driver_query, invoke, ret.
  by destruct (query _ _ _) as [[rows|e] d].
Qed.

Lemma group_stage_returns_driver_rows_witness :
  exists g,
    Pipeline.groupStage
      (Pipeline.Stages
         (Some (VObj [("_id", VStr "city"); ("n", VObj [("$sum", VStr "amount")])]))
         (Some (VObj [("city", VNum 1)])) "" [] "" "" "") = Some g
    /\ Pipeline.aggregate (fun s => s) Run.scripted Run.parsed "orders"
         [[("$group", VObj [("_id", VStr "city"); ("n", VObj [("$sum", VStr "amount")])])];
          [("$project", VObj [("city", VNum 1)])];
          [("$unwind", VStr "$tags")]]
         (Run.start [] [[[("_id", VStr "Oslo"); ("n", VNum 3)]]])
       = (let '(r, d) :=
            @query _ _ _ Run.scripted (Pipeline.groupSql "orders" g
                     (Pipeline.Stages
                        (Some (VObj [("_id", VStr "city");
                                     ("n", VObj [("$sum", VStr "amount")])]))
                        (Some (VObj [("city", VNum 1)])) "" [] "" "" ""))
                  [] (driverState (Run.start [] [[[("_id", VStr "Oslo"); ("n", VNum 3)]]])) in
          (r, World d (jsHeap (Run.start [] [[[("_id", VStr "Oslo"); ("n", VNum 3)]]]))
                (calls (Run.start [] [[[("_id", VStr "Oslo"); ("n", VNum 3)]]])
                 ++ [Query (Pipeline.groupSql "orders" g
                              (Pipeline.Stages
                                 (Some (VObj [("_id", VStr "city");
                                              ("n", VObj [("$sum", VStr "amount")])]))
                                 (Some (VObj [("city", VNum 1)])) "" [] "" "" ""))
                       []]))).
Proof.
  apply (group_stage_returns_driver_rows Run.scripted (fun s => s) Run.parsed "orders"
           [[("$group", VObj [("_id", VStr "city"); ("n", VObj [("$sum", VStr "amount")])])];
            [("$project", VObj [("city", VNum 1)])];
            [("$unwind", VStr "$tags")]]).
  - left. reflexivity.
  - reflexivity.
Defined.

(** X19 ([aggregate], the project stage). For a stage that flags no
    name every object inherits, a projected document holds the
    document's value at every key whose flag in the stage is truthy
    ([undefined] where the document has no such key) and nothing at any
    other key; projecting the outcome again changes nothing. *)
Theorem projection_keeps_flagged_keys
    (projectStage : value) (doc : Document) :
  Projected.flagsOwn projectStage = true ->
  (forall k,
     prop (Pipeline.project projectStage doc) k
     = if Pipeline.kept projectStage k then prop doc k else VUndef)
  /\ Pipeline.project projectStage (Pipeline.project projectStage doc)
     = Pipeline.project projectStage doc.
Proof.
  intros _. split.
  - intros k. unfold Pipeline.project, Pipeline.kept. by rewrite project_fold.
  - unfold Pipeline.project at 1 3. apply project_ext.
    apply Forall_forall. intros [k v] Hin Hv. cbn [fst snd] in *.
    unfold Pipeline.project. rewrite project_fold.
    replace (existsb _ _) with true; [done|].
    symmetry. apply existsb_exists. exists (k, v).
    split; [by apply list_elem_of_In|]. cbn. by rewrite String.eqb_refl, Hv.
Qed.

Lemma projection_keeps_flagged_keys_witness :
  Projected.flagsOwn (VObj [("name", VNum 1); ("age", VNum 0); ("zip", VBool true)])
  = true
  /\ Pipeline.project (VObj [("name", VNum 1); ("age", VNum 0); ("zip", VBool true)])
       [("age", VNum 30); ("name", VStr "Ann")]
     = [("name", VStr "Ann"); ("zip", VUndef)]
  /\ ((forall k,
         prop (Pipeline.project
                 (VObj [("name", VNum 1); ("age", VNum 0); ("zip", VBool true)])
                 [("age", VNum 30); ("name", VStr "Ann")]) k
         = if Pipeline.kept
                (VObj [("name", VNum 1); ("age", VNum 0); ("zip", VBool true)]) k
           then prop [("age", VNum 30); ("name", VStr "Ann")] k
           else VUndef)
      /\ Pipeline.project
           (VObj [("name", VNum 1); ("age", VNum 0); ("zip", VBool true)])
           (Pipeline.project
              (VObj [("name", VNum 1); ("age", VNum 0); ("zip", VBool true)])
              [("age", VNum 30); ("name", VStr "Ann")])
         = Pipeline.project
             (VObj [("name", VNum 1); ("age", VNum 0); ("zip", VBool true)])
             [("age", VNum 30); ("name", VStr "Ann")]).
Proof.
  split; [reflexivity|]. split; [reflexivity|].
  apply (projection_keeps_flagged_keys
           (VObj [("name", VNum 1); ("age", VNum 0); ("zip", VBool true)])).
  reflexivity.
Defined.

Section ProjectThenUnwind.
Import Pipeline.

Lemma unwindDocs_dropped projectStage path docs :
  kept projectStage path = false ->
  Aggregate.unwindDocs path (map (project projectStage) docs) []
  = map (project projectStage) docs.
Proof.
  intros Hkept. apply unwind_without_array.
  apply Forall_map, Forall_forall. intros doc _. cbn.
  unfold project. rewrite project_fold.
  unfold kept in Hkept. by rewrite Hkept.
Qed.

Lemma unwindStages_dropped projectStage pipeline docs :
  Projected.unwindsDropped projectStage pipeline = true ->
  Aggregate.unwindStages pipeline (map (project projectStage) docs)
  = Return (map (project projectStage) docs).
Proof.
  induction pipeline as [|stage pipeline IH]; [done|].
  cbn [Projected.unwindsDropped forallb Aggregate.unwindStages].
  intros Hdropped. apply andb_prop in Hdropped as [Hstage Hrest].
  destruct (Aggregate.unwindPath stage) as [[path|]|]; [| |done].
  - apply negb_true_iff in Hstage. rewrite (unwindDocs_dropped _ _ _ Hstage).
    by apply IH.
  - by apply IH.
Qed.
End ProjectThenUnwind.

(** X20 ([aggregate], project then unwind). Without a group stage
    [aggregate] decodes the rows, projects every document and only then
    runs the unwind stages, on the projected documents, wherever the
    stages stand in the pipeline. So when every unwind stage names a
    path that the project stage does not keep, nothing is unwound and
    the result is the projected documents, also for a pipeline whose
    unwind stage comes before its project stage. The project stage
    flags no name every object inherits. *)
Theorem unwind_of_dropped_path_is_identity
    {W Ses E : Type} (driver : BaseDriver W Ses E)
    (StringToNumber : string -> string) (JSON_parse : value -> option Document)
    (collection : string) (pipeline : list Document) (acc : Pipeline.stages)
    (projectStage : value) (w : world W Ses)
    (rows docs : list Document) (d : W) :
  Pipeline.scanStages StringToNumber getDialect pipeline Pipeline.noStages
    = Return acc ->
  Pipeline.groupStage acc = None ->
  Pipeline.projectStage acc = Some projectStage ->
  Projected.flagsOwn projectStage = true ->
  query (Pipeline.defaultSql collection acc) (Pipeline.whereParams acc) (driverState w)
    = (Ok rows, d) ->
  mapM (fun r => JSON_parse (prop r "data")) rows = Some docs ->
  Pipeline.aggregate StringToNumber driver JSON_parse collection pipeline w
  = (match Aggregate.unwindStages pipeline
             (map (Pipeline.project projectStage) docs) with
     | Return result => Ok result
     | TypeError => Err JsTypeError
     end,
     World d (jsHeap w)
       (calls w ++ [Query (Pipeline.defaultSql collection acc)
                      (Pipeline.whereParams acc)]))
  /\ (Projected.unwindsDropped projectStage pipeline = true ->
      Pipeline.aggregate StringToNumber driver JSON_parse collection pipeline w
      = (Ok (map (Pipeline.project projectStage) docs),
         World d (jsHeap w)
           (calls w ++ [Query (Pipeline.defaultSql collection acc)
                          (Pipeline.whereParams acc)]))).
Proof.
  intros Hscan Hgroup Hproject _ Hquery Hdocs.
  assert (Hrun :
            Pipeline.aggregate StringToNumber driver JSON_parse collection pipeline w
            = (match Aggregate.unwindStages pipeline
                       (map (Pipeline.project projectStage) docs) with
               | Return result => Ok result
               | TypeError => Err JsTypeError
               end,
               World d (jsHeap w)
                 (calls w ++ [Query (Pipeline.defaultSql collection acc)
                                (Pipeline.whereParams acc)]))).
  { unfold Pipeline.aggregate, bind at 1. rewrite Hscan. cbn [ofOutcome ret].
    rewrite Hgroup. unfold bind at 1, Crud.driver_query, invoke. rewrite Hquery.
    unfold bind. rewrite (parseRows_decoded JSON_parse rows docs _ Hdocs).
    rewrite Hproject.
    by destruct (Aggregate.unwindStages pipeline _). }
  split; [exact Hrun|].
  intros Hdropped. by rewrite Hrun, (unwindStages_dropped _ _ _ Hdropped).
Qed.

Lemma unwind_of_dropped_path_is_identity_witness :
  Pipeline.aggregate (fun s => s) Run.scripted Run.parsed "users"
    [[("$unwind", VStr "$tags")]; [("$project", VObj [("name", VNum 1)])]]
    (Run.start []
       [[[("data", VObj [("name", VStr "Ann"); ("tags", VArr [VStr "a"; VStr "b"])])]]])
  = (Ok (map (Pipeline.project (VObj [("name", VNum 1)]))
           [[("name", VStr "Ann"); ("tags", VArr [VStr "a"; VStr "b"])]]),
     World (Run.Script [] []) []
       ([] ++ [Query (Pipeline.defaultSql "users"
                        (Pipeline.Stages None (Some (VObj [("name", VNum 1)]))
                           "" [] "" "" ""))
                 []])).
Proof.
  destruct (unwind_of_dropped_path_is_identity Run.scripted (fun s => s) Run.parsed
              "users"
              [[("$unwind", VStr "$tags")]; [("$project", VObj [("name", VNum 1)])]]
              (Pipeline.Stages None (Some (VObj [("name", VNum 1)])) "" [] "" "" "")
              (VObj [("name", VNum 1)])
              (Run.start []
                 [[[("data", VObj [("name", VStr "Ann");
                                   ("tags", VArr [VStr "a"; VStr "b"])])]]])
              [[("data", VObj [("name", VStr "Ann"); ("tags", VArr [VStr "a"; VStr "b"])])]]
              [[("name", VStr "Ann"); ("tags", VArr [VStr "a"; VStr "b"])]]
              (Run.Script [] [])
              eq_refl eq_refl eq_refl eq_refl eq_refl eq_refl) as [_ Hdropped].
  exact (Hdropped eq_refl).
Defined.

(** ** Schemas and the registry of collections *)

Section SchemaFacts.
Import Schema.

Lemma prop_absent (doc : Document) k :
  k ∉ map fst doc -> prop doc k = VUndef.
Proof.
  induction doc as [|[k' v] doc IH]; [done|]. cbn. intros Hk.
  apply not_elem_of_cons in Hk as [Hne Hk].
  destruct (String.eqb_spec k' k) as [->|_]; [done|]. by apply IH.
Qed.

Lemma inferStep_required doc :
  forall schema,
    (fold_left inferStep doc schema).2 = schema.2 ++ map (fun kv => VStr kv.1) doc.
Proof.
  induction doc as [|kv doc IH]; intros schema; cbn [fold_left map].
  - by rewrite app_nil_r.
  - rewrite IH. cbn. by rewrite <- app_assoc.
Qed.

Lemma inferStep_properties doc k :
  NoDup (map fst doc) ->
  forall schema,
    prop (fold_left inferStep doc schema).1 k
    = match typeName (prop doc k) with
      | Some t => VObj [("type", VStr t)]
      | None => prop schema.1 k
      end.
Proof.
  induction doc as [|[k' v] doc IH]; intros Hdup schema; [done|].
  cbn [map fst] in Hdup. apply NoDup_cons in Hdup as [Hk' Hdup].
  cbn [fold_left prop]. rewrite (IH Hdup).
  destruct (String.eqb_spec k' k) as [->|Hne].
  - rewrite (prop_absent doc k Hk'). cbn.
    destruct (typeName v); [apply prop_setProp_eq|done].
  - destruct (typeName (prop doc k)); [done|]. cbn.
    destruct (typeName v); [by apply prop_setProp_ne|done].
Qed.
End SchemaFacts.



(** X22 ([dropCollection], [validateCollectionDoc]). Once the driver
    has dropped the table, the collection's validator is gone and every
    document is valid for it, while the validators of all other
    collections stay; when the driver fails to drop the table the
    registry is left as it was, so the old validator still applies. *)
Theorem dropped_collection_accepts_every_document
    {W Ses E : Type} (tables : TableDriver W E)
    (name : string) (s : library W Ses) :
  (forall d,
      dropTable name (backend s) = (Ok tt, d) ->
      exists s',
        Collection.dropCollection (E := E) tables name s = (Ok tt, s')
        /\ requests s' = requests s ++ [DropTable name]
        /\ (forall doc,
              Collection.validateCollectionDoc (collectionSchemas s') name doc = true)
        /\ (forall other doc,
              other <> name ->
              Collection.validateCollectionDoc (collectionSchemas s') other doc
              = Collection.validateCollectionDoc (collectionSchemas s) other doc))
  /\ (forall e d,
         dropTable name (backend s) = (Err e, d) ->
         Collection.dropCollection (E := E) tables name s
         = (Err e, Library d (collectionSchemas s) (requests s ++ [DropTable name]))).
Proof.
  unfold Collection.dropCollection, Steps.bind, ask, register. split.
  - intros d Hdrop. rewrite Hdrop. eexists. split; [reflexivity|]. cbn.
    split; [done|]. unfold Collection.validateCollectionDoc. split.
    + intros doc. by rewrite lookup_delete_eq.
    + intros other doc Hne. by rewrite lookup_delete_ne.
  - intros e d Hdrop. by rewrite Hdrop.
Qed.

Lemma dropped_collection_accepts_every_document_witness :
  exists s',
    Collection.dropCollection (Postgres.asTables Scripted.pool) "users"
      (Library (Scripted.fresh [])
         (<["users" := fun _ => false]> ∅) ([] : list (request nat)))
    = (Ok tt, s')
    /\ Collection.validateCollectionDoc (collectionSchemas s') "users" (VNum 3) = true.
Proof.
  destruct (dropped_collection_accepts_every_document
              (Postgres.asTables Scripted.pool) "users"
              (Library (Scripted.fresh [])
                 (<["users" := fun _ => false]> ∅) ([] : list (request nat))))
    as [Hdrop _].
  destruct (Hdrop _ eq_refl) as (s' & Hrun & _ & Hvalid & _).
  exists s'. split; [exact Hrun|apply Hvalid].
Defined.

(** X23 ([createCollection], [registerInferredSchema]). Creating a
    collection without a schema leaves the registry untouched, so a
    validator registered under the name before still applies; with a
    schema that does not compile the table has been created all the same
    and the registry is unchanged; with one that compiles, and after
    [registerInferredSchema], the new validator decides, and no other
    collection is affected. *)
Theorem created_collection_and_its_validator
    {W Ses E : Type} (tables : TableDriver W E)
    (compileSchema : value -> result (exn E) ValidateFunction)
    (name : string) (s : library W Ses) (d : W) :
  createTable name (VObj []) (backend s) = (Ok tt, d) ->
  Collection.createCollection (E := E) tables compileSchema name None s
  = (Ok name, Library d (collectionSchemas s) (requests s ++ [CreateTable name (VObj [])]))
  /\ (forall schema e,
         truthy schema = true ->
         compileSchema schema = Err e ->
         Collection.createCollection tables compileSchema name (Some schema) s
         = (Err e, Library d (collectionSchemas s)
                     (requests s ++ [CreateTable name (VObj [])])))
  /\ (forall schema validator,
         truthy schema = true ->
         compileSchema schema = Ok validator ->
         exists s',
           Collection.createCollection tables compileSchema name (Some schema) s
           = (Ok name, s')
           /\ (forall doc,
                 Collection.validateCollectionDoc (collectionSchemas s') name doc
                 = validator doc)
           /\ (forall other doc,
                 other <> name ->
                 Collection.validateCollectionDoc (collectionSchemas s') other doc
                 = Collection.validateCollectionDoc (collectionSchemas s) other doc))
  /\ (forall doc validator,
         compileSchema (VObj (Schema.inferSchema doc)) = Ok validator ->
         exists s',
           Collection.registerInferredSchema (W := W) compileSchema name doc s
           = (Ok tt, s')
           /\ requests s' = requests s
           /\ (forall sample,
                 Collection.validateCollectionDoc (collectionSchemas s') name sample
                 = validator sample)
           /\ (forall other sample,
                 other <> name ->
                 Collection.validateCollectionDoc (collectionSchemas s') other sample
                 = Collection.validateCollectionDoc (collectionSchemas s) other sample)).
Proof.
  intros Hcreate.
  unfold Collection.createCollection, Collection.registerInferredSchema, Steps.bind,
    Steps.ret, ask, register, sync, Collection.validateCollectionDoc, Schema.validateDoc.
  rewrite Hcreate. split; [done|]. split; [|split].
  - intros schema e -> ->. done.
  - intros schema validator -> ->. eexists. split; [reflexivity|]. cbn. split.
    + intros doc. by rewrite lookup_insert_eq.
    + intros other doc Hne. by rewrite lookup_insert_ne.
  - intros doc validator ->. eexists. split; [reflexivity|]. cbn. split; [done|]. split.
    + intros sample. by rewrite lookup_insert_eq.
    + intros other sample Hne. by rewrite lookup_insert_ne.
Qed.

Lemma created_collection_and_its_validator_witness :
  Collection.createCollection (Postgres.asTables Scripted.pool) Scripted.compileSchema
    "users" None
    (Library (Scripted.fresh []) (<["users" := fun _ => false]> ∅)
       ([] : list (request nat)))
  = (Ok "users"%string,
     Library
       (Postgres.PoolState []
          [Postgres.PoolQuery
             ("CREATE TABLE IF NOT EXISTS " +:+ Pipeline.dq +:+ "users" +:+ Pipeline.dq
              +:+ " (id SERIAL PRIMARY KEY, data JSONB)") (Some [])])
       (<["users" := fun _ => false]> ∅)
       ([] ++ [CreateTable "users" (VObj [])])).
Proof.
  destruct (created_collection_and_its_validator
              (Postgres.asTables Scripted.pool) Scripted.compileSchema "users"
              (Library (Scripted.fresh []) (<["users" := fun _ => false]> ∅)
                 ([] : list (request nat)))
              (Postgres.PoolState []
                 [Postgres.PoolQuery
                    ("CREATE TABLE IF NOT EXISTS " +:+ Pipeline.dq +:+ "users"
                     +:+ Pipeline.dq +:+ " (id SERIAL PRIMARY KEY, data JSONB)")
                    (Some [])])
              eq_refl) as [Hrun _].
  exact Hrun.
Defined.

(** ** The insert verbs *)

Section InsertFacts.
Import Insert.

Lemma count_valueGroups (docs : list Document) :
  Spec.placeholderCount (valueGroups docs) = length docs.
Proof.
  unfold valueGroups. rewrite count_concat by reflexivity.
  induction docs as [|doc docs IH]; [done|]. cbn [map sum_list_with]. by rewrite IH.
Qed.

Lemma consecutiveIds_length (insertId : value) (n : nat) :
  length (consecutiveIds insertId n) = if truthy insertId then n else 0%nat.
Proof.
  unfold consecutiveIds.
  destruct insertId as [| |[]|z|s| |]; cbn [truthy negb]; try done;
    rewrite ?length_map, ?length_seq; try done.
  - destruct (z =? 0); cbn; by rewrite ?length_map, ?length_seq.
  - destruct (String.eqb s ""); cbn; by rewrite ?length_map, ?length_seq.
Qed.
End InsertFacts.

(** X24 ([insertOne]). The table is created exactly when the driver
    says it is missing, with the document as the schema argument, and
    only then is the one insert statement sent, its only parameter the
    serialized document; the result hands back the document and the
    driver's [insertId], or [null] when that is falsy. When creating the
    table fails, no insert is sent. *)
Theorem insertOne_creates_missing_table
    {W Ses E : Type} (driver : BaseDriver W Ses E) (tables : TableDriver W E)
    (JSON_stringify : value -> string) (insertIdOf : list Document -> value)
    (collection : string) (doc : Document) (s : library W Ses)
    (present : bool) (d1 : W) :
  tableExists collection (backend s) = (Ok present, d1) ->
  (forall d2 d3 rows,
      (if present then (Ok tt, d1) else createTable collection (VObj doc) d1)
      = (Ok tt, d2) ->
      query ("INSERT INTO `" +:+ collection +:+ "` (data) VALUES (?)")
            [VStr (JSON_stringify (VObj doc))] d2 = (Ok rows, d3) ->
      Insert.insertOne driver tables JSON_stringify insertIdOf collection doc s
      = (Ok {| Insert.acknowledged := true;
               Insert.insertedId := if truthy (insertIdOf rows) then insertIdOf rows
                                    else VNull;
               Insert.inserted := doc |},
         Library d3 (collectionSchemas s)
           (requests s
            ++ Verb (TableExists collection)
               :: (if present then [] else [CreateTable collection (VObj doc)])
            ++ [Verb (Query ("INSERT INTO `" +:+ collection +:+ "` (data) VALUES (?)")
                            [VStr (JSON_stringify (VObj doc))])])))
  /\ (forall e d2,
         present = false ->
         createTable collection (VObj doc) d1 = (Err e, d2) ->
         Insert.insertOne driver tables JSON_stringify insertIdOf collection doc s
         = (Err e, Library d2 (collectionSchemas s)
                     (requests s ++ [Verb (TableExists collection);
                                     CreateTable collection (VObj doc)]))).
Proof.
  intros Hcheck.
  unfold Insert.insertOne, Insert.ensureTable, Steps.bind, Steps.ret, ask.
  cbn [backend collectionSchemas requests]. rewrite Hcheck. split.
  - intros d2 d3 rows Hcreate Hquery. destruct present; cbn [negb] in *.
    + injection Hcreate as <-. cbn. rewrite Hquery.
      by rewrite <- !app_assoc.
    + cbn. rewrite Hcreate. cbn. rewrite Hquery. by rewrite <- !app_assoc.
  - intros e d2 -> Hcreate. cbn. rewrite Hcreate. by rewrite <- !app_assoc.
Qed.

Lemma insertOne_creates_missing_table_witness :
  Insert.insertOne (Postgres.asBase Scripted.pool) (Postgres.asTables Scripted.pool)
    (fun _ => "{}"%string) (fun _ => VUndef) "users" [("name", VStr "Ann")]
    (Scripted.library [Scripted.Rows []])
  = (Ok {| Insert.acknowledged := true;
           Insert.insertedId := VNull;
           Insert.inserted := [("name", VStr "Ann")] |},
     Library
       (Postgres.PoolState []
          [Postgres.PoolQuery "SELECT to_regclass($1) as exists" (Some [VStr "users"]);
           Postgres.PoolQuery
             ("CREATE TABLE IF NOT EXISTS " +:+ Pipeline.dq +:+ "users" +:+ Pipeline.dq
              +:+ " (id SERIAL PRIMARY KEY, data JSONB)") (Some []);
           Postgres.PoolQuery "INSERT INTO `users` (data) VALUES (?)" (Some [VStr "{}"])])
       ∅
       [Verb (TableExists "users"); CreateTable "users" (VObj [("name", VStr "Ann")]);
        Verb (Query "INSERT INTO `users` (data) VALUES (?)" [VStr "{}"])]).
Proof.
  destruct (insertOne_creates_missing_table
              (Postgres.asBase Scripted.pool) (Postgres.asTables Scripted.pool)
              (fun _ => "{}"%string) (fun _ => VUndef) "users" [("name", VStr "Ann")]
              (Scripted.library [Scripted.Rows []]) false
              (Postgres.PoolState []
                 [Postgres.PoolQuery "SELECT to_regclass($1) as exists"
                    (Some [VStr "users"])])
              eq_refl) as [Hrun _].
  exact (Hrun _ _ [] eq_refl eq_refl).
Defined.



(** ** Savepoints *)

(** X26 ([withSavepoint]). When the savepoint cannot be created the
    work is not run and nothing else is asked of the driver. Otherwise
    the work runs once. If it returns, the savepoint is released, and
    when that succeeds its result is returned; when the release fails
    the savepoint is rolled back as well, and the failure raised is
    that of the rollback if it fails too, that of the release
    otherwise. If the work raises, the savepoint is rolled back, not
    released, and the failure raised is that of the rollback if it
    fails, that of the work otherwise. *)
Theorem savepoint_is_released_or_rolled_back
    {W Ses E T : Type} (driver : SavepointDriver W Ses E)
    (fn : Ses -> W -> result (exn E) T * W) (session : Ses) (name : string)
    (s : library W Ses) :
  (forall e d1,
      createSavepoint session name (backend s) = (Err e, d1) ->
      Savepoint.withSavepoint driver session fn name s
      = (Err e, Library d1 (collectionSchemas s)
                  (requests s ++ [CreateSavepoint session name])))
  /\ (forall d1,
         createSavepoint session name (backend s) = (Ok tt, d1) ->
         (forall r d2 d3,
             fn session d1 = (Ok r, d2) ->
             releaseSavepoint session name d2 = (Ok tt, d3) ->
             Savepoint.withSavepoint driver session fn name s
             = (Ok r, Library d3 (collectionSchemas s)
                        (requests s ++ [CreateSavepoint session name;
                                        ReleaseSavepoint session name])))
         /\ (forall r e d2 d3 rolled d4,
                fn session d1 = (Ok r, d2) ->
                releaseSavepoint session name d2 = (Err e, d3) ->
                rollbackToSavepoint session name d3 = (rolled, d4) ->
                Savepoint.withSavepoint driver session fn name s
                = (Err (lastFailure e [rolled]),
                   Library d4 (collectionSchemas s)
                     (requests s ++ [CreateSavepoint session name;
                                     ReleaseSavepoint session name;
                                     RollbackToSavepoint session name])))
         /\ (forall e d2 rolled d3,
                fn session d1 = (Err e, d2) ->
                rollbackToSavepoint session name d2 = (rolled, d3) ->
                Savepoint.withSavepoint driver session fn name s
                = (Err (lastFailure e [rolled]),
                   Library d3 (collectionSchemas s)
                     (requests s ++ [CreateSavepoint session name;
                                     RollbackToSavepoint session name])))).
Proof.
  unfold Savepoint.withSavepoint, Steps.tryCatch, Steps.bind, Steps.ret, Steps.throw,
    ask, work.
  split; [|intros d1 Hcreate; split; [|split]]; intros;
    repeat (cbn [backend collectionSchemas requests];
            match goal with
            | H : _ = (_, _) |- _ => rewrite H
            end);
    try match goal with
        | rolled : result _ unit |- _ => destruct rolled as [[]|?]
        end;
    by rewrite <- ?app_assoc.
Qed.

Lemma savepoint_is_released_or_rolled_back_witness :
  Savepoint.withSavepoint (Postgres.asSavepoints Scripted.pool) 1%nat
    (fun _ d => (Ok 42, d)) "sp1"
    (Scripted.library [Scripted.Rows []; Scripted.Fails "gone"; Scripted.Fails "lost"])
  = (Err (Raised (Errors.Native "lost"%string)),
     Library
       (Postgres.PoolState []
          [Postgres.ClientQuery 1%nat "SAVEPOINT sp1" None;
           Postgres.ClientQuery 1%nat "RELEASE SAVEPOINT sp1" None;
           Postgres.ClientQuery 1%nat "ROLLBACK TO SAVEPOINT sp1" None])
       ∅
       ([] ++ [CreateSavepoint 1%nat "sp1"; ReleaseSavepoint 1%nat "sp1";
               RollbackToSavepoint 1%nat "sp1"])).
Proof.
  destruct (savepoint_is_released_or_rolled_back
              (Postgres.asSavepoints Scripted.pool)
              (fun (_ : nat) d => (Ok 42, d)) 1%nat "sp1"
              (Scripted.library
                 [Scripted.Rows []; Scripted.Fails "gone"; Scripted.Fails "lost"]))
    as [_ Hcreated].
  destruct (Hcreated _ eq_refl) as (_ & Hrelease & _).
  exact (Hrelease 42 _ _ _ _ _ eq_refl eq_refl eq_refl).
Defined.

(** ** The PostgreSQL driver *)

Section PostgresFacts.
Import Postgres Errors.
Context {P C X : Type} (pg : Pool P C X).

Lemma query_failed sql params session (s s' : poolState P C) e :
  query pg sql params session s = (Err e, s') -> queryFailed e.
Proof.
  unfold query, onPool. intros Hq.
  destruct session as [client|].
  - destruct (client_query _ _ _ _) as [[rows|x] p]; [done|].
    injection Hq as <- _. by exists x.
  - destruct (pool_query _ _ _) as [[rows|x] p]; [done|].
    injection Hq as <- _. by exists x.
Qed.

Lemma query_trace sql params (s : poolState P C) :
  exists op,
    onThePool op = true /\ trace (query pg sql params None s).2 = trace s ++ [op].
Proof.
  unfold query, onPool. eexists (PoolQuery sql _). split; [done|].
  by destruct (pool_query _ _ _) as [[rows|x] p].
Qed.

Lemma then_failed {A B} (m : @Steps.steps (poolState P C) (thrown X) A) (f : A -> B)
    (Q : exn (thrown X) -> Prop) s s' e :
  (forall s s' e, m s = (Err e, s') -> Q e) ->
  Steps.bind m (fun a => Steps.ret (f a)) s = (Err e, s') -> Q e.
Proof.
  intros Hm. unfold Steps.bind, Steps.ret.
  destruct (m s) as [[a|e'] s''] eqn:Hrun; [done|].
  intros [= <- _]. eauto.
Qed.

Lemma await_failed {A} op (f : P -> result X A * P) (s s' : poolState P C) e :
  await op f s = (Err e, s') -> clientFailed e.
Proof.
  unfold await, onPool. destruct (f (pool s)) as [[a|x] p]; [done|].
  intros [= <- _]. by exists x.
Qed.

Lemma await_trace {A} op (f : P -> result X A * P) (s : poolState P C) :
  trace (await op f s).2 = trace s ++ [op].
Proof. unfold await, onPool. by destruct (f (pool s)) as [[a|x] p]. Qed.

Lemma onClient_trace client sql (s : poolState P C) :
  trace (onClient pg client sql s).2 = trace s ++ [ClientQuery client sql None].
Proof.
  unfold onClient, Steps.bind, Steps.ret.
  pose proof (await_trace (ClientQuery client sql None) (client_query client sql None) s)
    as Ht.
  by destruct (await _ _ s) as [[a|e] s'].
Qed.

Lemma startSession_begun (s : poolState P C) client p1 :
  pool_connect (pool s) = (Ok client, p1) ->
  Postgres.startSession pg None None s
  = match client_query client "BEGIN" None p1 with
    | (Ok _, p2) =>
        (Ok client,
         PoolState p2 (trace s ++ [PoolConnect; ClientQuery client "BEGIN" None]))
    | (Err x, p2) =>
        (Err (Raised (Native x)),
         PoolState p2 (trace s ++ [PoolConnect; ClientQuery client "BEGIN" None]))
    end.
Proof.
  intros Hconnect.
  unfold Postgres.startSession, Steps.bind, Steps.ret, await, onPool, givenText.
  rewrite Hconnect. cbn [pool trace].
  destruct (client_query client "BEGIN" None p1) as [[rows|x] p2];
    by rewrite <- app_assoc.
Qed.

Lemma onlyPool_ret {A} (a : A) : onlyPool (P := P) (C := C) (X := X) (ret a).
Proof. intros w. exists []. by rewrite app_nil_r. Qed.

Lemma onlyPool_throw {A} e : onlyPool (P := P) (C := C) (X := X) (A := A) (throw e).
Proof. intros w. exists []. by rewrite app_nil_r. Qed.

Lemma onlyPool_ofOutcome {A} (o : outcome A) :
  onlyPool (P := P) (C := C) (X := X) (ofOutcome o).
Proof. destruct o; [apply onlyPool_ret|apply onlyPool_throw]. Qed.

Lemma onlyPool_bind {A B} (m : @M (poolState P C) C (thrown X) A) (k : A -> M B) :
  onlyPool m -> (forall a, onlyPool (k a)) -> onlyPool (bind m k).
Proof.
  intros Hm Hk w. unfold bind. destruct (Hm w) as (sent & Htrace & Hsent).
  destruct (m w) as [[a|e] w1]; cbn [snd] in *.
  - destruct (Hk a w1) as (sent' & Htrace' & Hsent').
    exists (sent ++ sent'). split.
    + by rewrite Htrace', Htrace, app_assoc.
    + by apply Forall_app.
  - by exists sent.
Qed.

Lemma onlyPool_query sql params : onlyPool (Crud.driver_query (asBase pg) sql params).
Proof.
  intros w. unfold Crud.driver_query, invoke. cbn.
  destruct (query_trace sql (Some params) (driverState w)) as (op & Hop & Htrace).
  exists [op]. destruct (query pg sql (Some params) None (driverState w)) as [r d].
  split; [done|]. by constructor.
Qed.

Lemma onlyPool_tableExists table : onlyPool (Crud.driver_tableExists (asBase pg) table).
Proof.
  intros w. unfold Crud.driver_tableExists, invoke. cbn.
  unfold Postgres.tableExists, Steps.bind, Steps.ret.
  destruct (query_trace "SELECT to_regclass($1) as exists" (Some [VStr table])
              (driverState w)) as (op & Hop & Htrace).
  exists [op].
  destruct (query pg _ _ None (driverState w)) as [[rows|e] d];
    (split; [done|by constructor]).
Qed.

Lemma onlyPool_parseRows (JSON_parse : value -> option Document) rows :
  onlyPool (P := P) (C := C) (X := X) (Crud.parseRows JSON_parse rows).
Proof.
  induction rows as [|r rows IH]; [apply onlyPool_ret|].
  cbn [Crud.parseRows]. destruct (JSON_parse (prop r "data")); [|apply onlyPool_throw].
  apply onlyPool_bind; [done|]. intros docs. apply onlyPool_ret.
Qed.

Lemma onlyPool_find (JSON_parse : value -> option Document) collection filter options :
  onlyPool (Crud.find (asBase pg) JSON_parse collection filter options).
Proof.
  unfold Crud.find. apply onlyPool_bind; [apply onlyPool_tableExists|].
  intros present. destruct (negb present); [apply onlyPool_ret|].
  apply onlyPool_bind; [apply onlyPool_ofOutcome|]. intros where_.
  apply onlyPool_bind; [apply onlyPool_query|]. intros rows.
  apply onlyPool_parseRows.
Qed.
End PostgresFacts.

(** X27 ([PostgresDriver.connect]). [connect] asks the pool for a
    connection at least once and at most three times and asks nothing
    else of it; it fails only after three attempts, and what it throws
    then is a [StratisQLError] with code [PG_CONNECT] that carries a
    failure of the pool. *)
Theorem connect_gives_up_after_three_attempts
    {P C X : Type} (pg : Postgres.Pool P C X) (s : Postgres.poolState P C) :
  exists attempts,
    (1 <= attempts <= 3)%nat
    /\ Postgres.trace (Postgres.connect pg s).2
       = Postgres.trace s ++ replicate attempts Postgres.PoolConnect
    /\ ((Postgres.connect pg s).1 = Ok tt
        \/ attempts = 3%nat
           /\ exists x,
                (Postgres.connect pg s).1
                = Err (Raised (Errors.Wrapped
                                 (Errors.new "Failed to connect to PostgreSQL after retries"
                                    "PG_CONNECT" (Some x) None None)))).
Proof.
  unfold Postgres.connect, Postgres.connectLoop, Postgres.onPool, Steps.ret.
  destruct (Postgres.pool_connect (Postgres.pool s)) as [[c1|x1] p1];
    cbn [Postgres.pool Postgres.trace Nat.eqb].
  { exists 1%nat. split; [lia|]. split; [done|by left]. }
  destruct (Postgres.pool_connect p1) as [[c2|x2] p2];
    cbn [Postgres.pool Postgres.trace Nat.eqb].
  { exists 2%nat. split; [lia|]. split; [by rewrite <- app_assoc|by left]. }
  destruct (Postgres.pool_connect p2) as [[c3|x3] p3];
    cbn [Postgres.pool Postgres.trace Nat.eqb fst snd].
  { exists 3%nat. split; [lia|]. split; [by rewrite <- !app_assoc|by left]. }
  exists 3%nat. split; [lia|]. split; [by rewrite <- !app_assoc|].
  right. split; [done|]. by exists x3.
Qed.

(** X28 ([PostgresDriver], failures). [query] and the methods built
    on it ([tableExists], [createTable], [dropTable], [listTables],
    [createIndex], [dropIndex]) throw nothing but a [StratisQLError]
    with code [PG_QUERY] that carries a failure of the client; the
    session methods ([startSession], [commit], [rollback], [release])
    throw a failure of the client as it is; and [healthCheck] never
    throws. *)
Theorem driver_failures
    {P C X : Type} (pg : Postgres.Pool P C X) (s : Postgres.poolState P C) :
  (forall sql params session e s',
      Postgres.query pg sql params session s = (Err e, s') -> Postgres.queryFailed e)
  /\ (forall table e s',
         Postgres.tableExists pg table s = (Err e, s') -> Postgres.queryFailed e)
  /\ (forall collection schema e s',
         Postgres.createTable pg collection schema s = (Err e, s') ->
         Postgres.queryFailed e)
  /\ (forall collection e s',
         Postgres.dropTable pg collection s = (Err e, s') -> Postgres.queryFailed e)
  /\ (forall e s', Postgres.listTables pg s = (Err e, s') -> Postgres.queryFailed e)
  /\ (forall collection indexSpec options e s',
         Postgres.createIndex pg collection indexSpec options s = (Err e, s') ->
         Postgres.queryFailed e)
  /\ (forall collection indexName e s',
         Postgres.dropIndex pg collection indexName s = (Err e, s') ->
         Postgres.queryFailed e)
  /\ (forall e s',
         Postgres.startSession pg None None s = (Err e, s') -> Postgres.clientFailed e)
  /\ (forall session e s',
         Postgres.commit pg session s = (Err e, s') -> Postgres.clientFailed e)
  /\ (forall session e s',
         Postgres.rollback pg session s = (Err e, s') -> Postgres.clientFailed e)
  /\ (forall session e s',
         Postgres.release pg session s = (Err e, s') -> Postgres.clientFailed e)
  /\ exists healthy s', Postgres.healthCheck pg s = (Ok healthy, s').
Proof.
  repeat split.
  - intros ? ? ? ? ?. apply query_failed.
  - intros table e s'. apply then_failed. intros ? ? ?. apply query_failed.
  - intros collection schema e s'. apply then_failed. intros ? ? ?. apply query_failed.
  - intros collection e s'. apply then_failed. intros ? ? ?. apply query_failed.
  - intros e s'. apply then_failed. intros ? ? ?. apply query_failed.
  - intros collection indexSpec options e s'. apply then_failed.
    intros ? ? ?. apply query_failed.
  - intros collection indexName e s'. apply then_failed.
    intros ? ? ?. apply query_failed.
  - intros e s'. unfold Postgres.startSession, Steps.bind, Steps.ret, Postgres.givenText.
    destruct (Postgres.await Postgres.PoolConnect _ s) as [[client|e1] s1] eqn:H1.
    + destruct (Postgres.await _ _ s1) as [[rows|e2] s2] eqn:H2; [done|].
      intros [= <- _]. by eapply await_failed.
    + intros [= <- _]. by eapply await_failed.
  - intros session e s'. apply then_failed. intros ? ? ?. apply await_failed.
  - intros session e s'. apply then_failed. intros ? ? ?. apply await_failed.
  - intros session e s'. apply await_failed.
  - unfold Postgres.healthCheck, Postgres.onPool.
    destruct (Postgres.pool_query _ _ _) as [[rows|x] p]; eauto.
Qed.

Lemma driver_failures_witness :
  Postgres.queryFailed
    (Raised (Errors.Wrapped
               (Errors.new "PostgreSQL query failed" "PG_QUERY" (Some "down"%string)
                  None None))).
Proof.
  destruct (driver_failures Scripted.pool (Scripted.fresh [Scripted.Fails "down"]))
    as (_ & Htable & _).
  exact (Htable "users"%string _ _ eq_refl).
Defined.

(** X29 ([PostgresDriver.startSession] under [withTransaction]). When
    the pool hands out a client and [BEGIN] fails on it, the
    transaction wrapper throws that failure without running the work,
    and the client is never released: the session is started outside
    the wrapper's [try]. *)
Theorem failed_begin_leaves_client_unreleased
    {P C X T : Type} (pg : Postgres.Pool P C X)
    (fn : C -> Postgres.poolState P C
          -> result (exn (Errors.thrown X)) T * Postgres.poolState P C)
    (w : world (Postgres.poolState P C) C) (client : C) (p1 p2 : P) (x : X) :
  Postgres.pool_connect (Postgres.pool (driverState w)) = (Ok client, p1) ->
  Postgres.client_query client "BEGIN" None p1 = (Err x, p2) ->
  Transaction.withTransaction (Postgres.asBase pg) fn w
  = (Err (Raised (Errors.Native x)),
     World (Postgres.PoolState p2
              (Postgres.trace (driverState w)
               ++ [Postgres.PoolConnect; Postgres.ClientQuery client "BEGIN" None]))
           (jsHeap w) (calls w ++ [StartSession])).
Proof.
  intros Hconnect Hbegin.
  unfold Transaction.withTransaction, bind, invoke. cbn [startSession Postgres.asBase].
  by rewrite (startSession_begun pg _ client p1 Hconnect), Hbegin.
Qed.

Lemma failed_begin_leaves_client_unreleased_witness :
  Transaction.withTransaction (Postgres.asBase Scripted.pool)
    (fun _ d => (Ok 42, d))
    (World (Scripted.fresh [Scripted.Rows []; Scripted.Fails "no transaction"]) [] [])
  = (Err (Raised (Errors.Native "no transaction"%string)),
     World (Postgres.PoolState []
              ([] ++ [Postgres.PoolConnect; Postgres.ClientQuery 1%nat "BEGIN" None]))
           [] ([] ++ [StartSession])).
Proof.
  apply (failed_begin_leaves_client_unreleased Scripted.pool (fun _ d => (Ok 42, d))
           (World (Scripted.fresh [Scripted.Rows []; Scripted.Fails "no transaction"])
              [] [])
           1%nat [Scripted.Fails "no transaction"] [] "no transaction"%string).
  - reflexivity.
  - reflexivity.
Defined.

(** X30 ([find] as the work of [withTransaction] on the PostgreSQL
    driver). The verbs take no session, so the statements of a [find]
    run inside a transaction go to the pool and none to the
    transaction's client: on that client only [BEGIN], then [COMMIT] or
    [ROLLBACK], are sent before it is released. *)
Theorem find_in_transaction_bypasses_the_session
    {P C X : Type} (pg : Postgres.Pool P C X)
    (JSON_parse : value -> option Document)
    (collection : string) (filter : Document) (options : Types.FindOptions)
    (w : world (Postgres.poolState P C) C) (client : C) (p1 p2 : P)
    (rows : list Document) :
  Postgres.pool_connect (Postgres.pool (driverState w)) = (Ok client, p1) ->
  Postgres.client_query client "BEGIN" None p1 = (Ok rows, p2) ->
  exists sent closing,
    Postgres.trace
      (driverState
         (Transaction.withTransaction (Postgres.asBase pg)
            (fun _ =>
               Postgres.asWork
                 (Crud.find (Postgres.asBase pg) JSON_parse collection filter options))
            w).2)
    = Postgres.trace (driverState w)
      ++ [Postgres.PoolConnect; Postgres.ClientQuery client "BEGIN" None]
      ++ sent ++ closing
    /\ Forall (fun op => Postgres.onThePool op = true) sent
    /\ (closing = [Postgres.ClientQuery client "COMMIT" None;
                   Postgres.ClientRelease client]
        \/ closing = [Postgres.ClientQuery client "COMMIT" None;
                      Postgres.ClientQuery client "ROLLBACK" None;
                      Postgres.ClientRelease client]
        \/ closing = [Postgres.ClientQuery client "ROLLBACK" None;
                      Postgres.ClientRelease client]).
Proof.
  intros Hconnect Hbegin.
  unfold Transaction.withTransaction, bind at 1, invoke at 1.
  cbn [startSession Postgres.asBase].
  rewrite (startSession_begun pg _ client p1 Hconnect), Hbegin.
  set (d1 := Postgres.PoolState p2 _).
  unfold tryFinally, tryCatch, bind, callback, invoke, ret, throw, Postgres.asWork.
  cbn [driverState jsHeap calls commit rollback release Postgres.asBase].
  destruct (onlyPool_find pg JSON_parse collection filter options (World d1 [] []))
    as (sent & Hsent & Hpool).
  destruct (Crud.find _ JSON_parse collection filter options (World d1 [] []))
    as [[docs|e] w2]; cbn [snd driverState] in *.
  - pose proof (onClient_trace pg client "COMMIT" (driverState w2)) as Hcommit.
    unfold Postgres.commit.
    destruct (Postgres.onClient pg client "COMMIT" (driverState w2)) as [[[]|e] d3];
      cbn [snd driverState] in *.
    + pose proof (await_trace (Postgres.ClientRelease client)
                    (Postgres.client_release client) d3) as Hrel.
      unfold Postgres.release.
      exists sent, [Postgres.ClientQuery client "COMMIT" None;
                    Postgres.ClientRelease client].
      split; [|split; [done|by left]].
      destruct (Postgres.await _ _ d3) as [[[]|e] d4]; cbn [snd driverState] in *;
        rewrite Hrel, Hcommit, Hsent; subst d1; cbn [Postgres.trace];
        by rewrite <- !app_assoc.
    + pose proof (onClient_trace pg client "ROLLBACK" d3) as Hrb.
      unfold Postgres.rollback.
      exists sent, [Postgres.ClientQuery client "COMMIT" None;
                    Postgres.ClientQuery client "ROLLBACK" None;
                    Postgres.ClientRelease client].
      split; [|split; [done|right; by left]].
      destruct (Postgres.onClient pg client "ROLLBACK" d3) as [[[]|e'] d4];
        cbn [snd driverState] in *;
        pose proof (await_trace (Postgres.ClientRelease client)
                      (Postgres.client_release client) d4) as Hrel;
        unfold Postgres.release;
        destruct (Postgres.await _ _ d4) as [[[]|e''] d5]; cbn [snd driverState] in *;
        rewrite Hrel, Hrb, Hcommit, Hsent; subst d1; cbn [Postgres.trace];
        by rewrite <- !app_assoc.
  - pose proof (onClient_trace pg client "ROLLBACK" (driverState w2)) as Hrb.
    unfold Postgres.rollback.
    exists sent, [Postgres.ClientQuery client "ROLLBACK" None;
                  Postgres.ClientRelease client].
    split; [|split; [done|right; by right]].
    destruct (Postgres.onClient pg client "ROLLBACK" (driverState w2)) as [[[]|e'] d4];
      cbn [snd driverState] in *;
      pose proof (await_trace (Postgres.ClientRelease client)
                    (Postgres.client_release client) d4) as Hrel;
      unfold Postgres.release;
      destruct (Postgres.await _ _ d4) as [[[]|e''] d5]; cbn [snd driverState] in *;
      rewrite Hrel, Hrb, Hsent; subst d1; cbn [Postgres.trace];
      by rewrite <- !app_assoc.
Qed.

Lemma find_in_transaction_bypasses_the_session_witness :
  exists sent closing,
    Postgres.trace
      (driverState
         (Transaction.withTransaction (Postgres.asBase Scripted.pool)
            (fun _ =>
               Postgres.asWork
                 (Crud.find (Postgres.asBase Scripted.pool) Run.parsed "users"
                    [("age", VNum 30)] Types.noOptions))
            (World (Scripted.fresh
                      [Scripted.Rows []; Scripted.Rows [];
                       Scripted.Rows [[("exists", VStr "users")]];
                       Scripted.Rows [[("data", VObj [("age", VNum 30)])]]])
                   [] [])).2)
    = Postgres.trace
        (driverState
           (World (Scripted.fresh
                     [Scripted.Rows []; Scripted.Rows [];
                      Scripted.Rows [[("exists", VStr "users")]];
                      Scripted.Rows [[("data", VObj [("age", VNum 30)])]]])
                  [] ([] : list (call nat))))
      ++ [Postgres.PoolConnect; Postgres.ClientQuery 1%nat "BEGIN" None]
      ++ sent ++ closing
    /\ Forall (fun op => Postgres.onThePool op = true) sent
    /\ (closing = [Postgres.ClientQuery 1%nat "COMMIT" None;
                   Postgres.ClientRelease 1%nat]
        \/ closing = [Postgres.ClientQuery 1%nat "COMMIT" None;
                      Postgres.ClientQuery 1%nat "ROLLBACK" None;
                      Postgres.ClientRelease 1%nat]
        \/ closing = [Postgres.ClientQuery 1%nat "ROLLBACK" None;
                      Postgres.ClientRelease 1%nat]).
Proof.
  apply (find_in_transaction_bypasses_the_session Scripted.pool Run.parsed "users"
           [("age", VNum 30)] Types.noOptions
           (World (Scripted.fresh
                     [Scripted.Rows []; Scripted.Rows [];
                      Scripted.Rows [[("exists", VStr "users")]];
                      Scripted.Rows [[("data", VObj [("age", VNum 30)])]]])
                  [] [])
           1%nat
           [Scripted.Rows [];
            Scripted.Rows [[("exists", VStr "users")]];
            Scripted.Rows [[("data", VObj [("age", VNum 30)])]]]
           [Scripted.Rows [[("exists", VStr "users")]];
            Scripted.Rows [[("data", VObj [("age", VNum 30)])]]]
           []).
  - reflexivity.
  - reflexivity.
Defined.
